(** * SolvingMicroDSOPs: the endogenous-gridpoints life-cycle solvers

    A shallow embedding of [SolvingMicroDSOPs.py].  Floating-point numbers
    are idealised as real numbers: every arithmetic operation is exact.  An
    operation whose Python/NumPy result is not a real number (an exception,
    [nan], a division by zero, the power of a non-positive base) makes the
    enclosing computation return [None].  The one non-real value that the
    source produces on purpose, [np.inf] in [Vsigma_Tminus1]/[Vsigma_t], is
    kept as a value of its own ([npfloat]). *)

From Stdlib Require Import Reals Lra Lia List ZArith Bool Psatz FinFun.
Import ListNotations.
Open Scope R_scope.

(** ** Failing computations *)

Definition bind {A B : Type} (m : option A) (k : A -> option B) : option B :=
  match m with
  | Some x => k x
  | None => None
  end.

Declare Scope err_scope.
Delimit Scope err_scope with err.
Notation "x <- m ;; k" := (bind m (fun x => k))
  (at level 61, m at next level, right associativity) : err_scope.
Notation "' p <- m ;; k" := (bind m (fun p => k))
  (at level 61, p pattern, m at next level, right associativity) : err_scope.
Open Scope err_scope.

(** A Python [for x in l: s = body(s, x)] whose body may raise. *)
Fixpoint for_each {S A : Type} (body : S -> A -> option S) (l : list A) (s : S)
  : option S :=
  match l with
  | [] => Some s
  | x :: rest => s' <- body s x ;; for_each body rest s'
  end.

(** [mapM f l]: the list of the results of [f], or [None] as soon as one
    call fails. *)
Fixpoint mapM {A B : Type} (f : A -> option B) (l : list A) : option (list B) :=
  match l with
  | [] => Some []
  | x :: rest => y <- f x ;; ys <- mapM f rest ;; Some (y :: ys)
  end.

(** ** Python containers *)

Module Py.

(** [l[i]] for [0 <= i]; [IndexError] out of range. *)
Definition list_get {A : Type} (l : list A) (i : nat) : option A := nth_error l i.

(** [l[i] = v] for [0 <= i]; [IndexError] out of range. *)
Fixpoint list_set {A : Type} (l : list A) (i : nat) (v : A) : option (list A) :=
  match l, i with
  | [], _ => None
  | _ :: t, O => Some (v :: t)
  | h :: t, S i' => t' <- list_set t i' v ;; Some (h :: t')
  end.

(** [l[-1]]; [IndexError] on the empty list. *)
Fixpoint list_last {A : Type} (l : list A) : option A :=
  match l with
  | [] => None
  | [x] => Some x
  | _ :: t => list_last t
  end.

(** [min(l)]; [ValueError] on the empty sequence. *)
Fixpoint list_min (l : list R) : option R :=
  match l with
  | [] => None
  | [x] => Some x
  | x :: t => m <- list_min t ;; Some (Rmin x m)
  end.

(** [range(start, stop)] over naturals. *)
Definition range (start stop : nat) : list nat := seq start (stop - start).

(** [range(start, stop, -1)] over integers. *)
Definition range_down (start stop : Z) : list Z :=
  map (fun k => (start - Z.of_nat k)%Z) (seq 0 (Z.to_nat (start - stop))).

(** A [dict] keyed by period index.  Python dictionaries keep insertion
    order, and the order in which periods are stored is part of what is
    claimed about the solvers, so the model is an association list. *)
Definition dict (V : Type) : Type := list (Z * V).

Fixpoint dict_get {V : Type} (d : dict V) (k : Z) : option V :=
  match d with
  | [] => None
  | (k', v) :: rest => if Z.eqb k k' then Some v else dict_get rest k
  end.

(** [d[k] = v]: overwrite in place when [k] is present, append otherwise. *)
Fixpoint dict_set {V : Type} (d : dict V) (k : Z) (v : V) : dict V :=
  match d with
  | [] => [(k, v)]
  | (k', v') :: rest =>
      if Z.eqb k k' then (k, v) :: rest else (k', v') :: dict_set rest k v
  end.

Definition keys {V : Type} (d : dict V) : list Z := map fst d.

End Py.

(** ** NumPy scalars *)

(** [np.log]: real-valued on positive arguments only. *)
Definition np_log (x : R) : option R :=
  if Rlt_dec 0 x then Some (ln x) else None.

(** [x ** y] on floats.  With a positive base this is the real power; a
    non-positive base with the exponents used here ([-rho], [-1/rho]) gives
    [inf], [nan] or an exception. *)
Definition float_pow (x y : R) : option R :=
  if Rlt_dec 0 x then Some (Rpower x y) else None.

(** [x / y]: no real result when [y = 0] ([ZeroDivisionError] between
    Python floats, [inf] or [nan] between NumPy scalars). *)
Definition float_div (x y : R) : option R :=
  if Req_dec_T y 0 then None else Some (x / y).

(** Strictly increasing sequences, as a proposition and as the test made by
    the interpolator's constructor. *)
Fixpoint strictly_increasing (l : list R) : Prop :=
  match l with
  | x :: ((y :: _) as tl) => x < y /\ strictly_increasing tl
  | _ => True
  end.

Fixpoint strictly_increasingb (l : list R) : bool :=
  match l with
  | x :: ((y :: _) as tl) => if Rlt_dec x y then strictly_increasingb tl else false
  | _ => true
  end.

Fixpoint nondecreasing (l : list R) : Prop :=
  match l with
  | x :: ((y :: _) as tl) => x <= y /\ nondecreasing tl
  | _ => True
  end.

(** ** The multi-exponential asset grid: [setup_grids_expMult] *)

Module Grids.

(** [np.exp(x) - 1], which undoes [np.log(x + 1)]. *)
Definition unnest (x : R) : R := exp x - 1.

(** What the loop over [j] leaves in the cell it first fills from
    [point]: one [unnest], then [timestonest - 1] more. *)
Definition cell (timestonest : nat) (point : R) : R :=
  Nat.iter (timestonest - 1) unnest (unnest point).

(** The [while i <= timestonest] loop: [timestonest] nested [log(1 + .)]. *)
Fixpoint nest_log (n : nat) (gMaxNested : R) : option R :=
  match n with
  | O => Some gMaxNested
  | S n' => g <- np_log (gMaxNested + 1) ;; nest_log n' g
  end.

(** One pass of [for i in range(2, timestonest + 1)]:
    [points[size - j] = np.exp(points[size - j]) - 1]. *)
Definition renest (k : nat) (points : list R) (_ : nat) : option (list R) :=
  x <- Py.list_get points k ;; Py.list_set points k (exp x - 1).

(** The body of [for j in range(1, size + 1)], on the state
    [(point, points)]. *)
Definition fill (size timestonest : nat) (index : R)
    (st : R * list R) (j : nat) : option (R * list R) :=
  let '(point, points) := st in
  points <- Py.list_set points (size - j) (exp point - 1) ;;
  let point := point - index in
  points <- for_each (renest (size - j)) (Py.range 2 (timestonest + 1)) points ;;
  Some (point, points).

(** [setup_grids_expMult(minval, maxval, size, timestonest)].
    [np.empty(size)] is an array of arbitrary contents, here zeros; every
    cell is written before it is read.  [index] is only read inside the
    loop over [j], which is empty when [size = 0]. *)
Definition setup_grids_expMult_n (minval maxval : R) (size timestonest : nat)
  : option (list R) :=
  gMaxNested <- nest_log timestonest maxval ;;
  let index := gMaxNested / INR size in
  let point := gMaxNested in
  let points := repeat 0 size in
  '(_, points) <- for_each (fill size timestonest index)
                    (Py.range 1 (size + 1)) (point, points) ;;
  Some points.

(** The three-argument call, [timestonest=20]. *)
Definition setup_grids_expMult (minval maxval : R) (size : nat) : option (list R) :=
  setup_grids_expMult_n minval maxval size 20.

End Grids.

(** ** Piecewise-linear policy functions *)

Module Spline.

(** A policy function is its sequence of knots [(state, control)]. *)
Definition policy : Type := list (R * R).

(** Modelled from the spec: [scipy]'s [InterpolatedUnivariateSpline(x, y, k=1)]
    is the spec's PolicyFunction, "an ordered sequence of knot pairs
    (state, control), state strictly increasing".  The constructor needs
    as many ordinates as abscissae, more than [k = 1] points, and strictly
    increasing abscissae; it raises otherwise. *)
Definition InterpolatedUnivariateSpline (x y : list R) : option policy :=
  if (Nat.eqb (length x) (length y) && Nat.leb 2 (length x)
      && strictly_increasingb x)%bool
  then Some (combine x y)
  else None.

(** The line through two knots. *)
Definition segment (p q : R * R) (x : R) : R :=
  snd p + (snd q - snd p) / (fst q - fst p) * (x - fst p).

(** Modelled from the spec: PolicyFunction evaluation, "linear
    interpolation inside the knot range and linear extrapolation (using
    the nearest segment's slope) outside it". *)
Fixpoint evaluate (knots : policy) (x : R) : R :=
  match knots with
  | [] => 0
  | p :: tl =>
      match tl with
      | [] => snd p
      | q :: rest =>
          match rest with
          | [] => segment p q x
          | _ :: _ => if Rle_dec x (fst q) then segment p q x else evaluate tl x
          end
      end
  end.

End Spline.

(** ** Utility and discretised shocks *)

Module Utility.

(** Modelled from the spec: [Utility.marginal(c)] "returns c^(-rho).
    Fails with DomainError if c <= 0" (class [Utility] of
    [Code.Python.resources] is not part of the source file). *)
Definition marginal (rho c : R) : option R :=
  if Rlt_dec 0 c then Some (Rpower c (- rho)) else None.

(** Modelled from the spec: [Utility.inverse_marginal(u)] "returns
    u^(-1/rho) ... Fails with DomainError if u <= 0".  The exponent [-1/rho]
    does not exist for [rho = 0], which the spec's UtilityParams exclude. *)
Definition inverse_marginal (rho u : R) : option R :=
  if Rlt_dec 0 u then e <- float_div (- 1) rho ;; Some (Rpower u e) else None.

End Utility.

Record DiscreteNode : Type := { value : R; probability : R }.

(** A discretised distribution: a finite sequence of mass points. *)
Definition DiscreteApproximation : Type := list DiscreteNode.

(** Two independent discretised distributions: [X1] the income shock, [X2]
    the risky return. *)
Record DiscreteApproximationTwoIndependentDistribs : Type :=
  { X1 : DiscreteApproximation; X2 : DiscreteApproximation }.

Module Expect.

(** Modelled from the spec: [DiscreteApproximation.expectation(f)]
    "returns Sum_i probability_i * f(value_i)"; the integrand may fail. *)
Fixpoint expectation (d : DiscreteApproximation) (f : R -> option R) : option R :=
  match d with
  | [] => Some 0
  | n :: rest =>
      y <- f (value n) ;;
      s <- expectation rest f ;;
      Some (probability n * y + s)
  end.

Definition sum_over (d : DiscreteApproximation) (g : DiscreteNode -> R) : R :=
  fold_right (fun n acc => g n + acc) 0 d.

(** Modelled from the spec: [JointDiscreteApproximation.expectation(f)]
    "returns Sum_i Sum_j p1_i * p2_j * f(value1_i, value2_j)" (the
    method [E] of [DiscreteApproximationTwoIndependentDistribs]). *)
Definition E (D : DiscreteApproximationTwoIndependentDistribs)
    (f : R -> R -> R) : R :=
  sum_over (X1 D) (fun n1 =>
    sum_over (X2 D) (fun n2 =>
      probability n1 * probability n2 * f (value n1) (value n2))).

End Expect.

(** ** The single-control engine *)

Module Gothic.

(** Class [Gothic] lives in [Code.Python.gothic_class], outside the source
    file; its configuration and the methods the solver calls follow the
    spec's GothicEngine. *)
Record config : Type :=
  { discount : R;
    risk_aversion : R;
    growth_factor : R;
    gross_return : R;
    shock_distribution : DiscreteApproximation }.

(** Modelled from the spec: [expected_marginal_value(a, c_next_or_none)] is
    "discount * gross_return * growth_factor^(-rho) *
    shock_distribution.expectation(theta |-> marginal_next(...))", the
    continuation argument being [gross_return * a / growth_factor + theta],
    passed through [c_next] when it is present. *)
Definition expected_marginal_value (g : config) (a : R)
    (c_next : option (R -> R)) : option R :=
  e <- Expect.expectation (shock_distribution g) (fun theta =>
         let m := gross_return g * a / growth_factor g + theta in
         Utility.marginal (risk_aversion g)
           (match c_next with Some c => c m | None => m end)) ;;
  gr <- float_pow (growth_factor g) (- risk_aversion g) ;;
  Some (discount g * gross_return g * gr * e).

(** Modelled from the spec: [implied_consumption(a, c_next_or_none)]
    "returns utility.inverse_marginal(expected_marginal_value(a,
    c_next_or_none))". *)
Definition implied_consumption (g : config) (a : R)
    (c_next : option (R -> R)) : option R :=
  v <- expected_marginal_value g a c_next ;;
  Utility.inverse_marginal (risk_aversion g) v.

(** The two entry points the solver calls. *)
Definition C_Tminus1 (g : config) (a : R) : option R :=
  implied_consumption g a None.

Definition C_t (g : config) (a : R) (c_prime : R -> R) : option R :=
  implied_consumption g a (Some c_prime).

End Gothic.

(** [self_a_min = -min(theta.X) * PermGroFac[0] / R], the natural borrowing
    limit. *)
Definition self_a_min (theta_X : list R) (PermGroFac0 Rfree : R) : option R :=
  m <- Py.list_min theta_X ;;
  float_div (- m * PermGroFac0) Rfree.

(** ** The life-cycle solver (section 11 of the notebook) *)

Module LifeCycle.
Section Solver.

(** The engine's two methods, the natural limit, the asset grid and the
    constraint switch are what the script fixes before the loops. *)
Variable C_Tminus1 : R -> option R.
Variable C_t : R -> (R -> R) -> option R.
Variable self_a_min : R.
Variable aVec_eee : list R.
Variable constrained : bool.

(** [mVec = [self_a_min]; if constrained and self_a_min < 0: mVec = [0.0]] *)
Definition mVec0 : list R :=
  if constrained then
    if Rlt_dec self_a_min 0 then [0] else [self_a_min]
  else [self_a_min].

(** The body of [for a in aVec_eee], on the state [(cVec, mVec)]. *)
Definition sweep_step (C : R -> option R) (st : list R * list R) (a : R)
  : option (list R * list R) :=
  let '(cVec, mVec) := st in
  c <- C a ;;
  let m := c + a in
  let c := if constrained then Rmin c m else c in
  Some (cVec ++ [c], mVec ++ [m]).

(** The knots of one period: [(cVec, mVec)] after the sweep. *)
Definition sweep (C : R -> option R) : option (list R * list R) :=
  for_each (sweep_step C) aVec_eee ([0], mVec0).

(** The implied consumption of a period: [gothic.C_Tminus1] in the last
    decision period, [gothic.C_t(., cFunc)] against the policy of the
    following period otherwise. *)
Definition consumption (c_next : option Spline.policy) : R -> option R :=
  match c_next with
  | None => C_Tminus1
  | Some cFunc => fun a => C_t a (Spline.evaluate cFunc)
  end.

(** One period: the sweep, then the interpolation through its knots. *)
Definition solve_period (c_next : option Spline.policy) : option Spline.policy :=
  '(cVec, mVec) <- sweep (consumption c_next) ;;
  Spline.InterpolatedUnivariateSpline mVec cVec.

(** The knot-wise operations of the sweep, on a pair [(c, a)] of implied
    consumption and asset level: the stored control and the stored state. *)
Definition stored_c (ca : R * R) : R :=
  let '(c, a) := ca in if constrained then Rmin c (c + a) else c.

Definition stored_m (ca : R * R) : R :=
  let '(c, a) := ca in c + a.

(** The body of [for t in range(T - 2, -1, -1)], on [(cFunc, cFunc_life)]. *)
Definition life_step (st : Spline.policy * Py.dict Spline.policy) (t : Z)
  : option (Spline.policy * Py.dict Spline.policy) :=
  let '(cFunc, cFunc_life) := st in
  cFunc <- solve_period (Some cFunc) ;;
  Some (cFunc, Py.dict_set cFunc_life t cFunc).

(** The state after the first [k] passes of the backward loop. *)
Definition life_cycle_upto (T : Z) (k : nat)
  : option (Spline.policy * Py.dict Spline.policy) :=
  cFunc <- solve_period None ;;
  for_each life_step (firstn k (Py.range_down (T - 2) (-1)))
    (cFunc, [((T - 1)%Z, cFunc)]).

(** The whole computation: [cFunc_life = {T - 1: cFunc}], then the loop. *)
Definition life_cycle (T : Z) : option (Spline.policy * Py.dict Spline.policy) :=
  cFunc <- solve_period None ;;
  for_each life_step (Py.range_down (T - 2) (-1))
    (cFunc, [((T - 1)%Z, cFunc)]).

End Solver.
End LifeCycle.

(** ** The engine with a portfolio share: class [GothicMC] *)

(** [np.linspace(0.0, 1.0, num)]. *)
Definition np_linspace01 (num : nat) : list R :=
  match num with
  | O => []
  | S O => [0]
  | _ => map (fun i => INR i / INR (num - 1)) (seq 0 num)
  end.

Module GothicMC.

(** A value of [Vsigma_Tminus1]/[Vsigma_t]: a real number or [np.inf]. *)
Inductive npfloat : Type :=
| Fin (x : R)
| PInf.

(** [f > 0.0], [f < 0.0], [f <= 0.0], [f >= 0.0]. *)
Definition gt0 (f : npfloat) : bool :=
  match f with
  | Fin x => if Rlt_dec 0 x then true else false
  | PInf => true
  end.

Definition lt0 (f : npfloat) : bool :=
  match f with
  | Fin x => if Rlt_dec x 0 then true else false
  | PInf => false
  end.

Definition le0 (f : npfloat) : bool :=
  match f with
  | Fin x => if Rle_dec x 0 then true else false
  | PInf => false
  end.

Definition ge0 (f : npfloat) : bool :=
  match f with
  | Fin x => if Rle_dec 0 x then true else false
  | PInf => true
  end.

(** The attributes of a [GothicMC] instance that its methods read.
    [u.prime] belongs to class [Utility], and [Gamma], [Gamma_to_minusRho]
    are set by the constructor of the parent class [Gothic]; neither class
    is part of the source file, so the marginal utility and the two
    numbers [Gamma[-1]], [Gamma_to_minusRho[-1]] are taken as they come.
    The growth factor is not zero.  [u_prime] gives the value of [u.prime]
    where it has one, at positive arguments; a statement that needs the
    call to succeed says that its arguments are positive. *)
Record engine : Type :=
  { u_prime : R -> R;
    beta : R;
    rho : R;
    Gamma_last : R;
    Gamma_to_minusRho_last : R;
    Rfree : R;
    Distribution : DiscreteApproximationTwoIndependentDistribs;
    share_grid_size : nat;
    Gamma_nonzero : Gamma_last <> 0 }.

(** [self.varsigma_grids = np.linspace(0.0, 1.0, self.share_grid_size)] *)
Definition varsigma_grids (g : engine) : list R :=
  np_linspace01 (share_grid_size g).

Definition Vsigma_Tminus1 (g : engine) (a varsigma : R) : npfloat :=
  if Req_dec_T a 0 then PInf
  else
    let Vshare_func := fun tinc_shk rreturn =>
      (rreturn - Rfree g)
      * u_prime g ((Rfree g + (rreturn - Rfree g) * varsigma) * a / Gamma_last g
                   + tinc_shk) in
    Fin (beta g * a / Gamma_last g * Expect.E (Distribution g) Vshare_func).

Definition Vsigma_t (g : engine) (a varsigma : R) (c_prime : R -> R) : npfloat :=
  if Req_dec_T a 0 then PInf
  else
    let Vshare_func := fun tinc_shk rreturn =>
      (rreturn - Rfree g)
      * u_prime g (c_prime
                     ((Rfree g + (rreturn - Rfree g) * varsigma) * a / Gamma_last g
                      + tinc_shk)) in
    Fin (beta g * a / Gamma_last g * Expect.E (Distribution g) Vshare_func).

(** [np.logical_and(FOC_s[1:] <= 0.0, FOC_s[:-1] >= 0.0)] *)
Definition crossing (FOC_s : list npfloat) : list bool :=
  map (fun '(hi, lo) => (le0 hi && ge0 lo)%bool)
      (combine (tl FOC_s) (removelast FOC_s)).

(** [np.argwhere]: the indices of the true entries, in order. *)
Fixpoint argwhere_from (i : nat) (l : list bool) : list nat :=
  match l with
  | [] => []
  | b :: rest => (if b then [i] else []) ++ argwhere_from (S i) rest
  end.

Definition argwhere (l : list bool) : list nat := argwhere_from 0 l.

(** [alpha = 1.0 - top_f / (top_f - bot_f)] and
    [(1.0 - alpha) * bot_s + alpha * top_s].  With [bot_f = inf] the
    quotient is [top_f / -inf], a zero, so [alpha = 1.0]; with
    [top_f = inf] the quotient is [nan].  With two real values that are
    equal the quotient is a division by zero. *)
Definition interpolate (bot_s top_s : R) (bot_f top_f : npfloat) : option R :=
  match top_f, bot_f with
  | Fin t, Fin b =>
      q <- float_div t (t - b) ;;
      let alpha := 1 - q in
      Some ((1 - alpha) * bot_s + alpha * top_s)
  | Fin t, PInf =>
      let alpha := 1 - 0 in
      Some ((1 - alpha) * bot_s + alpha * top_s)
  | PInf, _ => None
  end.

(** The part of [varsigma_Tminus1] and [varsigma_t] after [FOC_s] is
    filled; the two methods have the same text there. *)
Definition find_share (a : R) (share_girds : list R) (FOC_s : list npfloat)
  : option R :=
  if Rlt_dec a 0 then Some 0
  else
    last_f <- Py.list_last FOC_s ;;
    if gt0 last_f then Some 1
    else
      first_f <- Py.list_get FOC_s 0 ;;
      if lt0 first_f then Some 0
      else
        idx <- hd_error (argwhere (crossing FOC_s)) ;;
        bot_s <- Py.list_get share_girds idx ;;
        top_s <- Py.list_get share_girds (idx + 1) ;;
        bot_f <- Py.list_get FOC_s idx ;;
        top_f <- Py.list_get FOC_s (idx + 1) ;;
        interpolate bot_s top_s bot_f top_f.

Definition varsigma_Tminus1 (g : engine) (a : R) : option R :=
  let share_girds := varsigma_grids g in
  let FOC_s := map (fun s => Vsigma_Tminus1 g a s) share_girds in
  find_share a share_girds FOC_s.

Definition varsigma_t (g : engine) (a : R) (c_prime : R -> R) : option R :=
  let share_girds := varsigma_grids g in
  let FOC_s := map (fun s => Vsigma_t g a s c_prime) share_girds in
  find_share a share_girds FOC_s.

Definition Va_Tminus1 (g : engine) (a : R) : option R :=
  varsigma_opt <- varsigma_Tminus1 g a ;;
  let Va_func := fun tinc_shk rreturn =>
    (Rfree g + (rreturn - Rfree g) * varsigma_opt)
    * u_prime g ((Rfree g + (rreturn - Rfree g) * varsigma_opt) * a / Gamma_last g
                 + tinc_shk) in
  Some (beta g * Gamma_to_minusRho_last g * Expect.E (Distribution g) Va_func).

Definition Va_t (g : engine) (a : R) (c_prime : R -> R) : option R :=
  varsigma_opt <- varsigma_t g a c_prime ;;
  let Va_func := fun tinc_shk rreturn =>
    (Rfree g + (rreturn - Rfree g) * varsigma_opt)
    * u_prime g (c_prime
                   ((Rfree g + (rreturn - Rfree g) * varsigma_opt) * a / Gamma_last g
                    + tinc_shk)) in
  Some (beta g * Gamma_to_minusRho_last g * Expect.E (Distribution g) Va_func).

(** [self.Va_Tminus1(a) ** (-1.0 / self.rho)] *)
Definition C_Tminus1 (g : engine) (a : R) : option R :=
  v <- Va_Tminus1 g a ;;
  e <- float_div (- 1) (rho g) ;;
  float_pow v e.

Definition C_t (g : engine) (a : R) (c_prime : R -> R) : option R :=
  v <- Va_t g a c_prime ;;
  e <- float_div (- 1) (rho g) ;;
  float_pow v e.

End GothicMC.

(** ** The portfolio life-cycle solver (section 12 of the notebook) *)

Module Portfolio.
Section Solver.

Variable gothicMC : GothicMC.engine.
Variable aVec_eee_big : list R.

(** What one period leaves behind: the three knot vectors and the two
    interpolated functions. *)
Record period : Type :=
  { cVec_port : list R;
    mVec_port : list R;
    varsigmaVec_port : list R;
    cFunc : Spline.policy;
    varsigmaFunc : Spline.policy }.

(** The five dictionaries of the script. *)
Record life : Type :=
  { mGridPort_life : Py.dict (list R);
    cGridPort_life : Py.dict (list R);
    varsigmaGrid_life : Py.dict (list R);
    cFuncPort_life : Py.dict Spline.policy;
    varsigma_life : Py.dict Spline.policy }.

(** The body of [for a in aVec_eee_big], on
    [(cVec_port, mVec_port, varsigmaVec_port)]. *)
Definition sweep_step (share C : R -> option R)
    (st : list R * list R * list R) (a : R) : option (list R * list R * list R) :=
  let '(cVec, mVec, varsigmaVec) := st in
  varsigma <- share a ;;
  c <- C a ;;
  let m := c + a in
  let c := Rmin c m in
  Some (cVec ++ [c], mVec ++ [m], varsigmaVec ++ [varsigma]).

Definition sweep (share C : R -> option R) : option (list R * list R * list R) :=
  for_each (sweep_step share C) aVec_eee_big ([0], [0], [0]).

(** One period: the sweep and the two interpolations; [c_next] is absent
    in the last period. *)
Definition solve_period (c_next : option Spline.policy) : option period :=
  let share := match c_next with
               | None => GothicMC.varsigma_Tminus1 gothicMC
               | Some f => fun a => GothicMC.varsigma_t gothicMC a (Spline.evaluate f)
               end in
  let C := match c_next with
           | None => GothicMC.C_Tminus1 gothicMC
           | Some f => fun a => GothicMC.C_t gothicMC a (Spline.evaluate f)
           end in
  '(cVec, mVec, varsigmaVec) <- sweep share C ;;
  cF <- Spline.InterpolatedUnivariateSpline mVec cVec ;;
  vF <- Spline.InterpolatedUnivariateSpline (tl mVec) (tl varsigmaVec) ;;
  Some {| cVec_port := cVec; mVec_port := mVec; varsigmaVec_port := varsigmaVec;
          cFunc := cF; varsigmaFunc := vF |}.

(** Storing a period under index [t] in the five dictionaries. *)
Definition store (l : life) (t : Z) (p : period) : life :=
  {| mGridPort_life := Py.dict_set (mGridPort_life l) t (mVec_port p);
     cGridPort_life := Py.dict_set (cGridPort_life l) t (cVec_port p);
     varsigmaGrid_life := Py.dict_set (varsigmaGrid_life l) t (varsigmaVec_port p);
     cFuncPort_life := Py.dict_set (cFuncPort_life l) t (cFunc p);
     varsigma_life := Py.dict_set (varsigma_life l) t (varsigmaFunc p) |}.

Definition empty_life : life :=
  {| mGridPort_life := []; cGridPort_life := []; varsigmaGrid_life := [];
     cFuncPort_life := []; varsigma_life := [] |}.

(** The body of [for t in range(T - 2, 0, -1)], on the current [cFunc] and
    the dictionaries. *)
Definition life_step (st : Spline.policy * life) (t : Z)
  : option (Spline.policy * life) :=
  let '(cF, l) := st in
  p <- solve_period (Some cF) ;;
  Some (cFunc p, store l t p).

(** The state after the first [k] passes of the backward loop. *)
Definition life_cycle_upto (T : Z) (k : nat) : option (Spline.policy * life) :=
  p <- solve_period None ;;
  for_each life_step (firstn k (Py.range_down (T - 2) 0))
    (cFunc p, store empty_life (T - 1) p).

(** The last period, the five dictionaries [{T - 1: ...}], then the loop. *)
Definition life_cycle (T : Z) : option (Spline.policy * life) :=
  p <- solve_period None ;;
  for_each life_step (Py.range_down (T - 2) 0)
    (cFunc p, store empty_life (T - 1) p).

End Solver.
End Portfolio.

(** ** The marginal value of the share, in the words of the specification *)

Module SpecWords.

(** [portfolio_return(R, share) = gross_return + (R - gross_return) * share] *)
Definition portfolio_return (g : GothicMC.engine) (Rrisky share : R) : R :=
  GothicMC.Rfree g + (Rrisky - GothicMC.Rfree g) * share.

(** [marginal_next]: marginal utility, of next period's consumption when a
    policy is given, of all resources otherwise. *)
Definition marginal_next (g : GothicMC.engine) (c_next : option (R -> R)) (m : R) : R :=
  match c_next with
  | Some c => GothicMC.u_prime g (c m)
  | None => GothicMC.u_prime g m
  end.

(** [discount * (a / growth_factor) * joint_distribution.expectation(
    (theta, R) |-> (R - gross_return)
       * marginal_next(portfolio_return(R, share) * a / growth_factor + theta))] *)
Definition marginal_value_of_share (g : GothicMC.engine) (a share : R)
    (c_next : option (R -> R)) : R :=
  GothicMC.beta g * (a / GothicMC.Gamma_last g)
  * Expect.E (GothicMC.Distribution g) (fun theta Rrisky =>
      (Rrisky - GothicMC.Rfree g)
      * marginal_next g c_next
          (portfolio_return g Rrisky share * (a / GothicMC.Gamma_last g) + theta)).

End SpecWords.

(** ** The provisos of the share solvers *)

(** The evaluations of the first-order condition are real-valued: every
    argument handed to [u.prime] while [FOC_s] is filled, one for each grid
    share, income value and risky return, is positive.  [post] is the
    identity for [varsigma_Tminus1] and [c_prime] for [varsigma_t].  At
    [a = 0] the marginal value is [np.inf] and [u.prime] is not called. *)
Definition FOC_real_valued (g : GothicMC.engine) (a : R) (post : R -> R) : Prop :=
  a <> 0 ->
  forall s n1 n2,
    In s (GothicMC.varsigma_grids g) ->
    In n1 (X1 (GothicMC.Distribution g)) ->
    In n2 (X2 (GothicMC.Distribution g)) ->
    0 < post ((GothicMC.Rfree g + (value n2 - GothicMC.Rfree g) * s) * a
              / GothicMC.Gamma_last g + value n1).


(** ** Well-posed inputs *)

(** The configurations the spec calls well-posed: positive discount factor,
    risk aversion, growth factor and gross return, strictly positive shock
    values, and probabilities that are non-negative and sum to one. *)
Definition well_posed (g : Gothic.config) : Prop :=
  0 < Gothic.discount g /\
  0 < Gothic.risk_aversion g /\
  0 < Gothic.growth_factor g /\
  0 < Gothic.gross_return g /\
  (forall n, In n (Gothic.shock_distribution g) ->
     0 < value n /\ 0 <= probability n) /\
  Expect.sum_over (Gothic.shock_distribution g) probability = 1.

(** An asset grid: non-empty, strictly increasing, strictly positive. *)
Definition asset_grid (l : list R) : Prop :=
  l <> [] /\ strictly_increasing l /\ Forall (fun a => 0 < a) l.

(** A policy that starts at control [0], at a state that is not positive,
    and rises from there: states strictly increasing, controls
    non-decreasing and positive after the first knot. *)
Definition rising (p : Spline.policy) : Prop :=
  match p with
  | p0 :: p1 :: _ =>
      fst p0 <= 0 /\ snd p0 = 0 /\ 0 < snd p1 /\
      strictly_increasing (map fst p) /\ nondecreasing (map snd p)
  | _ => False
  end.

(** The continuations the backward loop meets: none in the last period, a
    rising policy afterwards. *)
Definition continuation (c_next : option Spline.policy) : Prop :=
  match c_next with
  | None => True
  | Some p => rising p
  end.

(** The dictionaries of the portfolio solver are filled together: under a
    period index either none has an entry, or their entries are the knot
    vectors and the policy of one solved period. *)
Definition from_period (gothicMC : GothicMC.engine) (aVec_eee_big : list R)
    (l : Portfolio.life) : Prop :=
  forall t,
    (Py.dict_get (Portfolio.mGridPort_life l) t = None /\
     Py.dict_get (Portfolio.cGridPort_life l) t = None /\
     Py.dict_get (Portfolio.cFuncPort_life l) t = None) \/
    (exists c_next p,
       Portfolio.solve_period gothicMC aVec_eee_big c_next = Some p /\
       Py.dict_get (Portfolio.mGridPort_life l) t = Some (Portfolio.mVec_port p) /\
       Py.dict_get (Portfolio.cGridPort_life l) t = Some (Portfolio.cVec_port p) /\
       Py.dict_get (Portfolio.cFuncPort_life l) t = Some (Portfolio.cFunc p)).

(** [theta.X]: the values of the discretised income shock. *)
Definition theta_X (g : Gothic.config) : list R :=
  map value (Gothic.shock_distribution g).

(** ** Small parameterisations on which the code is run *)

Module Examples.

(** All the mass on one point. *)
Definition point_mass (x : R) : DiscreteApproximation :=
  [{| value := x; probability := 1 |}].

(** A [GothicMC] engine with logarithmic utility ([u'(c) = 1/c],
    [rho = 1]), no discounting, no growth, riskless return [1], income
    [1] and a risky return that is always [Rrisky]; the share grid is
    [np.linspace(0, 1, 2)]. *)
Definition gmc (Rrisky : R) : GothicMC.engine :=
  {| GothicMC.u_prime := fun c => / c;
     GothicMC.beta := 1;
     GothicMC.rho := 1;
     GothicMC.Gamma_last := 1;
     GothicMC.Gamma_to_minusRho_last := 1;
     GothicMC.Rfree := 1;
     GothicMC.Distribution := {| X1 := point_mass 1; X2 := point_mass Rrisky |};
     GothicMC.share_grid_size := 2;
     GothicMC.Gamma_nonzero := R1_neq_R0 |}.

(** The risky asset pays [2] for sure: it dominates. *)
Definition gmc_risky : GothicMC.engine := gmc 2.


(** A single-control configuration: logarithmic utility, no discounting,
    no growth, riskless return [1], and all the income mass on [theta]. *)
Definition gothic (theta : R) : Gothic.config :=
  {| Gothic.discount := 1;
     Gothic.risk_aversion := 1;
     Gothic.growth_factor := 1;
     Gothic.gross_return := 1;
     Gothic.shock_distribution := point_mass theta |}.

End Examples.

(** ** The triple-exponential grid: [set_up_improved_EEE_a_grid] *)

(** What running a piece of code that loops on a condition gives: a value, a
    result that is not real-valued, or no answer within the allotted number
    of loop tests. *)
Inductive outcome (A : Type) : Type :=
| Returns (x : A)
| NoRealValue
| StillRunning.

Arguments Returns {A} x.
Arguments NoRealValue {A}.
Arguments StillRunning {A}.

Module EEE.

(** [log(1 + log(1 + log(1 + x)))], with NumPy's [log]: [None] stands for
    [nan] or [-inf]. *)
Definition nested_log3 (x : R) : option R :=
  l1 <- np_log (1 + x) ;;
  l2 <- np_log (1 + l1) ;;
  np_log (1 + l2).

(** [exp(exp(exp(p) - 1) - 1) - 1] *)
Definition unnest3 (p : R) : R := exp (exp (exp p - 1) - 1) - 1.

(** The loop [while point < gridMin: point = point + index;
    points.append(point)], with [fuel] tests of its condition at most.  A
    comparison with [nan] or [-inf] is false, so the loop does not start
    when [gridMin] is not real.  When [index] is not real the points that
    the body appends are not real ([nan], [inf]), or ([-inf]) the loop does
    not end. *)
Fixpoint grid_loop (fuel : nat) (index gridMin : option R) (point : R)
    (points : list R) : outcome (list R) :=
  match fuel with
  | O => StillRunning
  | S fuel' =>
      match gridMin with
      | None => Returns points
      | Some gm =>
          if Rlt_dec point gm then
            match index with
            | None => NoRealValue
            | Some ix =>
                grid_loop fuel' index gridMin (point + ix) (points ++ [point + ix])
            end
          else Returns points
      end
  end.

(** [set_up_improved_EEE_a_grid(minval, maxval, size)].  The statement
    between [gridMin] and [index] computes a quotient and drops it; the
    counter [i] is never read. *)
Definition set_up_improved_EEE_a_grid (fuel : nat) (minval maxval : R) (size : nat)
  : outcome (list R) :=
  let gMinMin := 0.01 * minval in
  let gMaxMax := 10 * maxval in
  let gridMin := nested_log3 gMaxMax in
  let index :=
    lmin <- nested_log3 gMinMin ;;
    lmax <- nested_log3 gMaxMax ;;
    q <- float_div (lmax - lmin) (INR size) ;;
    Some (lmin + q) in
  let point := 0 in
  let points := [] in
  match grid_loop fuel index gridMin point points with
  | Returns points => Returns (map unnest3 points)
  | NoRealValue => NoRealValue
  | StillRunning => StillRunning
  end.

End EEE.

(** ** One more parameterisation *)

Module MoreExamples.

(** As [Examples.gmc], with a risky return that is [1/2] or [2] with equal
    probabilities: neither asset dominates. *)
Definition gmc_mixed : GothicMC.engine :=
  {| GothicMC.u_prime := fun c => / c;
     GothicMC.beta := 1;
     GothicMC.rho := 1;
     GothicMC.Gamma_last := 1;
     GothicMC.Gamma_to_minusRho_last := 1;
     GothicMC.Rfree := 1;
     GothicMC.Distribution :=
       {| X1 := Examples.point_mass 1;
          X2 := [{| value := 1 / 2; probability := 1 / 2 |};
                 {| value := 2; probability := 1 / 2 |}] |};
     GothicMC.share_grid_size := 2;
     GothicMC.Gamma_nonzero := R1_neq_R0 |}.

End MoreExamples.

(** Under the index [t] the five dictionaries of the portfolio solver hold
    what the period [p] left behind. *)
Definition stored_at (l : Portfolio.life) (t : Z) (p : Portfolio.period) : Prop :=
  Py.dict_get (Portfolio.mGridPort_life l) t = Some (Portfolio.mVec_port p) /\
  Py.dict_get (Portfolio.cGridPort_life l) t = Some (Portfolio.cVec_port p) /\
  Py.dict_get (Portfolio.varsigmaGrid_life l) t = Some (Portfolio.varsigmaVec_port p) /\
  Py.dict_get (Portfolio.cFuncPort_life l) t = Some (Portfolio.cFunc p) /\
  Py.dict_get (Portfolio.varsigma_life l) t = Some (Portfolio.varsigmaFunc p).

(** * Facts *)

(** ** Generic lemmas on the containers *)

Lemma bind_some {A B : Type} (m : option A) (k : A -> option B) (y : B) :
  bind m k = Some y -> exists x, m = Some x /\ k x = Some y.
Proof.
  destruct m as [x|]; simpl; intros H; [exists x; auto | discriminate].
Qed.

Lemma for_each_app {S A : Type} (body : S -> A -> option S) (l1 l2 : list A) (s : S) :
  for_each body (l1 ++ l2) s = (s' <- for_each body l1 s ;; for_each body l2 s').
Proof.
  revert s; induction l1 as [|x l1 IH]; intros s; simpl; [reflexivity|].
  destruct (body s x) as [s'|]; simpl; [apply IH | reflexivity].
Qed.

Lemma list_set_spec {A : Type} (l : list A) (i : nat) (v : A) :
  (i < length l)%nat ->
  exists l', Py.list_set l i v = Some l' /\ length l' = length l /\
             forall j d, nth j l' d = if Nat.eqb j i then v else nth j l d.
Proof.
  revert i; induction l as [|h t IH]; intros i Hi; simpl in Hi; [lia|].
  destruct i as [|i].
  - exists (v :: t); simpl; repeat split; auto.
    intros [|j] d; reflexivity.
  - destruct (IH i) as (t' & E & L & N); [lia|].
    exists (h :: t'); simpl; rewrite E; simpl; repeat split; auto.
    intros [|j] d; simpl; [reflexivity | apply N].
Qed.

Lemma list_get_nth {A : Type} (l : list A) (i : nat) (d : A) :
  (i < length l)%nat -> Py.list_get l i = Some (nth i l d).
Proof.
  intros Hi; unfold Py.list_get. apply nth_error_nth'. exact Hi.
Qed.

Lemma strictly_increasing_nth (l : list R) :
  (forall i, (S i < length l)%nat -> nth i l 0 < nth (S i) l 0) ->
  strictly_increasing l.
Proof.
  induction l as [|x [|y t] IH]; intros H; simpl; auto.
  split.
  - apply (H 0%nat); simpl; lia.
  - apply IH. intros i Hi. apply (H (S i)). simpl in *; lia.
Qed.

Lemma last_nth_pred (l : list R) (d : R) :
  last l d = nth (length l - 1) l d.
Proof.
  induction l as [|x [|y t] IH]; simpl; auto.
  simpl in IH. rewrite IH. rewrite Nat.sub_0_r. reflexivity.
Qed.

(** ** The asset grid *)

Section GridFacts.


Lemma Ex_pos x : 0 < x -> 0 < Grids.unnest x.
Proof.
  intros H; unfold Grids.unnest. pose proof (exp_increasing 0 x H) as E.
  rewrite exp_0 in E. lra.
Qed.

Lemma Ex_lt x y : x < y -> Grids.unnest x < Grids.unnest y.
Proof. intros H; unfold Grids.unnest. pose proof (exp_increasing x y H). lra. Qed.

Lemma iter_Ex_pos n x : 0 < x -> 0 < Nat.iter n Grids.unnest x.
Proof. induction n; simpl; intros; auto using Ex_pos. Qed.

Lemma iter_Ex_lt n x y : x < y -> Nat.iter n Grids.unnest x < Nat.iter n Grids.unnest y.
Proof. induction n; simpl; intros; auto using Ex_lt. Qed.

Lemma cell_pos n x : 0 < x -> 0 < Grids.cell n x.
Proof. intros; unfold Grids.cell; apply iter_Ex_pos, Ex_pos; assumption. Qed.

Lemma cell_lt n x y : x < y -> Grids.cell n x < Grids.cell n y.
Proof. intros; unfold Grids.cell; apply iter_Ex_lt, Ex_lt; assumption. Qed.

Lemma cell_iter n x : (1 <= n)%nat -> Grids.cell n x = Nat.iter n Grids.unnest x.
Proof.
  intros Hn; unfold Grids.cell. destruct n as [|n]; [lia|].
  simpl. rewrite Nat.sub_0_r. clear Hn.
  induction n; simpl; [reflexivity | f_equal; exact IHn].
Qed.

Lemma nest_log_inverse n maxval :
  0 < maxval ->
  exists g, Grids.nest_log n maxval = Some g /\ 0 < g /\ Nat.iter n Grids.unnest g = maxval.
Proof.
  revert maxval; induction n as [|n IH]; intros x Hx; simpl.
  - exists x; auto.
  - unfold np_log. destruct (Rlt_dec 0 (x + 1)) as [_|N]; [|lra]. simpl.
    assert (Hl : 0 < ln (x + 1)).
    { rewrite <- ln_1. apply ln_increasing; lra. }
    destruct (IH _ Hl) as (g & E & Hg & I).
    exists g; repeat split; auto.
    change (Grids.unnest (Nat.iter n Grids.unnest g) = x).
    rewrite I. unfold Grids.unnest. rewrite exp_ln; lra.
Qed.

Lemma renest_loop k (js : list nat) (points : list R) :
  (k < length points)%nat ->
  exists points', for_each (Grids.renest k) js points = Some points' /\
    length points' = length points /\
    forall i d, nth i points' d =
      if Nat.eqb i k then Nat.iter (length js) Grids.unnest (nth k points d)
      else nth i points d.
Proof.
  revert points; induction js as [|j js IH]; intros points Hk; simpl.
  - exists points; repeat split; auto.
    intros i d. destruct (Nat.eqb_spec i k); subst; reflexivity.
  - unfold Grids.renest at 1.
    rewrite (list_get_nth points k 0 Hk). simpl.
    destruct (list_set_spec points k (exp (nth k points 0) - 1) Hk)
      as (p1 & E1 & L1 & N1).
    rewrite E1; simpl.
    destruct (IH p1) as (p2 & E2 & L2 & N2); [lia|].
    exists p2; repeat split; [exact E2 | lia |].
    intros i d. rewrite N2. destruct (Nat.eqb_spec i k) as [->|Hne].
    + rewrite N1, Nat.eqb_refl.
      rewrite (nth_indep points 0 d Hk).
      fold (Grids.unnest (nth k points d)).
      clear; induction (length js); simpl; [reflexivity | f_equal; assumption].
    + rewrite N1. destruct (Nat.eqb_spec i k); [contradiction | reflexivity].
Qed.

Lemma fill_spec size n index point points j :
  (1 <= j <= size)%nat -> length points = size ->
  exists points', Grids.fill size n index (point, points) j
                  = Some (point - index, points') /\
    length points' = size /\
    forall i d, nth i points' d =
      if Nat.eqb i (size - j) then Grids.cell n point else nth i points d.
Proof.
  intros Hj Hl. unfold Grids.fill.
  assert (Hk : (size - j < length points)%nat) by lia.
  destruct (list_set_spec points (size - j) (exp point - 1) Hk)
    as (p1 & E1 & L1 & N1).
  rewrite E1; simpl.
  destruct (renest_loop (size - j) (Py.range 2 (n + 1)) p1)
    as (p2 & E2 & L2 & N2); [lia|].
  rewrite E2; simpl. exists p2; repeat split; [lia|].
  intros i d. rewrite N2. destruct (Nat.eqb_spec i (size - j)) as [->|Hne].
  - rewrite N1, Nat.eqb_refl. unfold Grids.cell, Py.range.
    rewrite length_seq. replace (n + 1 - 2)%nat with (n - 1)%nat by lia.
    reflexivity.
  - rewrite N1. destruct (Nat.eqb_spec i (size - j)); [contradiction | reflexivity].
Qed.

(** The loop over [j = j0, ..., j0 + cnt - 1]: the entry [size - j] receives
    the un-nested value of the [j]-th visited point. *)
Lemma fill_loop size n index cnt : forall j0 point points,
  (1 <= j0)%nat -> (j0 + cnt <= size + 1)%nat -> length points = size ->
  exists points',
    for_each (Grids.fill size n index) (seq j0 cnt) (point, points)
    = Some (point - INR cnt * index, points') /\
    length points' = size /\
    forall i d, nth i points' d =
      if ((size + 1 <=? i + (j0 + cnt)) && (i + j0 <=? size))%nat
      then Grids.cell n (point - INR (size - i - j0) * index)
      else nth i points d.
Proof.
  induction cnt as [|cnt IH]; intros j0 point points Hj0 Hb Hl.
  - cbn [seq for_each]. exists points. split; [|split; [assumption|]].
    + f_equal. f_equal. simpl. lra.
    + intros i d.
      destruct (Nat.leb_spec (size + 1) (i + (j0 + 0)));
        destruct (Nat.leb_spec (i + j0) size); cbn [andb]; try reflexivity; lia.
  - cbn [seq for_each].
    destruct (fill_spec size n index point points j0) as (p1 & E1 & L1 & N1);
      [lia | assumption |].
    rewrite E1. cbn [bind].
    destruct (IH (S j0) (point - index) p1) as (p2 & E2 & L2 & N2);
      [lia | lia | assumption |].
    rewrite E2. exists p2. repeat split; auto.
    + f_equal. f_equal. rewrite S_INR. lra.
    + intros i d. rewrite N2, N1.
      destruct (Nat.leb_spec (size + 1) (i + (S j0 + cnt)));
        destruct (Nat.leb_spec (i + S j0) size);
        destruct (Nat.leb_spec (size + 1) (i + (j0 + S cnt)));
        destruct (Nat.leb_spec (i + j0) size);
        destruct (Nat.eqb_spec i (size - j0)); cbn [andb]; try lia; auto.
      * f_equal. replace (size - i - j0)%nat with (S (size - i - S j0)) by lia.
        rewrite S_INR. lra.
      * f_equal. subst i. replace (size - (size - j0) - j0)%nat with 0%nat by lia.
        simpl. lra.
Qed.

Lemma setup_grids_spec minval maxval size n :
  0 < maxval -> (1 <= size)%nat -> (1 <= n)%nat ->
  exists g a_grid,
    Grids.nest_log n maxval = Some g /\ 0 < g /\ Nat.iter n Grids.unnest g = maxval /\
    Grids.setup_grids_expMult_n minval maxval size n = Some a_grid /\
    length a_grid = size /\
    forall i, (i < size)%nat ->
      nth i a_grid 0 = Nat.iter n Grids.unnest (g * (INR (i + 1) / INR size)).
Proof.
  intros Hmax Hsize Hn.
  destruct (nest_log_inverse n maxval Hmax) as (g & E & Hg & I).
  unfold Grids.setup_grids_expMult_n. rewrite E. cbn [bind].
  unfold Py.range. replace (size + 1 - 1)%nat with size by lia.
  destruct (fill_loop size n (g / INR size) size 1 g (repeat 0 size))
    as (pts & E2 & L2 & N2); [lia | lia | apply repeat_length |].
  rewrite E2. cbn [bind]. exists g, pts. repeat split; auto.
  intros i Hi. rewrite N2.
  destruct (Nat.leb_spec (size + 1) (i + (1 + size)));
    destruct (Nat.leb_spec (i + 1) size); cbn [andb]; try lia.
  rewrite cell_iter by assumption. f_equal.
  assert (Hs : 0 < INR size) by (apply lt_0_INR; lia).
  replace (INR (i + 1)) with (INR size - INR (size - i - 1)).
  - field. lra.
  - rewrite <- minus_INR by lia. f_equal. lia.
Qed.

(** C9.  For [maxval > 0] and [size >= 1] the call
    [setup_grids_expMult(minval, maxval, size)] returns a grid of exactly
    [size] points, strictly increasing, all strictly positive, whose
    largest (last) point is [maxval]. *)
Theorem setup_grids_expMult_ordered (minval maxval : R) (size : nat) :
  0 < maxval -> (1 <= size)%nat ->
  exists a_grid,
    Grids.setup_grids_expMult minval maxval size = Some a_grid /\
    length a_grid = size /\
    strictly_increasing a_grid /\
    Forall (fun a => 0 < a) a_grid /\
    last a_grid 0 = maxval.
Proof.
  intros Hmax Hsize.
  destruct (setup_grids_spec minval maxval size 20 Hmax Hsize)
    as (g & a_grid & _ & Hg & I & E & L & N); [lia|].
  assert (Hs : 0 < INR size) by (apply lt_0_INR; lia).
  exists a_grid. split; [exact E|]. split; [exact L|]. split; [|split].
  - apply strictly_increasing_nth. intros i Hi. rewrite L in Hi.
    rewrite !N by lia. apply iter_Ex_lt.
    apply Rmult_lt_compat_l; [exact Hg|].
    apply Rmult_lt_compat_r; [apply Rinv_0_lt_compat; exact Hs|].
    apply lt_INR. lia.
  - apply Forall_forall. intros a Ha.
    destruct (In_nth _ _ 0 Ha) as (i & Hi & <-). rewrite L in Hi.
    rewrite N by assumption. apply iter_Ex_pos.
    apply Rmult_lt_0_compat; [exact Hg|].
    apply Rdiv_lt_0_compat; [apply lt_0_INR; lia | exact Hs].
  - rewrite last_nth_pred, L, N by lia.
    replace (size - 1 + 1)%nat with size by lia.
    replace (g * (INR size / INR size)) with g by (field; lra).
    exact I.
Qed.

Lemma setup_grids_expMult_ordered_witness :
  0 < 4 /\ (1 <= 40)%nat /\
  exists a_grid,
    Grids.setup_grids_expMult 0 4 40 = Some a_grid /\
    length a_grid = 40%nat /\
    strictly_increasing a_grid /\
    Forall (fun a => 0 < a) a_grid /\
    last a_grid 0 = 4.
Proof.
  split; [lra|]. split; [lia|].
  apply (setup_grids_expMult_ordered 0 4 40); [lra | lia].
Defined.

End GridFacts.

(** ** The portfolio engine *)

Section GothicMCFacts.

Import GothicMC.

Lemma sum_over_ext d (f h : DiscreteNode -> R) :
  (forall n, f n = h n) -> Expect.sum_over d f = Expect.sum_over d h.
Proof.
  intros H; induction d as [|n d IH]; simpl; [reflexivity|].
  rewrite H, IH; reflexivity.
Qed.

Lemma E_ext D (f h : R -> R -> R) :
  (forall x y, f x y = h x y) -> Expect.E D f = Expect.E D h.
Proof.
  intros H; unfold Expect.E.
  apply sum_over_ext; intros n1. apply sum_over_ext; intros n2.
  rewrite H; reflexivity.
Qed.

Lemma np_linspace01_length num : length (np_linspace01 num) = num.
Proof.
  destruct num as [|[|num]]; simpl; auto.
  rewrite length_map, length_seq. reflexivity.
Qed.

Lemma np_linspace01_range num :
  Forall (fun s => 0 <= s <= 1) (np_linspace01 num).
Proof.
  destruct num as [|[|num]].
  - constructor.
  - constructor; [lra | constructor].
  - change (np_linspace01 (S (S num)))
      with (map (fun i => INR i / INR (S (S num) - 1)) (seq 0 (S (S num)))).
    apply Forall_forall. intros s Hs.
    apply in_map_iff in Hs. destruct Hs as (i & <- & Hi).
    apply in_seq in Hi.
    assert (Hd : 0 < INR (S (S num) - 1)) by (apply lt_0_INR; lia).
    split.
    + apply Rmult_le_pos; [apply pos_INR | left; apply Rinv_0_lt_compat; exact Hd].
    + apply Rmult_le_reg_r with (INR (S (S num) - 1)); [exact Hd|].
      unfold Rdiv. rewrite Rmult_assoc, Rinv_l, Rmult_1_r, Rmult_1_l by lra.
      apply le_INR. lia.
Qed.

Lemma crossing_cons f0 f1 rest :
  crossing (f0 :: f1 :: rest) = (le0 f1 && ge0 f0)%bool :: crossing (f1 :: rest).
Proof. reflexivity. Qed.




Lemma list_last_some {A : Type} (l : list A) :
  l <> [] -> exists x, Py.list_last l = Some x /\ In x l.
Proof.
  induction l as [|x [|y t] IH]; intros H; [contradiction | |].
  - exists x; simpl; auto.
  - destruct IH as (z & E & I); [discriminate|].
    exists z; split; [exact E | right; exact I].
Qed.

Lemma list_get_in {A : Type} (l : list A) i x :
  Py.list_get l i = Some x -> In x l.
Proof. apply nth_error_In. Qed.

Lemma list_get_lt {A : Type} (l : list A) i :
  (i < length l)%nat -> exists x, Py.list_get l i = Some x.
Proof.
  intros H. unfold Py.list_get.
  destruct (nth_error l i) eqn:E; [eauto|].
  apply nth_error_None in E. lia.
Qed.






(** *** The engines of [Examples] *)

Lemma E_point_mass x y f :
  Expect.E {| X1 := Examples.point_mass x; X2 := Examples.point_mass y |} f = f x y.
Proof. unfold Expect.E; simpl. ring. Qed.

Lemma gmc_grids r : varsigma_grids (Examples.gmc r) = [0; 1].
Proof.
  unfold varsigma_grids; simpl. f_equal; [|f_equal]; field.
Qed.

Lemma gmc_Vsigma_Tminus1 r a s :
  a <> 0 ->
  Vsigma_Tminus1 (Examples.gmc r) a s
  = Fin (a * ((r - 1) * / ((1 + (r - 1) * s) * a + 1))).
Proof.
  intros Ha. unfold Vsigma_Tminus1.
  destruct (Req_dec_T a 0) as [|_]; [contradiction|].
  cbn [Examples.gmc Distribution Rfree u_prime beta Gamma_last].
  rewrite E_point_mass. f_equal. unfold Rdiv. rewrite Rinv_1, !Rmult_1_r, Rmult_1_l.
  reflexivity.
Qed.

Lemma gmc_Vsigma_t r a s c_prime :
  a <> 0 ->
  Vsigma_t (Examples.gmc r) a s c_prime
  = Fin (a * ((r - 1) * / c_prime ((1 + (r - 1) * s) * a + 1))).
Proof.
  intros Ha. unfold Vsigma_t.
  destruct (Req_dec_T a 0) as [|_]; [contradiction|].
  cbn [Examples.gmc Distribution Rfree u_prime beta Gamma_last].
  rewrite E_point_mass. f_equal. unfold Rdiv. rewrite Rinv_1, !Rmult_1_r, Rmult_1_l.
  reflexivity.
Qed.

(** With a risky return that is always above the riskless one, the
    marginal value of the share is positive at [share = 1]: the solver
    takes the corner. *)
Lemma gmc_risky_varsigma_Tminus1 a :
  0 < a -> varsigma_Tminus1 Examples.gmc_risky a = Some 1.
Proof.
  intros Ha. unfold varsigma_Tminus1, Examples.gmc_risky.
  rewrite gmc_grids. cbn [map].
  rewrite !gmc_Vsigma_Tminus1 by lra.
  unfold find_share. destruct (Rlt_dec a 0); [lra|].
  cbn [Py.list_last bind gt0].
  destruct (Rlt_dec 0 (a * ((2 - 1) * / ((1 + (2 - 1) * 1) * a + 1)))) as [|N];
    [reflexivity|].
  exfalso; apply N.
  apply Rmult_lt_0_compat; [lra|].
  apply Rmult_lt_0_compat; [lra|].
  apply Rinv_0_lt_compat. lra.
Qed.

Lemma gmc_risky_varsigma_t a c_prime :
  0 < a -> 0 < c_prime (2 * a + 1) ->
  varsigma_t Examples.gmc_risky a c_prime = Some 1.
Proof.
  intros Ha Hc. unfold varsigma_t, Examples.gmc_risky.
  rewrite gmc_grids. cbn [map].
  rewrite !gmc_Vsigma_t by lra.
  unfold find_share. destruct (Rlt_dec a 0); [lra|].
  cbn [Py.list_last bind gt0].
  replace ((1 + (2 - 1) * 1) * a + 1) with (2 * a + 1) by ring.
  destruct (Rlt_dec 0 (a * ((2 - 1) * / c_prime (2 * a + 1)))) as [|N];
    [reflexivity|].
  exfalso; apply N.
  apply Rmult_lt_0_compat; [lra|].
  apply Rmult_lt_0_compat; [lra|].
  apply Rinv_0_lt_compat. exact Hc.
Qed.

Lemma gmc_risky_Va_Tminus1 a :
  0 < a -> Va_Tminus1 Examples.gmc_risky a = Some (2 / (2 * a + 1)).
Proof.
  intros Ha. unfold Va_Tminus1. rewrite gmc_risky_varsigma_Tminus1 by assumption.
  cbn [bind]. unfold Examples.gmc_risky.
  cbn [Examples.gmc Distribution Rfree u_prime beta Gamma_last Gamma_to_minusRho_last].
  rewrite E_point_mass. f_equal. field. lra.
Qed.

Lemma gmc_risky_Va_t a c_prime :
  0 < a -> 0 < c_prime (2 * a + 1) ->
  Va_t Examples.gmc_risky a c_prime = Some (2 / c_prime (2 * a + 1)).
Proof.
  intros Ha Hc. unfold Va_t. rewrite gmc_risky_varsigma_t by assumption.
  cbn [bind]. unfold Examples.gmc_risky.
  cbn [Examples.gmc Distribution Rfree u_prime beta Gamma_last Gamma_to_minusRho_last].
  rewrite E_point_mass.
  replace ((1 + (2 - 1) * 1) * a / 1 + 1) with (2 * a + 1) by field.
  f_equal. field. lra.
Qed.

Lemma Rpower_m1 x : 0 < x -> Rpower x (- 1) = / x.
Proof.
  intros H. replace (- 1) with (- (1)) by lra.
  rewrite Rpower_Ropp, Rpower_1; auto.
Qed.

Lemma gmc_risky_C_Tminus1 a :
  0 < a -> C_Tminus1 Examples.gmc_risky a = Some ((2 * a + 1) / 2).
Proof.
  intros Ha. unfold C_Tminus1. rewrite gmc_risky_Va_Tminus1 by assumption.
  cbn [bind]. unfold float_div. cbn [Examples.gmc_risky Examples.gmc rho].
  destruct (Req_dec_T 1 0); [lra|]. cbn [bind].
  unfold float_pow.
  assert (Hv : 0 < 2 / (2 * a + 1)).
  { apply Rdiv_lt_0_compat; lra. }
  destruct (Rlt_dec 0 (2 / (2 * a + 1))); [|contradiction].
  f_equal. replace (- 1 / 1) with (- 1) by field.
  rewrite Rpower_m1 by assumption. field. lra.
Qed.

Lemma gmc_risky_C_t a c_prime :
  0 < a -> 0 < c_prime (2 * a + 1) ->
  C_t Examples.gmc_risky a c_prime = Some (c_prime (2 * a + 1) / 2).
Proof.
  intros Ha Hc. unfold C_t. rewrite gmc_risky_Va_t by assumption.
  cbn [bind]. unfold float_div. cbn [Examples.gmc_risky Examples.gmc rho].
  destruct (Req_dec_T 1 0); [lra|]. cbn [bind].
  unfold float_pow.
  assert (Hv : 0 < 2 / c_prime (2 * a + 1)).
  { apply Rdiv_lt_0_compat; lra. }
  destruct (Rlt_dec 0 (2 / c_prime (2 * a + 1))); [|contradiction].
  f_equal. replace (- 1 / 1) with (- 1) by field.
  rewrite Rpower_m1 by assumption. field. lra.
Qed.


End GothicMCFacts.

(** ** Claims on the portfolio engine *)

Section GothicMCClaims.

Import GothicMC.

(** C1.  Whenever the expected marginal value [Va] is strictly positive,
    the implied consumption [C = Va ** (-1/rho)] is returned and satisfies
    the first-order condition: marginal utility [x |-> x^(-rho)] applied
    to it gives back [Va]; this holds for [C_t] against [Va_t] and for
    [C_Tminus1] against [Va_Tminus1].  The risk aversion is not zero. *)
Theorem implied_consumption_foc (g : engine) (a : R) (c_prime : R -> R) :
  rho g <> 0 ->
  (forall v, Va_t g a c_prime = Some v -> 0 < v ->
     exists c, C_t g a c_prime = Some c /\
               c = Rpower v (- 1 / rho g) /\ Rpower c (- rho g) = v) /\
  (forall v, Va_Tminus1 g a = Some v -> 0 < v ->
     exists c, C_Tminus1 g a = Some c /\
               c = Rpower v (- 1 / rho g) /\ Rpower c (- rho g) = v).
Proof.
  intros Hrho.
  assert (K : forall v, 0 < v ->
            (e <- float_div (- 1) (rho g) ;; float_pow v e)
            = Some (Rpower v (- 1 / rho g)) /\
            Rpower (Rpower v (- 1 / rho g)) (- rho g) = v).
  { intros v Hv. unfold float_div, float_pow.
    destruct (Req_dec_T (rho g) 0); [contradiction|]. cbn [bind].
    destruct (Rlt_dec 0 v); [|contradiction]. split; [reflexivity|].
    rewrite Rpower_mult.
    replace (- 1 / rho g * - rho g) with 1 by (field; assumption).
    apply Rpower_1; assumption. }
  split; intros v Hv Hpos; destruct (K v Hpos) as [K1 K2].
  - unfold C_t. rewrite Hv. cbn [bind]. rewrite K1. eauto.
  - unfold C_Tminus1. rewrite Hv. cbn [bind]. rewrite K1. eauto.
Qed.

Lemma implied_consumption_foc_witness :
  rho Examples.gmc_risky <> 0 /\
  Va_t Examples.gmc_risky 1 (fun m => m) = Some (2 / 3) /\
  Va_Tminus1 Examples.gmc_risky 1 = Some (2 / 3) /\
  0 < 2 / 3 /\
  (exists c, C_t Examples.gmc_risky 1 (fun m => m) = Some c /\
             c = Rpower (2 / 3) (- 1 / rho Examples.gmc_risky) /\
             Rpower c (- rho Examples.gmc_risky) = 2 / 3) /\
  (exists c, C_Tminus1 Examples.gmc_risky 1 = Some c /\
             c = Rpower (2 / 3) (- 1 / rho Examples.gmc_risky) /\
             Rpower c (- rho Examples.gmc_risky) = 2 / 3).
Proof.
  assert (Hr : rho Examples.gmc_risky <> 0) by (simpl; lra).
  assert (Ht : Va_t Examples.gmc_risky 1 (fun m => m) = Some (2 / 3)).
  { rewrite gmc_risky_Va_t by lra. f_equal. lra. }
  assert (HT : Va_Tminus1 Examples.gmc_risky 1 = Some (2 / 3)).
  { rewrite gmc_risky_Va_Tminus1 by lra. f_equal. lra. }
  assert (Hp : 0 < 2 / 3) by lra.
  split; [exact Hr|]. split; [exact Ht|]. split; [exact HT|]. split; [exact Hp|].
  split.
  - exact (proj1 (implied_consumption_foc Examples.gmc_risky 1 (fun m => m) Hr)
             (2 / 3) Ht Hp).
  - exact (proj2 (implied_consumption_foc Examples.gmc_risky 1 (fun m => m) Hr)
             (2 / 3) HT Hp).
Defined.












Lemma list_last_map_const {A : Type} (l : list A) (c : npfloat) :
  Py.list_last (map (fun _ => c) l) = match l with [] => None | _ => Some c end.
Proof.
  induction l as [|x [|y t] IH]; try reflexivity.
  change (Py.list_last (map (fun _ => c) (y :: t)) = Some c). rewrite IH.
  reflexivity.
Qed.

Lemma find_share_all_inf {A : Type} (l : list A) (share_girds : list R) :
  find_share 0 share_girds (map (fun _ => PInf) l)
  = match l with [] => None | _ => Some 1 end.
Proof.
  unfold find_share. destruct (Rlt_dec 0 0); [lra|].
  rewrite list_last_map_const. destruct l; reflexivity.
Qed.

Lemma Vsigma_Tminus1_zero g s : Vsigma_Tminus1 g 0 s = PInf.
Proof. unfold Vsigma_Tminus1. destruct (Req_dec_T 0 0); [reflexivity | lra]. Qed.

Lemma Vsigma_t_zero g s c_prime : Vsigma_t g 0 s c_prime = PInf.
Proof. unfold Vsigma_t. destruct (Req_dec_T 0 0); [reflexivity | lra]. Qed.

(** C4, as stated, fails: at [a = 0] every marginal value of the share is
    [+inf], the test [FOC_s[-1] > 0.0] succeeds, and the solver returns the
    share [1], not [0]. *)
Lemma varsigma_zero_assets_counterexample :
  Vsigma_Tminus1 Examples.gmc_risky 0 1 = PInf /\
  varsigma_Tminus1 Examples.gmc_risky 0 = Some 1 /\
  varsigma_Tminus1 Examples.gmc_risky 0 <> Some 0 /\
  varsigma_t Examples.gmc_risky 0 (fun m => m) = Some 1 /\
  varsigma_t Examples.gmc_risky 0 (fun m => m) <> Some 0.
Proof.
  assert (E1 : varsigma_Tminus1 Examples.gmc_risky 0 = Some 1).
  { unfold varsigma_Tminus1, Examples.gmc_risky. rewrite gmc_grids. cbn [map].
    rewrite !Vsigma_Tminus1_zero. unfold find_share.
    destruct (Rlt_dec 0 0); [lra | reflexivity]. }
  assert (E2 : varsigma_t Examples.gmc_risky 0 (fun m => m) = Some 1).
  { unfold varsigma_t, Examples.gmc_risky. rewrite gmc_grids. cbn [map].
    rewrite !Vsigma_t_zero. unfold find_share.
    destruct (Rlt_dec 0 0); [lra | reflexivity]. }
  split; [apply Vsigma_Tminus1_zero|].
  rewrite E1, E2. repeat split; try reflexivity; intros H; injection H; lra.
Qed.

(** C4, amended.  At exactly [a = 0] the marginal value of the share,
    [Vsigma_Tminus1] and [Vsigma_t], is [+inf] for every share; the share
    solvers then take the [share = 1] corner, for every non-empty share
    grid (with an empty grid they fail). *)
Theorem Vsigma_zero_assets (g : engine) (share : R) (c_prime : R -> R) :
  Vsigma_Tminus1 g 0 share = PInf /\
  Vsigma_t g 0 share c_prime = PInf /\
  varsigma_Tminus1 g 0
    = (if Nat.eqb (share_grid_size g) 0 then None else Some 1) /\
  varsigma_t g 0 c_prime
    = (if Nat.eqb (share_grid_size g) 0 then None else Some 1).
Proof.
  split; [apply Vsigma_Tminus1_zero|]. split; [apply Vsigma_t_zero|].
  assert (K : match varsigma_grids g with [] => None | _ => Some 1 end
              = (if Nat.eqb (share_grid_size g) 0 then None (A := R) else Some 1)).
  { pose proof (np_linspace01_length (share_grid_size g)) as L.
    unfold varsigma_grids.
    destruct (np_linspace01 (share_grid_size g)); simpl in L;
      rewrite <- L; reflexivity. }
  split.
  - unfold varsigma_Tminus1.
    rewrite (map_ext _ (fun _ => PInf) (Vsigma_Tminus1_zero g)).
    rewrite find_share_all_inf. exact K.
  - unfold varsigma_t.
    rewrite (map_ext _ (fun _ => PInf)
               (fun s => Vsigma_t_zero g s c_prime)).
    rewrite find_share_all_inf. exact K.
Qed.

(** C5.  For [a <> 0] the marginal value of the share computed by
    [Vsigma_Tminus1] is [discount * (a / growth_factor)] times the joint
    expectation of [(R - gross_return) * marginal_utility(portfolio_return(R,
    share) * a / growth_factor + theta)], and [Vsigma_t] is the same with
    the marginal utility taken at [c_prime] of that argument. *)
Theorem Vsigma_is_marginal_value_of_share
    (g : engine) (a share : R) (c_prime : R -> R) :
  a <> 0 ->
  Vsigma_Tminus1 g a share = Fin (SpecWords.marginal_value_of_share g a share None) /\
  Vsigma_t g a share c_prime
  = Fin (SpecWords.marginal_value_of_share g a share (Some c_prime)).
Proof.
  intros Ha. unfold Vsigma_Tminus1, Vsigma_t, SpecWords.marginal_value_of_share.
  destruct (Req_dec_T a 0) as [|_]; [contradiction|].
  split; f_equal.
  - replace (beta g * a / Gamma_last g) with (beta g * (a / Gamma_last g))
      by (unfold Rdiv; ring).
    f_equal. apply E_ext. intros theta Rrisky.
    unfold SpecWords.marginal_next, SpecWords.portfolio_return.
    do 2 f_equal. unfold Rdiv; ring.
  - replace (beta g * a / Gamma_last g) with (beta g * (a / Gamma_last g))
      by (unfold Rdiv; ring).
    f_equal. apply E_ext. intros theta Rrisky.
    unfold SpecWords.marginal_next, SpecWords.portfolio_return.
    do 3 f_equal. unfold Rdiv; ring.
Qed.

Lemma Vsigma_is_marginal_value_of_share_witness :
  1 <> 0 /\
  Vsigma_Tminus1 Examples.gmc_risky 1 (1 / 2)
  = Fin (SpecWords.marginal_value_of_share Examples.gmc_risky 1 (1 / 2) None) /\
  Vsigma_t Examples.gmc_risky 1 (1 / 2) (fun m => m)
  = Fin (SpecWords.marginal_value_of_share Examples.gmc_risky 1 (1 / 2)
           (Some (fun m => m))).
Proof.
  split; [exact R1_neq_R0|].
  exact (Vsigma_is_marginal_value_of_share Examples.gmc_risky 1 (1 / 2)
           (fun m => m) R1_neq_R0).
Defined.

End GothicMCClaims.

(** ** Piecewise-linear interpolation *)

Section SplineFacts.

Import Spline.

Lemma strictly_increasingb_spec (l : list R) :
  strictly_increasingb l = true <-> strictly_increasing l.
Proof.
  induction l as [|x [|y t] IH]; simpl; try tauto.
  destruct (Rlt_dec x y) as [H|H].
  - simpl in IH. rewrite IH. tauto.
  - split; [discriminate | tauto].
Qed.

Lemma InterpolatedUnivariateSpline_some (x y : list R) :
  length x = length y -> (2 <= length x)%nat -> strictly_increasing x ->
  InterpolatedUnivariateSpline x y = Some (combine x y).
Proof.
  intros HL H2 HS. unfold InterpolatedUnivariateSpline.
  rewrite HL, Nat.eqb_refl. rewrite <- HL.
  destruct (Nat.leb_spec 2 (length x)); [|lia].
  apply strictly_increasingb_spec in HS. rewrite HS. reflexivity.
Qed.

Lemma InterpolatedUnivariateSpline_inv (x y : list R) (p : policy) :
  InterpolatedUnivariateSpline x y = Some p ->
  length x = length y /\ (2 <= length x)%nat /\ strictly_increasing x /\
  p = combine x y.
Proof.
  unfold InterpolatedUnivariateSpline.
  destruct (Nat.eqb_spec (length x) (length y)) as [HL|]; [|discriminate].
  destruct (Nat.leb_spec 2 (length x)) as [H2|]; [|discriminate].
  destruct (strictly_increasingb x) eqn:E; [|discriminate].
  cbn [andb]. intros Hp; injection Hp as <-.
  apply strictly_increasingb_spec in E. auto.
Qed.

Lemma segment_right p q : fst p < fst q -> segment p q (fst q) = snd q.
Proof. intros H. unfold segment. field. lra. Qed.

Lemma segment_left p q : segment p q (fst p) = snd p.
Proof. unfold segment. unfold Rdiv. ring. Qed.

Lemma segment_mono p q x x' :
  fst p < fst q -> snd p <= snd q -> x <= x' ->
  segment p q x <= segment p q x'.
Proof.
  intros Hx Hy Hxx. unfold segment.
  assert (Hs : 0 <= (snd q - snd p) / (fst q - fst p)).
  { apply Rmult_le_pos; [lra | left; apply Rinv_0_lt_compat; lra]. }
  apply Rplus_le_compat_l. apply Rmult_le_compat_l; [exact Hs | lra].
Qed.

Lemma segment_pos p q x :
  fst p < fst q -> snd p = 0 -> 0 < snd q -> fst p < x -> 0 < segment p q x.
Proof.
  intros Hx H0 H1 Hxx. unfold segment. rewrite H0.
  rewrite Rplus_0_l, Rminus_0_r.
  apply Rmult_lt_0_compat; [|lra].
  apply Rdiv_lt_0_compat; lra.
Qed.

Lemma evaluate_two p q x : evaluate [p; q] x = segment p q x.
Proof. reflexivity. Qed.

Lemma evaluate_more p q r rest x :
  evaluate (p :: q :: r :: rest) x
  = if Rle_dec x (fst q) then segment p q x else evaluate (q :: r :: rest) x.
Proof. reflexivity. Qed.

(** At its first knot a policy takes the knot's value. *)
Lemma evaluate_first p q rest :
  fst p < fst q -> evaluate (p :: q :: rest) (fst p) = snd p.
Proof.
  intros H. destruct rest as [|r rest].
  - rewrite evaluate_two. apply segment_left.
  - rewrite evaluate_more. destruct (Rle_dec (fst p) (fst q)); [|lra].
    apply segment_left.
Qed.

(** A policy through knots with increasing states and non-decreasing
    controls is a non-decreasing function, extrapolation included. *)
Lemma evaluate_mono (knots : policy) :
  (2 <= length knots)%nat ->
  strictly_increasing (map fst knots) -> nondecreasing (map snd knots) ->
  forall x x', x <= x' -> evaluate knots x <= evaluate knots x'.
Proof.
  induction knots as [|p knots IH]; intros HL HS HN x x' Hx;
    [simpl in HL; lia|].
  destruct knots as [|q rest]; [simpl in HL; lia|].
  destruct HS as [Hpq HS]. destruct HN as [Ypq HN].
  destruct rest as [|r rest].
  - rewrite !evaluate_two. apply segment_mono; assumption.
  - rewrite !evaluate_more.
    assert (Hqr : fst q < fst r) by (destruct HS; assumption).
    specialize (IH ltac:(simpl; lia) HS HN).
    destruct (Rle_dec x (fst q)) as [H1|H1];
      destruct (Rle_dec x' (fst q)) as [H2|H2].
    + apply segment_mono; assumption.
    + apply Rle_trans with (snd q).
      * rewrite <- (segment_right p q Hpq). apply segment_mono; assumption.
      * rewrite <- (evaluate_first q r rest Hqr). apply IH. lra.
    + lra.
    + apply IH. exact Hx.
Qed.

(** A policy that starts at control [0] and then rises is positive to the
    right of its first knot. *)
Lemma evaluate_pos p q rest x :
  strictly_increasing (map fst (p :: q :: rest)) ->
  nondecreasing (map snd (p :: q :: rest)) ->
  snd p = 0 -> 0 < snd q -> fst p < x ->
  0 < evaluate (p :: q :: rest) x.
Proof.
  intros HS HN H0 H1 Hx.
  destruct HS as [Hpq HS]. destruct HN as [Ypq HN].
  destruct rest as [|r rest].
  - rewrite evaluate_two. apply segment_pos; assumption.
  - rewrite evaluate_more. destruct (Rle_dec x (fst q)) as [H|H].
    + apply segment_pos; assumption.
    + assert (Hqr : fst q < fst r) by (destruct HS; assumption).
      apply Rlt_le_trans with (snd q); [exact H1|].
      rewrite <- (evaluate_first q r rest Hqr).
      apply evaluate_mono; [simpl; lia | exact HS | exact HN | lra].
Qed.

End SplineFacts.

(** ** Dictionaries and loops *)

Lemma dict_get_set {V : Type} (d : Py.dict V) (k k' : Z) (v : V) :
  Py.dict_get (Py.dict_set d k v) k' = if Z.eqb k' k then Some v else Py.dict_get d k'.
Proof.
  induction d as [|[k0 v0] d IH]; simpl.
  - destruct (Z.eqb_spec k' k); reflexivity.
  - destruct (Z.eqb_spec k k0) as [->|Hne]; simpl.
    + destruct (Z.eqb_spec k' k0); reflexivity.
    + rewrite IH. destruct (Z.eqb_spec k' k0) as [->|]; [|reflexivity].
      destruct (Z.eqb_spec k0 k); [congruence | reflexivity].
Qed.

Lemma keys_set_fresh {V : Type} (d : Py.dict V) (k : Z) (v : V) :
  ~ In k (Py.keys d) -> Py.keys (Py.dict_set d k v) = Py.keys d ++ [k].
Proof.
  induction d as [|[k0 v0] d IH]; simpl; intros H; [reflexivity|].
  destruct (Z.eqb_spec k k0) as [->|Hne]; [tauto|].
  simpl. f_equal. apply IH. tauto.
Qed.

Lemma dict_get_not_key {V : Type} (d : Py.dict V) (k : Z) :
  ~ In k (Py.keys d) -> Py.dict_get d k = None.
Proof.
  induction d as [|[k0 v0] d IH]; simpl; intros H; [reflexivity|].
  destruct (Z.eqb_spec k k0) as [->|Hne]; [tauto|]. apply IH. tauto.
Qed.

Lemma dict_get_key {V : Type} (d : Py.dict V) (k : Z) :
  In k (Py.keys d) -> exists v, Py.dict_get d k = Some v.
Proof.
  induction d as [|[k0 v0] d IH]; simpl; intros H; [contradiction|].
  destruct (Z.eqb_spec k k0) as [->|Hne]; [eauto|].
  apply IH. destruct H; [congruence | assumption].
Qed.

Lemma range_down_length (start stop : Z) :
  length (Py.range_down start stop) = Z.to_nat (start - stop).
Proof. unfold Py.range_down. rewrite length_map, length_seq. reflexivity. Qed.

Lemma range_down_in (start stop t : Z) :
  In t (Py.range_down start stop) <-> (stop < t <= start)%Z.
Proof.
  unfold Py.range_down. rewrite in_map_iff. split.
  - intros (k & <- & Hk). apply in_seq in Hk. lia.
  - intros H. exists (Z.to_nat (start - t)). split; [lia|].
    apply in_seq. lia.
Qed.

Lemma range_down_cons (start stop : Z) :
  (stop < start)%Z ->
  Py.range_down start stop = start :: Py.range_down (start - 1) stop.
Proof.
  intros H. unfold Py.range_down.
  replace (Z.to_nat (start - stop)) with (S (Z.to_nat (start - 1 - stop))) by lia.
  cbn [seq map]. f_equal; [lia|].
  rewrite <- seq_shift, map_map. apply map_ext. intros k. lia.
Qed.

Lemma range_down_NoDup (start stop : Z) : NoDup (Py.range_down start stop).
Proof.
  unfold Py.range_down. apply Injective_map_NoDup; [|apply seq_NoDup].
  intros x y H. lia.
Qed.

Lemma mapM_Forall2 {A B : Type} (f : A -> option B) (l : list A) (ys : list B) :
  mapM f l = Some ys -> Forall2 (fun x y => f x = Some y) l ys.
Proof.
  revert ys; induction l as [|x l IH]; simpl; intros ys H.
  - injection H as <-. constructor.
  - apply bind_some in H. destruct H as (y & Ey & H).
    apply bind_some in H. destruct H as (ys' & Eys & H).
    injection H as <-. constructor; auto.
Qed.

Lemma Forall2_mapM {A B : Type} (f : A -> option B) (l : list A) (ys : list B) :
  Forall2 (fun x y => f x = Some y) l ys -> mapM f l = Some ys.
Proof.
  induction 1 as [|x y l ys Hxy _ IH]; simpl; [reflexivity|].
  rewrite Hxy, IH. reflexivity.
Qed.

(** ** The life-cycle solver, for any engine *)

(** The first state knot: [0] or the natural limit. *)
Lemma mVec0_cases (self_a_min : R) (constrained : bool) :
  LifeCycle.mVec0 self_a_min constrained
  = [if constrained then if Rlt_dec self_a_min 0 then 0 else self_a_min
     else self_a_min].
Proof.
  unfold LifeCycle.mVec0.
  destruct constrained; [destruct (Rlt_dec self_a_min 0)|]; reflexivity.
Qed.

Section SolverFacts.

Variable C_Tminus1 : R -> option R.
Variable C_t : R -> (R -> R) -> option R.
Variable self_a_min : R.
Variable aVec_eee : list R.
Variable constrained : bool.

Let mVec0 := LifeCycle.mVec0 self_a_min constrained.
Let sweep_step := LifeCycle.sweep_step constrained.
Let sweep := LifeCycle.sweep self_a_min aVec_eee constrained.
Let consumption := LifeCycle.consumption C_Tminus1 C_t.
Let solve_period :=
  LifeCycle.solve_period C_Tminus1 C_t self_a_min aVec_eee constrained.
Let life_step :=
  LifeCycle.life_step C_Tminus1 C_t self_a_min aVec_eee constrained.
Let stored_c := LifeCycle.stored_c constrained.
Let stored_m := LifeCycle.stored_m.

(** The sweep appends, for each grid point, the stored control and the
    stored state of the pair (implied consumption, asset level). *)
Lemma sweep_loop (C : R -> option R) (l : list R) : forall cVec mVec,
  for_each (sweep_step C) l (cVec, mVec)
  = (cs <- mapM C l ;;
     Some (cVec ++ map stored_c (combine cs l), mVec ++ map stored_m (combine cs l))).
Proof.
  induction l as [|a l IH]; intros cVec mVec; simpl.
  - rewrite !app_nil_r. reflexivity.
  - destruct (C a) as [c|]; simpl; [|reflexivity].
    rewrite IH. destruct (mapM C l) as [cs|]; simpl; [|reflexivity].
    rewrite <- !app_assoc. reflexivity.
Qed.

Lemma sweep_inv (C : R -> option R) (cVec mVec : list R) :
  sweep C = Some (cVec, mVec) ->
  exists m0 cs,
    mVec0 = [m0] /\
    Forall2 (fun a c => C a = Some c) aVec_eee cs /\
    cVec = 0 :: map stored_c (combine cs aVec_eee) /\
    mVec = m0 :: map stored_m (combine cs aVec_eee).
Proof.
  unfold sweep, LifeCycle.sweep. fold sweep_step. rewrite sweep_loop.
  intros H. apply bind_some in H. destruct H as (cs & E & H).
  injection H as <- <-.
  assert (exists m0, mVec0 = [m0]) as (m0 & Hm).
  { unfold mVec0. rewrite mVec0_cases. eauto. }
  exists m0, cs. fold mVec0. rewrite Hm.
  repeat split; auto. apply mapM_Forall2; exact E.
Qed.

Lemma sweep_some (C : R -> option R) (cs : list R) :
  Forall2 (fun a c => C a = Some c) aVec_eee cs ->
  sweep C = Some (0 :: map stored_c (combine cs aVec_eee),
                  mVec0 ++ map stored_m (combine cs aVec_eee)).
Proof.
  intros H. unfold sweep, LifeCycle.sweep. fold sweep_step. rewrite sweep_loop.
  rewrite (Forall2_mapM _ _ _ H). reflexivity.
Qed.

(** What a solved period is made of. *)
Lemma solve_period_inv (c_next : option Spline.policy) (p : Spline.policy) :
  solve_period c_next = Some p ->
  exists m0 cs,
    mVec0 = [m0] /\
    Forall2 (fun a c => consumption c_next a = Some c) aVec_eee cs /\
    sweep (consumption c_next)
    = Some (0 :: map stored_c (combine cs aVec_eee),
            m0 :: map stored_m (combine cs aVec_eee)) /\
    strictly_increasing (m0 :: map stored_m (combine cs aVec_eee)) /\
    p = (m0, 0) :: combine (map stored_m (combine cs aVec_eee))
                           (map stored_c (combine cs aVec_eee)).
Proof.
  unfold solve_period, LifeCycle.solve_period. fold sweep consumption.
  intros H. apply bind_some in H. destruct H as ([cVec mVec] & E & H).
  pose proof E as E'.
  apply sweep_inv in E. destruct E as (m0 & cs & Hm & HF & -> & ->).
  apply InterpolatedUnivariateSpline_inv in H. destruct H as (_ & _ & HS & ->).
  exists m0, cs. repeat split; auto.
Qed.

(** Every policy the loop stores is a solved period. *)
Lemma life_loop_entries (ts : list Z) : forall cF d cF' d',
  for_each life_step ts (cF, d) = Some (cF', d') ->
  (forall t p, Py.dict_get d t = Some p -> exists c_next, solve_period c_next = Some p) ->
  forall t p, Py.dict_get d' t = Some p -> exists c_next, solve_period c_next = Some p.
Proof.
  induction ts as [|t0 ts IH]; intros cF d cF' d' H Hd; simpl in H.
  - injection H as <- <-. exact Hd.
  - apply bind_some in H. destruct H as ([cF1 d1] & E & H).
    unfold life_step, LifeCycle.life_step in E. fold solve_period in E.
    apply bind_some in E. destruct E as (p1 & E1 & E).
    injection E as <- <-.
    apply (IH _ _ _ _ H). intros t p. rewrite dict_get_set.
    destruct (Z.eqb t t0); [|apply Hd].
    intros Hp; injection Hp as <-. eauto.
Qed.

Lemma life_cycle_entries (T : Z) cF d :
  LifeCycle.life_cycle C_Tminus1 C_t self_a_min aVec_eee constrained T = Some (cF, d) ->
  forall t p, Py.dict_get d t = Some p -> exists c_next, solve_period c_next = Some p.
Proof.
  unfold LifeCycle.life_cycle. fold solve_period life_step.
  intros H. apply bind_some in H. destruct H as (p0 & E0 & H).
  apply (life_loop_entries _ _ _ _ _ H).
  intros t p. simpl. destruct (Z.eqb t (T - 1)); [|discriminate].
  intros Hp; injection Hp as <-. eauto.
Qed.

(** The loop stores one new key per pass, in the order of the passes. *)
Lemma life_loop_keys (ts : list Z) : forall cF d cF' d',
  for_each life_step ts (cF, d) = Some (cF', d') ->
  NoDup (Py.keys d ++ ts) ->
  Py.keys d' = Py.keys d ++ ts.
Proof.
  induction ts as [|t0 ts IH]; intros cF d cF' d' H ND; simpl in H.
  - injection H as <- <-. rewrite app_nil_r. reflexivity.
  - apply bind_some in H. destruct H as ([cF1 d1] & E & H).
    unfold life_step, LifeCycle.life_step in E. fold solve_period in E.
    apply bind_some in E. destruct E as (p1 & E1 & E).
    injection E as <- <-.
    assert (Hfresh : ~ In t0 (Py.keys d)).
    { apply NoDup_remove_2 in ND. intros Hin. apply ND.
      apply in_or_app. left. exact Hin. }
    rewrite (IH _ _ _ _ H); rewrite keys_set_fresh by assumption.
    + rewrite <- app_assoc. reflexivity.
    + rewrite <- app_assoc. exact ND.
Qed.

(** The loop succeeds as long as every period does, along any property of
    policies that the solved periods keep. *)
Lemma life_loop_total (good : Spline.policy -> Prop) :
  (forall p, good p -> exists p', solve_period (Some p) = Some p' /\ good p') ->
  forall ts cF d, good cF ->
    exists cF' d', for_each life_step ts (cF, d) = Some (cF', d') /\ good cF'.
Proof.
  intros Hstep. induction ts as [|t0 ts IH]; intros cF d Hg; simpl.
  - eauto.
  - unfold life_step at 1, LifeCycle.life_step. fold solve_period.
    destruct (Hstep cF Hg) as (p' & E & Hg'). rewrite E. cbn [bind].
    apply IH. exact Hg'.
Qed.

End SolverFacts.

(** ** The single-control engine on well-posed configurations *)

Lemma Rpower_antitone (x y e : R) :
  0 < x -> x <= y -> e <= 0 -> Rpower y e <= Rpower x e.
Proof.
  intros Hx Hxy He. unfold Rpower.
  destruct (Rle_lt_or_eq_dec _ _ Hxy) as [Hlt| ->]; [|right; reflexivity].
  pose proof (ln_increasing x y Hx Hlt) as Hln.
  assert (H : e * ln y <= e * ln x) by nra.
  destruct (Rle_lt_or_eq_dec _ _ H) as [H'|H'].
  - left. apply exp_increasing. exact H'.
  - right. rewrite H'. reflexivity.
Qed.

Lemma Rpower_pos (x e : R) : 0 < Rpower x e.
Proof. unfold Rpower. apply exp_pos. Qed.

Lemma expectation_some (d : DiscreteApproximation) (f : R -> option R) (h : R -> R) :
  (forall n, In n d -> f (value n) = Some (h (value n))) ->
  Expect.expectation d f
  = Some (Expect.sum_over d (fun n => probability n * h (value n))).
Proof.
  induction d as [|n d IH]; intros H; simpl; [reflexivity|].
  rewrite (H n) by (left; reflexivity). cbn [bind].
  rewrite IH by (intros; apply H; right; assumption). reflexivity.
Qed.

Lemma sum_over_le (d : DiscreteApproximation) (f h : DiscreteNode -> R) :
  (forall n, In n d -> f n <= h n) -> Expect.sum_over d f <= Expect.sum_over d h.
Proof.
  induction d as [|n d IH]; intros H; simpl; [lra|].
  apply Rplus_le_compat.
  - apply H. left; reflexivity.
  - apply IH. intros; apply H; right; assumption.
Qed.

Lemma sum_over_nonneg (d : DiscreteApproximation) (f : DiscreteNode -> R) :
  (forall n, In n d -> 0 <= f n) -> 0 <= Expect.sum_over d f.
Proof.
  induction d as [|n d IH]; intros H; simpl; [lra|].
  apply Rplus_le_le_0_compat.
  - apply H. left; reflexivity.
  - apply IH. intros; apply H; right; assumption.
Qed.

(** A weighted sum of positive numbers is positive when the weights are
    non-negative and not all zero. *)
Lemma sum_over_pos (d : DiscreteApproximation) (w : DiscreteNode -> R) :
  (forall n, In n d -> 0 <= probability n /\ 0 < w n) ->
  0 < Expect.sum_over d probability ->
  0 < Expect.sum_over d (fun n => probability n * w n).
Proof.
  induction d as [|n d IH]; intros H Hm; simpl in *; [lra|].
  destruct (H n (or_introl eq_refl)) as [Hp Hw].
  assert (Hrest : 0 <= Expect.sum_over d (fun n => probability n * w n)).
  { apply sum_over_nonneg. intros n' Hn'.
    destruct (H n' (or_intror Hn')) as [Hp' Hw'].
    apply Rmult_le_pos; lra. }
  destruct (Rle_lt_or_eq_dec _ _ Hp) as [Hpos|Hzero].
  - assert (0 < probability n * w n) by (apply Rmult_lt_0_compat; assumption).
    lra.
  - rewrite <- Hzero in *. rewrite Rmult_0_l, Rplus_0_l.
    apply IH; [intros; apply H; right; assumption | lra].
Qed.

Lemma list_min_in (l : list R) (m : R) :
  Py.list_min l = Some m -> In m l.
Proof.
  revert m; induction l as [|x [|y t] IH]; intros m H; [discriminate | |].
  - injection H as <-. left; reflexivity.
  - change (Py.list_min (x :: y :: t))
      with (m' <- Py.list_min (y :: t) ;; Some (Rmin x m')) in H.
    apply bind_some in H. destruct H as (m' & E & H). injection H as <-.
    unfold Rmin. destruct (Rle_dec x m'); [left; reflexivity|].
    right. apply IH. exact E.
Qed.

Lemma list_min_some (l : list R) : l <> [] -> exists m, Py.list_min l = Some m.
Proof.
  induction l as [|x [|y t] IH]; intros H; [contradiction | |].
  - exists x; reflexivity.
  - destruct IH as (m & E); [discriminate|].
    exists (Rmin x m).
    change (Py.list_min (x :: y :: t))
      with (m' <- Py.list_min (y :: t) ;; Some (Rmin x m')).
    rewrite E. reflexivity.
Qed.

Section GothicFacts.

Import Gothic.

Variable g : config.
Hypothesis discount_pos : 0 < discount g.
Hypothesis risk_aversion_pos : 0 < risk_aversion g.
Hypothesis growth_factor_pos : 0 < growth_factor g.
Hypothesis gross_return_pos : 0 < gross_return g.
Hypothesis shocks_pos :
  forall n, In n (shock_distribution g) -> 0 < value n /\ 0 <= probability n.
Hypothesis mass_one : Expect.sum_over (shock_distribution g) probability = 1.

(** The continuation: next period's policy, or spending everything. *)
Variable c_next : option (R -> R).
Let cn (m : R) : R := match c_next with Some c => c m | None => m end.
Hypothesis cn_pos : forall x, 0 < x -> 0 < cn x.
Hypothesis cn_mono : forall x y, 0 < x -> x <= y -> cn x <= cn y.

Let arg (a theta : R) : R := gross_return g * a / growth_factor g + theta.

Let mu (a : R) : R :=
  Expect.sum_over (shock_distribution g)
    (fun n => probability n * Rpower (cn (arg a (value n))) (- risk_aversion g)).

Let scale : R :=
  discount g * gross_return g * Rpower (growth_factor g) (- risk_aversion g).

Lemma arg_pos a n : 0 <= a -> In n (shock_distribution g) -> 0 < arg a (value n).
Proof.
  intros Ha Hn. unfold arg. destruct (shocks_pos n Hn) as [Hv _].
  assert (0 <= gross_return g * a / growth_factor g).
  { apply Rmult_le_pos; [apply Rmult_le_pos; lra|].
    left. apply Rinv_0_lt_compat. assumption. }
  lra.
Qed.

Lemma arg_le a a' theta : a <= a' -> arg a theta <= arg a' theta.
Proof.
  intros H. unfold arg. apply Rplus_le_compat_r.
  unfold Rdiv. apply Rmult_le_compat_r.
  - left. apply Rinv_0_lt_compat. assumption.
  - apply Rmult_le_compat_l; lra.
Qed.

Lemma scale_pos : 0 < scale.
Proof.
  unfold scale. apply Rmult_lt_0_compat; [|apply Rpower_pos].
  apply Rmult_lt_0_compat; assumption.
Qed.

Lemma mu_pos a : 0 <= a -> 0 < mu a.
Proof.
  intros Ha. unfold mu. apply sum_over_pos; [|rewrite mass_one; lra].
  intros n Hn. split; [apply shocks_pos; assumption | apply Rpower_pos].
Qed.

Lemma mu_antitone a a' : 0 <= a -> a <= a' -> mu a' <= mu a.
Proof.
  intros Ha Haa. unfold mu. apply sum_over_le. intros n Hn.
  apply Rmult_le_compat_l; [apply shocks_pos; assumption|].
  apply Rpower_antitone.
  - apply cn_pos. apply arg_pos; assumption.
  - apply cn_mono; [apply arg_pos; assumption | apply arg_le; assumption].
  - lra.
Qed.

Lemma expected_marginal_value_real a :
  0 <= a -> expected_marginal_value g a c_next = Some (scale * mu a).
Proof.
  intros Ha. unfold expected_marginal_value.
  rewrite (expectation_some _ _
             (fun theta => Rpower (cn (arg a theta)) (- risk_aversion g))).
  - cbn [bind]. unfold float_pow.
    destruct (Rlt_dec 0 (growth_factor g)); [|contradiction].
    reflexivity.
  - intros n Hn. unfold Utility.marginal. fold (arg a (value n)).
    fold (cn (arg a (value n))).
    destruct (Rlt_dec 0 (cn (arg a (value n)))) as [|N]; [reflexivity|].
    exfalso. apply N. apply cn_pos. apply arg_pos; assumption.
Qed.

Lemma implied_consumption_real a :
  0 <= a ->
  implied_consumption g a c_next
  = Some (Rpower (scale * mu a) (- 1 / risk_aversion g)).
Proof.
  intros Ha. unfold implied_consumption.
  rewrite expected_marginal_value_real by assumption. cbn [bind].
  unfold Utility.inverse_marginal, float_div.
  destruct (Req_dec_T (risk_aversion g) 0) as [Z|_]; [lra|].
  destruct (Rlt_dec 0 (scale * mu a)) as [|N]; [reflexivity|].
  exfalso. apply N. apply Rmult_lt_0_compat; [apply scale_pos | apply mu_pos; assumption].
Qed.

(** On non-negative assets the implied consumption exists, is positive
    and does not decrease with assets. *)
Lemma implied_consumption_pos_mono :
  (forall a, 0 <= a -> exists c, implied_consumption g a c_next = Some c /\ 0 < c) /\
  (forall a a' c c', 0 <= a -> a <= a' ->
     implied_consumption g a c_next = Some c ->
     implied_consumption g a' c_next = Some c' -> c <= c').
Proof.
  split.
  - intros a Ha. eexists. split; [apply implied_consumption_real; assumption|].
    apply Rpower_pos.
  - intros a a' c c' Ha Haa E E'.
    rewrite implied_consumption_real in E by assumption.
    rewrite implied_consumption_real in E' by lra.
    injection E as <-. injection E' as <-.
    apply Rpower_antitone.
    + apply Rmult_lt_0_compat; [apply scale_pos | apply mu_pos; lra].
    + apply Rmult_le_compat_l; [left; apply scale_pos|].
      apply mu_antitone; assumption.
    + assert (0 < / risk_aversion g) by (apply Rinv_0_lt_compat; assumption).
      unfold Rdiv. nra.
Qed.

End GothicFacts.

(** ** The knots of a period *)

Section KnotFacts.

(** An implied-consumption function that is positive and non-decreasing
    where it is defined on positive assets. *)
Variable C : R -> option R.
Hypothesis C_pos : forall a c, 0 < a -> C a = Some c -> 0 < c.
Hypothesis C_mono : forall a a' c c',
  0 < a -> a <= a' -> C a = Some c -> C a' = Some c' -> c <= c'.

Variable constrained : bool.

Lemma stored_c_id c a : 0 < a -> LifeCycle.stored_c constrained (c, a) = c.
Proof.
  intros Ha. unfold LifeCycle.stored_c. destruct constrained; [|reflexivity].
  unfold Rmin. destruct (Rle_dec c (c + a)); [reflexivity | lra].
Qed.

Lemma knots_m_increasing (grid cs : list R) :
  Forall2 (fun a c => C a = Some c) grid cs ->
  strictly_increasing grid -> Forall (fun a => 0 < a) grid ->
  strictly_increasing (map LifeCycle.stored_m (combine cs grid)).
Proof.
  induction 1 as [|a c grid cs Hac HF IH]; intros HS HP; [exact I|].
  destruct HF as [|a' c' grid' cs' Hac' HF']; [exact I|].
  destruct HS as [Haa HS]. inversion HP as [|? ? Ha HP']; subst.
  inversion HP' as [|? ? Ha' _]; subst.
  change (c + a < c' + a' /\
          strictly_increasing (map LifeCycle.stored_m (combine (c' :: cs') (a' :: grid')))).
  split.
  - pose proof (C_mono a a' c c' Ha (Rlt_le _ _ Haa) Hac Hac'). lra.
  - apply IH; assumption.
Qed.

Lemma knots_c_nondecreasing (grid cs : list R) :
  Forall2 (fun a c => C a = Some c) grid cs ->
  strictly_increasing grid -> Forall (fun a => 0 < a) grid ->
  nondecreasing (map (LifeCycle.stored_c constrained) (combine cs grid)).
Proof.
  induction 1 as [|a c grid cs Hac HF IH]; intros HS HP; [exact I|].
  destruct HF as [|a' c' grid' cs' Hac' HF']; [exact I|].
  destruct HS as [Haa HS]. inversion HP as [|? ? Ha HP']; subst.
  inversion HP' as [|? ? Ha' _]; subst.
  change (LifeCycle.stored_c constrained (c, a) <= LifeCycle.stored_c constrained (c', a') /\
          nondecreasing (map (LifeCycle.stored_c constrained)
                           (combine (c' :: cs') (a' :: grid')))).
  split.
  - rewrite !stored_c_id by assumption.
    exact (C_mono a a' c c' Ha (Rlt_le _ _ Haa) Hac Hac').
  - apply IH; assumption.
Qed.

(** The knots of a sweep over an asset grid, with a first knot [(m0, 0)],
    [m0 <= 0], form a rising policy. *)
Lemma knots_rising (grid cs : list R) (m0 : R) :
  Forall2 (fun a c => C a = Some c) grid cs ->
  asset_grid grid -> m0 <= 0 ->
  let ms := map LifeCycle.stored_m (combine cs grid) in
  let ks := map (LifeCycle.stored_c constrained) (combine cs grid) in
  length (m0 :: ms) = length (0 :: ks) /\
  (2 <= length (m0 :: ms))%nat /\
  strictly_increasing (m0 :: ms) /\
  rising (combine (m0 :: ms) (0 :: ks)).
Proof.
  intros HF (Hne & HS & HP) Hm0.
  pose proof (knots_m_increasing grid cs HF HS HP) as Hms.
  pose proof (knots_c_nondecreasing grid cs HF HS HP) as Hks.
  destruct HF as [|a c grid cs Hac HF]; [contradiction|].
  inversion HP as [|? ? Ha _]; subst.
  pose proof (C_pos a c Ha Hac) as Hc.
  cbn [combine map] in *.
  change (LifeCycle.stored_m (c, a)) with (c + a) in *.
  rewrite stored_c_id in * by assumption.
  remember (map LifeCycle.stored_m (combine cs grid)) as ms eqn:Ems.
  remember (map (LifeCycle.stored_c constrained) (combine cs grid)) as ks eqn:Eks.
  assert (HL : length ms = length ks)
    by (subst ms ks; rewrite !length_map; reflexivity).
  clear Ems Eks.
  assert (Hinc : strictly_increasing (m0 :: c + a :: ms)).
  { split; [lra | exact Hms]. }
  cbv zeta.
  split; [simpl; lia|]. split; [simpl; lia|]. split; [exact Hinc|].
  assert (Hfst : map fst (combine ms ks) = ms).
  { clear - HL. revert ks HL. induction ms as [|m ms IH]; intros [|k ks] HL;
      simpl in *; try lia; [reflexivity|].
    f_equal. apply IH. lia. }
  assert (Hsnd : map snd (combine ms ks) = ks).
  { clear - HL. revert ks HL. induction ms as [|m ms IH]; intros [|k ks] HL;
      simpl in *; try lia; [reflexivity|].
    f_equal. apply IH. lia. }
  unfold rising. cbn [combine map fst snd].
  rewrite Hfst, Hsnd.
  split; [exact Hm0|]. split; [reflexivity|]. split; [exact Hc|].
  split; [exact Hinc|]. split; [lra | exact Hks].
Qed.

End KnotFacts.

(** A rising policy is positive on positive states and non-decreasing. *)
Lemma rising_evaluate (p : Spline.policy) :
  rising p ->
  (forall x, 0 < x -> 0 < Spline.evaluate p x) /\
  (forall x y, x <= y -> Spline.evaluate p x <= Spline.evaluate p y).
Proof.
  destruct p as [|p0 [|p1 rest]]; try contradiction.
  intros (H0 & Hy0 & Hy1 & HS & HN). split.
  - intros x Hx. apply evaluate_pos; auto. lra.
  - apply evaluate_mono; auto. simpl; lia.
Qed.

(** ** The life-cycle solver on a well-posed configuration *)

Lemma Forall2_defined {A B : Type} (f : A -> option B) (l : list A) :
  (forall x, In x l -> exists y, f x = Some y) ->
  exists ys, Forall2 (fun x y => f x = Some y) l ys.
Proof.
  induction l as [|x l IH]; intros H.
  - exists []. constructor.
  - destruct (H x (or_introl eq_refl)) as (y & Hy).
    destruct IH as (ys & Hys); [intros; apply H; right; assumption|].
    exists (y :: ys). constructor; assumption.
Qed.

Section GothicSolver.

Variable g : Gothic.config.
Hypothesis Hwp : well_posed g.
Variable aVec_eee : list R.
Hypothesis Hgrid : asset_grid aVec_eee.
Variable constrained : bool.

Lemma well_posed_shocks : Gothic.shock_distribution g <> [].
Proof.
  destruct Hwp as (_ & _ & _ & _ & _ & Hm). intros E. rewrite E in Hm.
  simpl in Hm. lra.
Qed.

(** With positive shocks the natural borrowing limit is negative. *)
Lemma self_a_min_negative :
  exists s, self_a_min (theta_X g) (Gothic.growth_factor g) (Gothic.gross_return g)
            = Some s /\ s < 0.
Proof.
  destruct Hwp as (_ & _ & HG & HR & Hs & _).
  destruct (list_min_some (theta_X g)) as (m & Em).
  { unfold theta_X. pose proof well_posed_shocks as H.
    destruct (Gothic.shock_distribution g); [contradiction | discriminate]. }
  assert (Hm : 0 < m).
  { apply list_min_in in Em. unfold theta_X in Em.
    apply in_map_iff in Em. destruct Em as (n & <- & Hn). apply Hs; assumption. }
  unfold self_a_min. rewrite Em. cbn [bind]. unfold float_div.
  destruct (Req_dec_T (Gothic.gross_return g) 0); [lra|].
  eexists; split; [reflexivity|].
  assert (0 < m * Gothic.growth_factor g / Gothic.gross_return g).
  { apply Rdiv_lt_0_compat; [apply Rmult_lt_0_compat|]; assumption. }
  unfold Rdiv in *. rewrite Ropp_mult_distr_l_reverse. lra.
Qed.

Lemma gothic_consumption (c_next : option Spline.policy) :
  continuation c_next ->
  let C := LifeCycle.consumption (Gothic.C_Tminus1 g) (Gothic.C_t g) c_next in
  (forall a, 0 < a -> exists c, C a = Some c) /\
  (forall a c, 0 < a -> C a = Some c -> 0 < c) /\
  (forall a a' c c', 0 < a -> a <= a' -> C a = Some c -> C a' = Some c' -> c <= c').
Proof.
  intros Hc C.
  destruct Hwp as (Hb & Hr & HG & HR & Hs & Hm).
  assert (K : exists cn : option (R -> R),
             (forall a, C a = Gothic.implied_consumption g a cn) /\
             (forall x, 0 < x -> 0 < match cn with Some c => c x | None => x end) /\
             (forall x y, 0 < x -> x <= y ->
                match cn with Some c => c x | None => x end
                <= match cn with Some c => c y | None => y end)).
  { destruct c_next as [p|].
    - exists (Some (Spline.evaluate p)).
      destruct (rising_evaluate p Hc) as [P M].
      split; [reflexivity|]. split; [exact P | intros; apply M; assumption].
    - exists None. split; [reflexivity|]. split; auto. }
  destruct K as (cn & EC & P & M).
  destruct (implied_consumption_pos_mono g Hb Hr HG HR Hs Hm cn P M) as [D Mo].
  split; [|split].
  - intros a Ha. destruct (D a (Rlt_le _ _ Ha)) as (c & E & _).
    exists c. rewrite EC. exact E.
  - intros a c Ha E. rewrite EC in E.
    destruct (D a (Rlt_le _ _ Ha)) as (c' & E' & Hpos). congruence.
  - intros a a' c c' Ha Haa E E'. rewrite EC in E, E'.
    apply (Mo a a' c c'); auto. lra.
Qed.

(** A period solved against such a continuation succeeds, and its policy
    is rising again. *)
Lemma gothic_period (s : R) (c_next : option Spline.policy) :
  s < 0 -> continuation c_next ->
  exists p,
    LifeCycle.solve_period (Gothic.C_Tminus1 g) (Gothic.C_t g) s aVec_eee
      constrained c_next = Some p /\ rising p.
Proof.
  intros Hs Hc.
  destruct (gothic_consumption c_next Hc) as (D & P & M).
  destruct Hgrid as (Hne & HS & HP).
  destruct (Forall2_defined
              (LifeCycle.consumption (Gothic.C_Tminus1 g) (Gothic.C_t g) c_next)
              aVec_eee) as (cs & HF).
  { intros a Ha. apply D. rewrite Forall_forall in HP. apply HP; assumption. }
  unfold LifeCycle.solve_period.
  rewrite (sweep_some s aVec_eee constrained _ cs HF).
  rewrite mVec0_cases. cbn [bind app].
  set (m0 := if constrained then if Rlt_dec s 0 then 0 else s else s).
  assert (Hm0 : m0 <= 0).
  { unfold m0. destruct constrained; [destruct (Rlt_dec s 0)|]; lra. }
  destruct (knots_rising _ P M constrained aVec_eee cs m0 HF Hgrid Hm0)
    as (HL & H2 & Hinc & Hr).
  rewrite InterpolatedUnivariateSpline_some by assumption.
  eexists; split; [reflexivity | exact Hr].
Qed.

(** The whole life cycle is solved, whatever the horizon. *)
Lemma gothic_life_cycle_total (s : R) (T : Z) :
  s < 0 ->
  exists cF d,
    LifeCycle.life_cycle (Gothic.C_Tminus1 g) (Gothic.C_t g) s aVec_eee
      constrained T = Some (cF, d).
Proof.
  intros Hs. unfold LifeCycle.life_cycle.
  destruct (gothic_period s None Hs I) as (p0 & E0 & R0).
  rewrite E0. cbn [bind].
  destruct (life_loop_total (Gothic.C_Tminus1 g) (Gothic.C_t g) s aVec_eee
              constrained rising) with
    (ts := Py.range_down (T - 2) (-1)) (cF := p0)
    (d := [((T - 1)%Z, p0)]) as (cF & d & E & _).
  - intros p Hp. apply gothic_period; assumption.
  - exact R0.
  - eauto.
Qed.

Lemma gothic_life_cycle_upto_total (s : R) (T : Z) (k : nat) :
  s < 0 ->
  exists cF d,
    LifeCycle.life_cycle_upto (Gothic.C_Tminus1 g) (Gothic.C_t g) s aVec_eee
      constrained T k = Some (cF, d).
Proof.
  intros Hs. unfold LifeCycle.life_cycle_upto.
  destruct (gothic_period s None Hs I) as (p0 & E0 & R0).
  rewrite E0. cbn [bind].
  destruct (life_loop_total (Gothic.C_Tminus1 g) (Gothic.C_t g) s aVec_eee
              constrained rising) with
    (ts := firstn k (Py.range_down (T - 2) (-1))) (cF := p0)
    (d := [((T - 1)%Z, p0)]) as (cF & d & E & _).
  - intros p Hp. apply gothic_period; assumption.
  - exact R0.
  - eauto.
Qed.

End GothicSolver.

(** ** The portfolio life-cycle solver *)

Section PortfolioFacts.

Variable gothicMC : GothicMC.engine.
Variable aVec_eee_big : list R.

Let solve_period := Portfolio.solve_period gothicMC aVec_eee_big.
Let life_step := Portfolio.life_step gothicMC aVec_eee_big.

(** The sweep only appends, and what it appends has [c <= m]. *)
Lemma port_sweep_loop (share C : R -> option R) (l : list R) :
  forall cVec mVec vVec cVec' mVec' vVec',
    for_each (Portfolio.sweep_step share C) l (cVec, mVec, vVec)
    = Some (cVec', mVec', vVec') ->
    exists cs ms vs,
      cVec' = cVec ++ cs /\ mVec' = mVec ++ ms /\ vVec' = vVec ++ vs /\
      Forall2 Rle cs ms.
Proof.
  induction l as [|a l IH]; intros cVec mVec vVec cVec' mVec' vVec' H; simpl in H.
  - injection H as <- <- <-. exists [], [], []. rewrite !app_nil_r.
    repeat split; constructor.
  - apply bind_some in H. destruct H as ([[cV1 mV1] vV1] & E & H).
    unfold Portfolio.sweep_step in E.
    apply bind_some in E. destruct E as (v & _ & E).
    apply bind_some in E. destruct E as (c & _ & E).
    injection E as <- <- <-.
    destruct (IH _ _ _ _ _ _ H) as (cs & ms & vs & -> & -> & -> & HF).
    exists (Rmin c (c + a) :: cs), (c + a :: ms), (v :: vs).
    rewrite <- !app_assoc. repeat split.
    constructor; [apply Rmin_r | exact HF].
Qed.

Lemma port_sweep_some (share C : R -> option R) (l cs vs : list R) :
  Forall2 (fun a c => C a = Some c) l cs ->
  Forall2 (fun a v => share a = Some v) l vs ->
  forall cVec mVec vVec,
    for_each (Portfolio.sweep_step share C) l (cVec, mVec, vVec)
    = Some (cVec ++ map (LifeCycle.stored_c true) (combine cs l),
            mVec ++ map LifeCycle.stored_m (combine cs l),
            vVec ++ vs).
Proof.
  intros HC. revert vs.
  induction HC as [|a c l cs Hac HC IH]; intros vs HV cVec mVec vVec.
  - inversion HV; subst. simpl. rewrite !app_nil_r. reflexivity.
  - inversion HV as [|? v ? vs' Hav HV']; subst.
    cbn [for_each]. unfold Portfolio.sweep_step at 1.
    rewrite Hav, Hac. cbn [bind].
    rewrite (IH vs' HV'). rewrite <- !app_assoc. reflexivity.
Qed.

(** The knots of a solved period. *)
Lemma port_solve_period_inv (c_next : option Spline.policy) (p : Portfolio.period) :
  solve_period c_next = Some p ->
  exists cs ms vs,
    Portfolio.cVec_port p = 0 :: cs /\
    Portfolio.mVec_port p = 0 :: ms /\
    Portfolio.varsigmaVec_port p = 0 :: vs /\
    Forall2 Rle cs ms.
Proof.
  unfold solve_period, Portfolio.solve_period, Portfolio.sweep.
  intros H. apply bind_some in H. destruct H as ([[cVec mVec] vVec] & E & H).
  apply bind_some in H. destruct H as (cF & _ & H).
  apply bind_some in H. destruct H as (vF & _ & H).
  injection H as <-. cbn [Portfolio.cVec_port Portfolio.mVec_port
                          Portfolio.varsigmaVec_port].
  apply port_sweep_loop in E. destruct E as (cs & ms & vs & -> & -> & -> & HF).
  exists cs, ms, vs. repeat split; auto.
Qed.

(** The sweep calls the share solver and the implied consumption at every
    grid point, and appends [m = c + a] and [min(c, m)]. *)
Lemma port_sweep_inv (share C : R -> option R) (l : list R) :
  forall cVec mVec vVec cVec' mVec' vVec',
    for_each (Portfolio.sweep_step share C) l (cVec, mVec, vVec)
    = Some (cVec', mVec', vVec') ->
    exists cs vs,
      Forall2 (fun a c => C a = Some c) l cs /\
      Forall2 (fun a v => share a = Some v) l vs /\
      cVec' = cVec ++ map (fun ca => Rmin (fst ca) (fst ca + snd ca)) (combine cs l) /\
      mVec' = mVec ++ map (fun ca => fst ca + snd ca) (combine cs l) /\
      vVec' = vVec ++ vs.
Proof.
  induction l as [|a l IH]; intros cVec mVec vVec cVec' mVec' vVec' H; simpl in H.
  - injection H as <- <- <-. exists [], []. rewrite !app_nil_r.
    repeat split; constructor.
  - apply bind_some in H. destruct H as ([[cV1 mV1] vV1] & E & H).
    unfold Portfolio.sweep_step in E.
    apply bind_some in E. destruct E as (v & Ev & E).
    apply bind_some in E. destruct E as (c & Ec & E).
    injection E as <- <- <-.
    destruct (IH _ _ _ _ _ _ H) as (cs & vs & HC & HV & -> & -> & ->).
    exists (c :: cs), (v :: vs). rewrite <- !app_assoc.
    repeat split; try reflexivity; constructor; assumption.
Qed.

(** The knots of a solved period, grid point by grid point. *)
Lemma port_solve_period_knots (c_next : option Spline.policy) (p : Portfolio.period) :
  solve_period c_next = Some p ->
  exists cs,
    Forall2 (fun a c =>
               match c_next with
               | None => GothicMC.C_Tminus1 gothicMC a
               | Some f => GothicMC.C_t gothicMC a (Spline.evaluate f)
               end = Some c) aVec_eee_big cs /\
    Portfolio.mVec_port p
    = 0 :: map (fun ca => fst ca + snd ca) (combine cs aVec_eee_big) /\
    Portfolio.cVec_port p
    = 0 :: map (fun ca => Rmin (fst ca) (fst ca + snd ca)) (combine cs aVec_eee_big).
Proof.
  unfold solve_period, Portfolio.solve_period, Portfolio.sweep.
  intros H. apply bind_some in H. destruct H as ([[cVec mVec] vVec] & E & H).
  apply bind_some in H. destruct H as (cF & _ & H).
  apply bind_some in H. destruct H as (vF & _ & H).
  injection H as <-. cbn [Portfolio.cVec_port Portfolio.mVec_port].
  apply port_sweep_inv in E. destruct E as (cs & vs & HC & _ & -> & -> & _).
  exists cs. split; [|split; reflexivity].
  destruct c_next; exact HC.
Qed.

Lemma from_period_store l t0 c_next p :
  from_period gothicMC aVec_eee_big l -> solve_period c_next = Some p ->
  from_period gothicMC aVec_eee_big (Portfolio.store l t0 p).
Proof.
  intros Hl Hp t. unfold Portfolio.store.
  cbn [Portfolio.mGridPort_life Portfolio.cGridPort_life Portfolio.cFuncPort_life].
  rewrite !dict_get_set. destruct (Z.eqb t t0).
  - right. exists c_next, p. auto.
  - apply Hl.
Qed.

Lemma port_loop_entries (ts : list Z) : forall cF l cF' l',
  for_each life_step ts (cF, l) = Some (cF', l') ->
  from_period gothicMC aVec_eee_big l -> from_period gothicMC aVec_eee_big l'.
Proof.
  induction ts as [|t0 ts IH]; intros cF l cF' l' H Hl; simpl in H.
  - injection H as <- <-. exact Hl.
  - apply bind_some in H. destruct H as ([cF1 l1] & E & H).
    unfold life_step, Portfolio.life_step in E. fold solve_period in E.
    apply bind_some in E. destruct E as (p1 & E1 & E).
    injection E as <- <-.
    apply (IH _ _ _ _ H). eapply from_period_store; eauto.
Qed.

Lemma port_life_cycle_entries (T : Z) cF l :
  Portfolio.life_cycle gothicMC aVec_eee_big T = Some (cF, l) -> from_period gothicMC aVec_eee_big l.
Proof.
  unfold Portfolio.life_cycle. fold solve_period life_step.
  intros H. apply bind_some in H. destruct H as (p0 & E0 & H).
  apply (port_loop_entries _ _ _ _ _ H).
  eapply from_period_store; [|exact E0].
  intros t. left. auto.
Qed.

(** One new key per pass, in the order of the passes. *)
Lemma port_loop_keys (ts : list Z) : forall cF l cF' l',
  for_each life_step ts (cF, l) = Some (cF', l') ->
  NoDup (Py.keys (Portfolio.cFuncPort_life l) ++ ts) ->
  Py.keys (Portfolio.cFuncPort_life l') = Py.keys (Portfolio.cFuncPort_life l) ++ ts.
Proof.
  induction ts as [|t0 ts IH]; intros cF l cF' l' H ND; simpl in H.
  - injection H as <- <-. rewrite app_nil_r. reflexivity.
  - apply bind_some in H. destruct H as ([cF1 l1] & E & H).
    unfold life_step, Portfolio.life_step in E. fold solve_period in E.
    apply bind_some in E. destruct E as (p1 & E1 & E).
    injection E as <- <-.
    assert (Hfresh : ~ In t0 (Py.keys (Portfolio.cFuncPort_life l))).
    { apply NoDup_remove_2 in ND. intros Hin. apply ND.
      apply in_or_app. left. exact Hin. }
    rewrite (IH _ _ _ _ H); unfold Portfolio.store;
      cbn [Portfolio.cFuncPort_life]; rewrite keys_set_fresh by assumption.
    + rewrite <- app_assoc. reflexivity.
    + rewrite <- app_assoc. exact ND.
Qed.

Lemma port_loop_total (good : Spline.policy -> Prop) :
  (forall cF, good cF ->
     exists p, solve_period (Some cF) = Some p /\ good (Portfolio.cFunc p)) ->
  forall ts cF l, good cF ->
    exists cF' l', for_each life_step ts (cF, l) = Some (cF', l') /\ good cF'.
Proof.
  intros Hstep. induction ts as [|t0 ts IH]; intros cF l Hg; simpl.
  - eauto.
  - unfold life_step at 1, Portfolio.life_step. fold solve_period.
    destruct (Hstep cF Hg) as (p & E & Hg'). rewrite E. cbn [bind].
    apply IH. exact Hg'.
Qed.

End PortfolioFacts.

(** ** The portfolio solver on the dominating-risky-asset engine *)

Section PortfolioExample.

Variable aVec_eee_big : list R.
Hypothesis Hgrid : asset_grid aVec_eee_big.
Hypothesis Hsize : (2 <= length aVec_eee_big)%nat.

Lemma strictly_increasing_tail x l :
  strictly_increasing (x :: l) -> strictly_increasing l.
Proof. destruct l; simpl; tauto. Qed.

Lemma Forall2_map_some {A B : Type} (f : A -> option B) (h : A -> B) (l : list A) :
  (forall x, In x l -> f x = Some (h x)) ->
  Forall2 (fun x y => f x = Some y) l (map h l).
Proof.
  induction l as [|x l IH]; intros H; simpl; constructor.
  - apply H; left; reflexivity.
  - apply IH. intros; apply H; right; assumption.
Qed.

Lemma gmc_risky_period (c_next : option Spline.policy) :
  continuation c_next ->
  exists p,
    Portfolio.solve_period Examples.gmc_risky aVec_eee_big c_next = Some p /\
    rising (Portfolio.cFunc p).
Proof.
  intros Hc.
  destruct Hgrid as (Hne & HS & HP).
  set (cn := fun m : R => match c_next with
                          | Some f => Spline.evaluate f m
                          | None => m
                          end).
  assert (cn_pos : forall x, 0 < x -> 0 < cn x).
  { unfold cn. destruct c_next as [f|]; [|auto].
    apply (rising_evaluate f Hc). }
  assert (cn_mono : forall x y, x <= y -> cn x <= cn y).
  { unfold cn. destruct c_next as [f|]; [|auto].
    apply (rising_evaluate f Hc). }
  set (share := match c_next with
                | None => GothicMC.varsigma_Tminus1 Examples.gmc_risky
                | Some f => fun a =>
                    GothicMC.varsigma_t Examples.gmc_risky a (Spline.evaluate f)
                end).
  set (C := match c_next with
            | None => GothicMC.C_Tminus1 Examples.gmc_risky
            | Some f => fun a =>
                GothicMC.C_t Examples.gmc_risky a (Spline.evaluate f)
            end).
  assert (HC : forall a, 0 < a -> C a = Some (cn (2 * a + 1) / 2)).
  { intros a Ha. unfold C, cn. destruct c_next as [f|].
    - apply gmc_risky_C_t; [assumption|]. apply (cn_pos (2 * a + 1)). lra.
    - apply gmc_risky_C_Tminus1; assumption. }
  assert (HV : forall a, 0 < a -> share a = Some 1).
  { intros a Ha. unfold share. destruct c_next as [f|].
    - apply gmc_risky_varsigma_t; [assumption|]. apply (cn_pos (2 * a + 1)). lra.
    - apply gmc_risky_varsigma_Tminus1; assumption. }
  assert (C_pos : forall a c, 0 < a -> C a = Some c -> 0 < c).
  { intros a c Ha E. rewrite HC in E by assumption. injection E as <-.
    assert (0 < cn (2 * a + 1)) by (apply cn_pos; lra). lra. }
  assert (C_mono : forall a a' c c',
             0 < a -> a <= a' -> C a = Some c -> C a' = Some c' -> c <= c').
  { intros a a' c c' Ha Haa E E'.
    rewrite HC in E by assumption. rewrite HC in E' by lra.
    injection E as <-. injection E' as <-.
    assert (cn (2 * a + 1) <= cn (2 * a' + 1)) by (apply cn_mono; lra). lra. }
  rewrite Forall_forall in HP.
  pose proof (Forall2_map_some C (fun a => cn (2 * a + 1) / 2) aVec_eee_big
                (fun a Ha => HC a (HP a Ha))) as FC.
  pose proof (Forall2_map_some share (fun _ => 1) aVec_eee_big
                (fun a Ha => HV a (HP a Ha))) as FV.
  set (cs := map (fun a => cn (2 * a + 1) / 2) aVec_eee_big) in *.
  set (vs := map (fun _ : R => 1) aVec_eee_big) in *.
  unfold Portfolio.solve_period, Portfolio.sweep. fold share C.
  rewrite (port_sweep_some share C aVec_eee_big cs vs FC FV).
  cbn [bind app].
  destruct (knots_rising C C_pos C_mono true aVec_eee_big cs 0 FC)
    as (HL & H2 & Hinc & Hr); [repeat split; auto; apply Forall_forall; exact HP | lra |].
  rewrite InterpolatedUnivariateSpline_some by assumption.
  cbn [bind tl].
  rewrite InterpolatedUnivariateSpline_some.
  - cbn [bind]. eexists; split; [reflexivity|]. exact Hr.
  - rewrite length_map, length_combine. unfold cs, vs. rewrite !length_map.
    rewrite Nat.min_id. reflexivity.
  - rewrite length_map, length_combine. unfold cs. rewrite !length_map.
    rewrite Nat.min_id. exact Hsize.
  - eapply strictly_increasing_tail. exact Hinc.
Qed.

Lemma gmc_risky_life_cycle_total (T : Z) :
  exists cF l,
    Portfolio.life_cycle Examples.gmc_risky aVec_eee_big T = Some (cF, l).
Proof.
  unfold Portfolio.life_cycle.
  destruct (gmc_risky_period None I) as (p0 & E0 & R0).
  rewrite E0. cbn [bind].
  destruct (port_loop_total Examples.gmc_risky aVec_eee_big rising) with
    (ts := Py.range_down (T - 2) 0) (cF := Portfolio.cFunc p0)
    (l := Portfolio.store Portfolio.empty_life (T - 1) p0) as (cF & l & E & _).
  - intros cF Hg. apply gmc_risky_period; exact Hg.
  - exact R0.
  - eauto.
Qed.

Lemma gmc_risky_life_cycle_upto_total (T : Z) (k : nat) :
  exists cF l,
    Portfolio.life_cycle_upto Examples.gmc_risky aVec_eee_big T k = Some (cF, l).
Proof.
  unfold Portfolio.life_cycle_upto.
  destruct (gmc_risky_period None I) as (p0 & E0 & R0).
  rewrite E0. cbn [bind].
  destruct (port_loop_total Examples.gmc_risky aVec_eee_big rising) with
    (ts := firstn k (Py.range_down (T - 2) 0)) (cF := Portfolio.cFunc p0)
    (l := Portfolio.store Portfolio.empty_life (T - 1) p0) as (cF & l & E & _).
  - intros cF Hg. apply gmc_risky_period; exact Hg.
  - exact R0.
  - eauto.
Qed.

End PortfolioExample.

(** The grid [[1, 2]] and the one-point-mass configurations are well
    formed. *)
Lemma grid_1_2 : asset_grid [1; 2].
Proof.
  repeat split; try discriminate; try lra.
  repeat constructor; lra.
Qed.

Lemma gothic_example_well_posed : well_posed (Examples.gothic 1).
Proof.
  unfold well_posed; simpl. repeat split; try lra.
  - destruct H as [<-|[]]; simpl; lra.
  - destruct H as [<-|[]]; simpl; lra.
Qed.

(** ** Claims on the two life-cycle solvers *)

Lemma life_cycle_keys C_Tminus1 C_t s aVec_eee constrained T cF d :
  LifeCycle.life_cycle C_Tminus1 C_t s aVec_eee constrained T = Some (cF, d) ->
  Py.keys d = (T - 1)%Z :: Py.range_down (T - 2) (-1).
Proof.
  unfold LifeCycle.life_cycle. intros H.
  apply bind_some in H. destruct H as (p0 & _ & H).
  apply life_loop_keys in H; [exact H|].
  simpl. constructor; [|apply range_down_NoDup].
  rewrite range_down_in. lia.
Qed.

Lemma NoDup_firstn {A : Type} (k : nat) (l : list A) : NoDup l -> NoDup (firstn k l).
Proof.
  intros H. rewrite <- (firstn_skipn k l) in H.
  apply NoDup_app_remove_r in H. exact H.
Qed.

Lemma In_firstn {A : Type} (k : nat) (l : list A) (x : A) :
  In x (firstn k l) -> In x l.
Proof.
  intros H. rewrite <- (firstn_skipn k l). apply in_or_app. left. exact H.
Qed.

Lemma life_cycle_upto_keys C_Tminus1 C_t s aVec_eee constrained T k cF d :
  LifeCycle.life_cycle_upto C_Tminus1 C_t s aVec_eee constrained T k = Some (cF, d) ->
  Py.keys d = (T - 1)%Z :: firstn k (Py.range_down (T - 2) (-1)).
Proof.
  unfold LifeCycle.life_cycle_upto. intros H.
  apply bind_some in H. destruct H as (p0 & _ & H).
  apply life_loop_keys in H; [exact H|].
  simpl. constructor; [|apply NoDup_firstn, range_down_NoDup].
  intros Hin. apply In_firstn in Hin. rewrite range_down_in in Hin. lia.
Qed.

Lemma port_life_cycle_keys gothicMC aVec_eee_big T cF l :
  Portfolio.life_cycle gothicMC aVec_eee_big T = Some (cF, l) ->
  Py.keys (Portfolio.cFuncPort_life l) = (T - 1)%Z :: Py.range_down (T - 2) 0.
Proof.
  unfold Portfolio.life_cycle. intros H.
  apply bind_some in H. destruct H as (p0 & _ & H).
  apply port_loop_keys in H; [exact H|].
  simpl. constructor; [|apply range_down_NoDup].
  rewrite range_down_in. lia.
Qed.

Lemma port_life_cycle_upto_keys gothicMC aVec_eee_big T k cF l :
  Portfolio.life_cycle_upto gothicMC aVec_eee_big T k = Some (cF, l) ->
  Py.keys (Portfolio.cFuncPort_life l)
  = (T - 1)%Z :: firstn k (Py.range_down (T - 2) 0).
Proof.
  unfold Portfolio.life_cycle_upto. intros H.
  apply bind_some in H. destruct H as (p0 & _ & H).
  apply port_loop_keys in H; [exact H|].
  simpl. constructor; [|apply NoDup_firstn, range_down_NoDup].
  intros Hin. apply In_firstn in Hin. rewrite range_down_in in Hin. lia.
Qed.

Lemma combine_map_map {A B C : Type} (f : A -> B) (h : A -> C) (l : list A) :
  combine (map f l) (map h l) = map (fun x => (f x, h x)) l.
Proof. induction l as [|x l IH]; simpl; [reflexivity | rewrite IH; reflexivity]. Qed.

(** C2.  On a well-posed configuration and an asset grid (non-empty,
    strictly increasing, positive), the backward loop solves every period
    [0 .. T-1], and in every period the sequence of cash-on-hand knots
    passed to the interpolator, the boundary knot followed by [m = c + a]
    for each grid point, is strictly increasing. *)
Theorem m_knots_strictly_increasing
    (g : Gothic.config) (aVec_eee : list R) (constrained : bool) (T : Z) :
  well_posed g -> asset_grid aVec_eee ->
  exists s cF d,
    self_a_min (theta_X g) (Gothic.growth_factor g) (Gothic.gross_return g) = Some s /\
    LifeCycle.life_cycle (Gothic.C_Tminus1 g) (Gothic.C_t g) s aVec_eee constrained T
    = Some (cF, d) /\
    (forall t, (0 <= t < T)%Z -> exists p, Py.dict_get d t = Some p) /\
    (forall t p, Py.dict_get d t = Some p ->
       exists c_next cVec mVec,
         LifeCycle.sweep s aVec_eee constrained
           (LifeCycle.consumption (Gothic.C_Tminus1 g) (Gothic.C_t g) c_next)
         = Some (cVec, mVec) /\
         strictly_increasing mVec /\
         Spline.InterpolatedUnivariateSpline mVec cVec = Some p).
Proof.
  intros Hwp Hgrid.
  destruct (self_a_min_negative g Hwp) as (s & Es & Hs).
  destruct (gothic_life_cycle_total g Hwp aVec_eee Hgrid constrained s T Hs)
    as (cF & d & E).
  exists s, cF, d. split; [exact Es|]. split; [exact E|]. split.
  - intros t Ht. apply dict_get_key. rewrite (life_cycle_keys _ _ _ _ _ _ _ _ E).
    destruct (Z.eq_dec t (T - 1)) as [->|Hne]; [left; reflexivity|].
    right. apply range_down_in. lia.
  - intros t p Hp.
    destruct (life_cycle_entries _ _ _ _ _ _ _ _ E t p Hp) as (c_next & Ep).
    unfold LifeCycle.solve_period in Ep.
    apply bind_some in Ep. destruct Ep as ([cVec mVec] & Esw & Esp).
    exists c_next, cVec, mVec. split; [exact Esw|]. split; [|exact Esp].
    apply InterpolatedUnivariateSpline_inv in Esp. tauto.
Qed.

Lemma m_knots_strictly_increasing_witness :
  well_posed (Examples.gothic 1) /\ asset_grid [1; 2] /\
  exists s cF d,
    self_a_min (theta_X (Examples.gothic 1)) 1 1 = Some s /\
    LifeCycle.life_cycle (Gothic.C_Tminus1 (Examples.gothic 1))
      (Gothic.C_t (Examples.gothic 1)) s [1; 2] true 3 = Some (cF, d) /\
    (forall t, (0 <= t < 3)%Z -> exists p, Py.dict_get d t = Some p) /\
    (forall t p, Py.dict_get d t = Some p ->
       exists c_next cVec mVec,
         LifeCycle.sweep s [1; 2] true
           (LifeCycle.consumption (Gothic.C_Tminus1 (Examples.gothic 1))
              (Gothic.C_t (Examples.gothic 1)) c_next)
         = Some (cVec, mVec) /\
         strictly_increasing mVec /\
         Spline.InterpolatedUnivariateSpline mVec cVec = Some p).
Proof.
  split; [exact gothic_example_well_posed|]. split; [exact grid_1_2|].
  exact (m_knots_strictly_increasing (Examples.gothic 1) [1; 2] true 3
           gothic_example_well_posed grid_1_2).
Defined.

(** The natural limit, when it is computed, is the formula of the script. *)
Lemma self_a_min_formula theta PermGroFac0 Rfree s :
  self_a_min theta PermGroFac0 Rfree = Some s ->
  exists m, Py.list_min theta = Some m /\ s = - m * PermGroFac0 / Rfree.
Proof.
  unfold self_a_min. intros H. apply bind_some in H. destruct H as (m & Em & H).
  unfold float_div in H. destruct (Req_dec_T Rfree 0); [discriminate|].
  injection H as <-. eauto.
Qed.

(** With an income shock that is always [-1] the last period is still
    solved on the grid [[2]], and the natural limit is [1]. *)
Lemma gothic_negative_shock_C :
  exists c, Gothic.C_Tminus1 (Examples.gothic (- 1)) 2 = Some c /\ 0 < c.
Proof.
  unfold Gothic.C_Tminus1, Gothic.implied_consumption, Gothic.expected_marginal_value.
  cbn [Examples.gothic Examples.point_mass Gothic.shock_distribution
       Gothic.gross_return Gothic.growth_factor Gothic.risk_aversion
       Gothic.discount Expect.expectation value probability].
  unfold Utility.marginal.
  destruct (Rlt_dec 0 (1 * 2 / 1 + - 1)) as [_|N]; [|exfalso; apply N; lra].
  cbn [bind]. unfold float_pow.
  destruct (Rlt_dec 0 1) as [_|N]; [|exfalso; apply N; lra].
  cbn [bind]. unfold Utility.inverse_marginal, float_div.
  destruct (Req_dec_T 1 0) as [Z|_]; [lra|].
  match goal with
  | |- context [Rlt_dec 0 ?v] => destruct (Rlt_dec 0 v) as [_|N]
  end.
  - eexists. split; [reflexivity | apply Rpower_pos].
  - exfalso. apply N.
    pose proof (Rpower_pos 1 (- (1))).
    pose proof (Rpower_pos (1 * 2 / 1 + - 1) (- (1))).
    apply Rmult_lt_0_compat; [|lra].
    repeat apply Rmult_lt_0_compat; lra.
Qed.

Lemma gothic_negative_shock_life_cycle :
  exists c,
    0 < c /\
    LifeCycle.life_cycle (Gothic.C_Tminus1 (Examples.gothic (- 1)))
      (Gothic.C_t (Examples.gothic (- 1))) 1 [2] true 1
    = Some ([(1, 0); (c + 2, Rmin c (c + 2))],
            [(0%Z, [(1, 0); (c + 2, Rmin c (c + 2))])]).
Proof.
  destruct gothic_negative_shock_C as (c & Ec & Hc).
  exists c. split; [exact Hc|].
  unfold LifeCycle.life_cycle, LifeCycle.solve_period, LifeCycle.sweep,
    LifeCycle.consumption, LifeCycle.mVec0.
  destruct (Rlt_dec 1 0) as [N|_]; [lra|].
  cbn [for_each]. unfold LifeCycle.sweep_step at 1. rewrite Ec. cbn [bind app].
  unfold Spline.InterpolatedUnivariateSpline.
  cbn [length Nat.eqb Nat.leb andb strictly_increasingb].
  destruct (Rlt_dec 1 (c + 2)) as [_|N]; [|exfalso; apply N; lra].
  reflexivity.
Qed.

(** C6, as stated, fails: under the artificial-at-zero mode
    ([constrained = True]) the first knot is moved to [m = 0] only when the
    natural limit is negative.  With the single shock value [-1], growth
    factor [1] and return [1] the natural limit is [1], the last period is
    solved on the grid [[2]], and its first knot is [(1, 0)], not [(0, 0)]. *)
Lemma first_knot_counterexample :
  exists cF d p,
    self_a_min (theta_X (Examples.gothic (- 1))) 1 1 = Some 1 /\
    LifeCycle.life_cycle (Gothic.C_Tminus1 (Examples.gothic (- 1)))
      (Gothic.C_t (Examples.gothic (- 1))) 1 [2] true 1 = Some (cF, d) /\
    Py.dict_get d 0 = Some p /\
    hd_error p = Some (1, 0) /\
    hd_error p <> Some (0, 0).
Proof.
  destruct gothic_negative_shock_life_cycle as (c & Hc & E).
  do 3 eexists. split; [|split; [exact E|]].
  - unfold self_a_min, theta_X. simpl. unfold float_div.
    destruct (Req_dec_T 1 0); [lra|]. f_equal. field.
  - split; [reflexivity|]. split; [reflexivity|].
    simpl. intros H. injection H. lra.
Qed.

(** C6, amended.  For every solved period the first knot of the
    consumption policy has consumption [0].  Its state is the natural limit
    [self_a_min = -min(theta.X) * PermGroFac[0] / R] under the natural mode;
    under the artificial-at-zero mode it is [0] when the natural limit is
    negative and the natural limit itself otherwise. *)
Theorem first_knot
    (C_Tminus1 : R -> option R) (C_t : R -> (R -> R) -> option R)
    (theta : list R) (PermGroFac0 Rfree s : R)
    (aVec_eee : list R) (constrained : bool) (T : Z)
    (cF : Spline.policy) (d : Py.dict Spline.policy) :
  self_a_min theta PermGroFac0 Rfree = Some s ->
  LifeCycle.life_cycle C_Tminus1 C_t s aVec_eee constrained T = Some (cF, d) ->
  (exists m, Py.list_min theta = Some m /\ s = - m * PermGroFac0 / Rfree) /\
  forall t p, Py.dict_get d t = Some p ->
    hd_error p
    = Some (if constrained then if Rlt_dec s 0 then 0 else s else s, 0).
Proof.
  intros Es E. split; [apply self_a_min_formula; exact Es|].
  intros t p Hp.
  destruct (life_cycle_entries _ _ _ _ _ _ _ _ E t p Hp) as (c_next & Ep).
  apply solve_period_inv in Ep.
  destruct Ep as (m0 & cs & Hm & _ & _ & _ & ->).
  rewrite mVec0_cases in Hm. injection Hm as <-. reflexivity.
Qed.

Lemma first_knot_witness :
  self_a_min (theta_X (Examples.gothic 1)) 1 1 = Some (- 1) /\
  exists cF d,
    LifeCycle.life_cycle (Gothic.C_Tminus1 (Examples.gothic 1))
      (Gothic.C_t (Examples.gothic 1)) (- 1) [1; 2] false 3 = Some (cF, d) /\
    (exists m, Py.list_min (theta_X (Examples.gothic 1)) = Some m /\
               - 1 = - m * 1 / 1) /\
    forall t p, Py.dict_get d t = Some p -> hd_error p = Some (- 1, 0).
Proof.
  assert (Es : self_a_min (theta_X (Examples.gothic 1)) 1 1 = Some (- 1)).
  { unfold self_a_min, theta_X. simpl. unfold float_div.
    destruct (Req_dec_T 1 0); [lra|]. f_equal. field. }
  split; [exact Es|].
  destruct (gothic_life_cycle_total (Examples.gothic 1) gothic_example_well_posed
              [1; 2] grid_1_2 false (- 1) 3) as (cF & d & E); [lra|].
  exists cF, d. split; [exact E|].
  exact (first_knot _ _ _ 1 1 (- 1) _ false 3 cF d Es E).
Defined.

(** C7.  Under the artificial-at-zero mode ([constrained = True]) every
    stored knot of every solved period has [c <= m]: the control stored for
    a grid point [a] is [min(c, m)] with [m = c + a] and [c] the implied
    consumption.  Under [constrained = False] nothing is clipped: the
    stored control is the implied consumption itself. *)
Theorem consumption_clipped
    (C_Tminus1 : R -> option R) (C_t : R -> (R -> R) -> option R)
    (s : R) (aVec_eee : list R) (T : Z) :
  (forall cF d,
     LifeCycle.life_cycle C_Tminus1 C_t s aVec_eee true T = Some (cF, d) ->
     forall t p, Py.dict_get d t = Some p ->
       Forall (fun k => snd k <= fst k) p /\
       exists c_next cs m0,
         Forall2 (fun a c => LifeCycle.consumption C_Tminus1 C_t c_next a = Some c)
           aVec_eee cs /\
         p = (m0, 0) :: map (fun ca => (fst ca + snd ca, Rmin (fst ca) (fst ca + snd ca)))
                            (combine cs aVec_eee)) /\
  (forall cF d,
     LifeCycle.life_cycle C_Tminus1 C_t s aVec_eee false T = Some (cF, d) ->
     forall t p, Py.dict_get d t = Some p ->
       exists c_next cs,
         Forall2 (fun a c => LifeCycle.consumption C_Tminus1 C_t c_next a = Some c)
           aVec_eee cs /\
         p = (s, 0) :: map (fun ca => (fst ca + snd ca, fst ca)) (combine cs aVec_eee)).
Proof.
  split; intros cF d E t p Hp;
    destruct (life_cycle_entries _ _ _ _ _ _ _ _ E t p Hp) as (c_next & Ep);
    apply solve_period_inv in Ep;
    destruct Ep as (m0 & cs & Hm & HF & _ & _ & ->);
    rewrite mVec0_cases in Hm; injection Hm as <-;
    rewrite combine_map_map.
  - assert (Hp' : forall l : list (R * R),
               map (fun x => (LifeCycle.stored_m x, LifeCycle.stored_c true x)) l
               = map (fun ca => (fst ca + snd ca, Rmin (fst ca) (fst ca + snd ca))) l).
    { intros l. apply map_ext. intros [c a]. reflexivity. }
    rewrite Hp'. split.
    + constructor.
      * cbn [fst snd]. destruct (Rlt_dec s 0); lra.
      * apply Forall_forall. intros k Hk. apply in_map_iff in Hk.
        destruct Hk as ([c a] & <- & _). cbn [fst snd]. apply Rmin_r.
    + exists c_next, cs. eexists. split; [exact HF | reflexivity].
  - exists c_next, cs. split; [exact HF|]. f_equal.
    apply map_ext. intros [c a]. reflexivity.
Qed.

Lemma consumption_clipped_witness :
  (exists cF d,
     LifeCycle.life_cycle (Gothic.C_Tminus1 (Examples.gothic 1))
       (Gothic.C_t (Examples.gothic 1)) (- 1) [1; 2] true 3 = Some (cF, d) /\
     forall t p, Py.dict_get d t = Some p ->
       Forall (fun k => snd k <= fst k) p /\
       exists c_next cs m0,
         Forall2 (fun a c =>
                    LifeCycle.consumption (Gothic.C_Tminus1 (Examples.gothic 1))
                      (Gothic.C_t (Examples.gothic 1)) c_next a = Some c)
           [1; 2] cs /\
         p = (m0, 0) :: map (fun ca => (fst ca + snd ca, Rmin (fst ca) (fst ca + snd ca)))
                            (combine cs [1; 2])) /\
  (exists cF d,
     LifeCycle.life_cycle (Gothic.C_Tminus1 (Examples.gothic 1))
       (Gothic.C_t (Examples.gothic 1)) (- 1) [1; 2] false 3 = Some (cF, d) /\
     forall t p, Py.dict_get d t = Some p ->
       exists c_next cs,
         Forall2 (fun a c =>
                    LifeCycle.consumption (Gothic.C_Tminus1 (Examples.gothic 1))
                      (Gothic.C_t (Examples.gothic 1)) c_next a = Some c)
           [1; 2] cs /\
         p = (- 1, 0) :: map (fun ca => (fst ca + snd ca, fst ca)) (combine cs [1; 2])).
Proof.
  assert (Hs : - 1 < 0) by lra.
  split.
  - destruct (gothic_life_cycle_total (Examples.gothic 1) gothic_example_well_posed
                [1; 2] grid_1_2 true (- 1) 3 Hs) as (cF & d & E).
    exists cF, d. split; [exact E|].
    exact (proj1 (consumption_clipped _ _ (- 1) [1; 2] 3) cF d E).
  - destruct (gothic_life_cycle_total (Examples.gothic 1) gothic_example_well_posed
                [1; 2] grid_1_2 false (- 1) 3 Hs) as (cF & d & E).
    exists cF, d. split; [exact E|].
    exact (proj2 (consumption_clipped _ _ (- 1) [1; 2] 3) cF d E).
Defined.

(** C8, as stated, fails for the portfolio solver: its backward loop is
    [range(T - 2, 0, -1)] and stops at period [1].  With [T = 3] the loop
    finishes and [cFuncPort_life] has no policy for period [0]. *)
Lemma life_cycle_periods_counterexample :
  exists cF l,
    Portfolio.life_cycle Examples.gmc_risky [1; 2] 3 = Some (cF, l) /\
    Py.keys (Portfolio.cFuncPort_life l) = [2%Z; 1%Z] /\
    Py.dict_get (Portfolio.cFuncPort_life l) 0 = None.
Proof.
  destruct (gmc_risky_life_cycle_total [1; 2] grid_1_2 (le_n 2) 3) as (cF & l & E).
  exists cF, l. split; [exact E|].
  pose proof (port_life_cycle_keys _ _ _ _ _ E) as K.
  split; [exact K|].
  apply dict_get_not_key. rewrite K. simpl. intros [H|[H|[]]]; discriminate.
Qed.

(** C8, amended.  Both solvers store the last period [T - 1] first and
    then one period per pass, in strictly decreasing order: after [k]
    passes exactly the periods visited so far have an entry.  When the loop
    of the simple solver finishes, [cFunc_life] has a policy for every
    period from [0] to [T - 1].  When the loop of the portfolio solver
    finishes, [cFuncPort_life] has a policy for every period from [1] to
    [T - 1], and none for period [0] when [T >= 2]. *)
Theorem life_cycle_periods
    (C_Tminus1 : R -> option R) (C_t : R -> (R -> R) -> option R)
    (s : R) (aVec_eee : list R) (constrained : bool)
    (gothicMC : GothicMC.engine) (aVec_eee_big : list R) (T : Z) :
  (forall k cF d,
     LifeCycle.life_cycle_upto C_Tminus1 C_t s aVec_eee constrained T k = Some (cF, d) ->
     Py.keys d = (T - 1)%Z :: firstn k (Py.range_down (T - 2) (-1))) /\
  (forall cF d,
     LifeCycle.life_cycle C_Tminus1 C_t s aVec_eee constrained T = Some (cF, d) ->
     Py.keys d = (T - 1)%Z :: Py.range_down (T - 2) (-1) /\
     forall t, (0 <= t < T)%Z -> exists p, Py.dict_get d t = Some p) /\
  (forall k cF l,
     Portfolio.life_cycle_upto gothicMC aVec_eee_big T k = Some (cF, l) ->
     Py.keys (Portfolio.cFuncPort_life l)
     = (T - 1)%Z :: firstn k (Py.range_down (T - 2) 0)) /\
  (forall cF l,
     Portfolio.life_cycle gothicMC aVec_eee_big T = Some (cF, l) ->
     Py.keys (Portfolio.cFuncPort_life l) = (T - 1)%Z :: Py.range_down (T - 2) 0 /\
     (forall t, (1 <= t < T)%Z ->
        exists p, Py.dict_get (Portfolio.cFuncPort_life l) t = Some p) /\
     ((2 <= T)%Z -> Py.dict_get (Portfolio.cFuncPort_life l) 0 = None)).
Proof.
  split; [|split; [|split]].
  - intros k cF d E. eapply life_cycle_upto_keys; exact E.
  - intros cF d E. pose proof (life_cycle_keys _ _ _ _ _ _ _ _ E) as K.
    split; [exact K|]. intros t Ht. apply dict_get_key. rewrite K.
    destruct (Z.eq_dec t (T - 1)) as [->|Hne]; [left; reflexivity|].
    right. apply range_down_in. lia.
  - intros k cF l E. eapply port_life_cycle_upto_keys; exact E.
  - intros cF l E. pose proof (port_life_cycle_keys _ _ _ _ _ E) as K.
    split; [exact K|]. split.
    + intros t Ht. apply dict_get_key. rewrite K.
      destruct (Z.eq_dec t (T - 1)) as [->|Hne]; [left; reflexivity|].
      right. apply range_down_in. lia.
    + intros HT. apply dict_get_not_key. rewrite K.
      intros [H|H]; [lia|]. apply range_down_in in H. lia.
Qed.

Lemma life_cycle_periods_witness :
  (exists cF d,
     LifeCycle.life_cycle_upto (Gothic.C_Tminus1 (Examples.gothic 1))
       (Gothic.C_t (Examples.gothic 1)) (- 1) [1; 2] true 3 1 = Some (cF, d) /\
     Py.keys d = [2%Z; 1%Z]) /\
  (exists cF d,
     LifeCycle.life_cycle (Gothic.C_Tminus1 (Examples.gothic 1))
       (Gothic.C_t (Examples.gothic 1)) (- 1) [1; 2] true 3 = Some (cF, d) /\
     Py.keys d = [2%Z; 1%Z; 0%Z] /\
     forall t, (0 <= t < 3)%Z -> exists p, Py.dict_get d t = Some p) /\
  (exists cF l,
     Portfolio.life_cycle_upto Examples.gmc_risky [1; 2] 4 1 = Some (cF, l) /\
     Py.keys (Portfolio.cFuncPort_life l) = [3%Z; 2%Z]) /\
  (exists cF l,
     Portfolio.life_cycle Examples.gmc_risky [1; 2] 4 = Some (cF, l) /\
     Py.keys (Portfolio.cFuncPort_life l) = [3%Z; 2%Z; 1%Z] /\
     (forall t, (1 <= t < 4)%Z ->
        exists p, Py.dict_get (Portfolio.cFuncPort_life l) t = Some p) /\
     ((2 <= 4)%Z -> Py.dict_get (Portfolio.cFuncPort_life l) 0 = None)).
Proof.
  assert (Hs : - 1 < 0) by lra.
  split; [|split; [|split]].
  - destruct (gothic_life_cycle_upto_total (Examples.gothic 1)
                gothic_example_well_posed [1; 2] grid_1_2 true (- 1) 3 1 Hs)
      as (cF & d & E).
    exists cF, d. split; [exact E|].
    exact (proj1 (life_cycle_periods _ _ (- 1) [1; 2] true
                    Examples.gmc_risky [1; 2] 3) 1%nat cF d E).
  - destruct (gothic_life_cycle_total (Examples.gothic 1)
                gothic_example_well_posed [1; 2] grid_1_2 true (- 1) 3 Hs)
      as (cF & d & E).
    exists cF, d. split; [exact E|].
    exact (proj1 (proj2 (life_cycle_periods _ _ (- 1) [1; 2] true
                           Examples.gmc_risky [1; 2] 3)) cF d E).
  - destruct (gmc_risky_life_cycle_upto_total [1; 2] grid_1_2 (le_n 2) 4 1)
      as (cF & l & E).
    exists cF, l. split; [exact E|].
    exact (proj1 (proj2 (proj2 (life_cycle_periods
                                  (Gothic.C_Tminus1 (Examples.gothic 1))
                                  (Gothic.C_t (Examples.gothic 1)) (- 1) [1; 2] true
                                  Examples.gmc_risky [1; 2] 4))) 1%nat cF l E).
  - destruct (gmc_risky_life_cycle_total [1; 2] grid_1_2 (le_n 2) 4)
      as (cF & l & E).
    exists cF, l. split; [exact E|].
    exact (proj2 (proj2 (proj2 (life_cycle_periods
                                  (Gothic.C_Tminus1 (Examples.gothic 1))
                                  (Gothic.C_t (Examples.gothic 1)) (- 1) [1; 2] true
                                  Examples.gmc_risky [1; 2] 4))) cF l E).
Defined.

(** C10.  In the portfolio solver every period's stored knot vectors begin
    with [(m, c) = (0, 0)] and continue with one knot for each grid point
    [a]: the state [m = c + a] and the control [min(c, m)], [c] being the
    implied consumption at [a] ([C_Tminus1] in the last period, [C_t]
    against a consumption function otherwise).  So every stored control is
    at most the stored state, [c <= m]: the sweep clips at every grid
    point, without any mode switch and without the natural borrowing
    limit. *)
Theorem portfolio_knots_clipped
    (gothicMC : GothicMC.engine) (aVec_eee_big : list R) (T : Z)
    (cF : Spline.policy) (l : Portfolio.life) :
  Portfolio.life_cycle gothicMC aVec_eee_big T = Some (cF, l) ->
  forall t mVec cVec,
    Py.dict_get (Portfolio.mGridPort_life l) t = Some mVec ->
    Py.dict_get (Portfolio.cGridPort_life l) t = Some cVec ->
    hd_error mVec = Some 0 /\ hd_error cVec = Some 0 /\ Forall2 Rle cVec mVec /\
    exists c_next cs,
      Forall2 (fun a c =>
                 match c_next with
                 | None => GothicMC.C_Tminus1 gothicMC a
                 | Some f => GothicMC.C_t gothicMC a (Spline.evaluate f)
                 end = Some c) aVec_eee_big cs /\
      mVec = 0 :: map (fun ca => fst ca + snd ca) (combine cs aVec_eee_big) /\
      cVec = 0 :: map (fun ca => Rmin (fst ca) (fst ca + snd ca))
                      (combine cs aVec_eee_big).
Proof.
  intros E t mVec cVec Hm Hc.
  destruct (port_life_cycle_entries _ _ _ _ _ E t) as [(Nm & _)|(c_next & p & Ep & Em & Ec & _)].
  - congruence.
  - rewrite Hm in Em. rewrite Hc in Ec. injection Em as ->. injection Ec as ->.
    destruct (port_solve_period_knots _ _ _ _ Ep) as (cs & HC & Km & Kc).
    rewrite Km, Kc. split; [reflexivity|]. split; [reflexivity|]. split.
    + constructor; [lra|]. clear. induction (combine cs aVec_eee_big) as [|ca r IH].
      * constructor.
      * cbn [map]. constructor; [apply Rmin_r | exact IH].
    + exists c_next, cs. repeat split; auto.
Qed.

Lemma portfolio_knots_clipped_witness :
  exists cF l mVec cVec,
    Portfolio.life_cycle Examples.gmc_risky [1; 2] 4 = Some (cF, l) /\
    Py.dict_get (Portfolio.mGridPort_life l) 1 = Some mVec /\
    Py.dict_get (Portfolio.cGridPort_life l) 1 = Some cVec /\
    hd_error mVec = Some 0 /\ hd_error cVec = Some 0 /\ Forall2 Rle cVec mVec /\
    exists c_next cs,
      Forall2 (fun a c =>
                 match c_next with
                 | None => GothicMC.C_Tminus1 Examples.gmc_risky a
                 | Some f => GothicMC.C_t Examples.gmc_risky a (Spline.evaluate f)
                 end = Some c) [1; 2] cs /\
      mVec = 0 :: map (fun ca => fst ca + snd ca) (combine cs [1; 2]) /\
      cVec = 0 :: map (fun ca => Rmin (fst ca) (fst ca + snd ca)) (combine cs [1; 2]).
Proof.
  destruct (gmc_risky_life_cycle_total [1; 2] grid_1_2 (le_n 2) 4) as (cF & l & E).
  pose proof (port_life_cycle_keys _ _ _ _ _ E) as K.
  destruct (port_life_cycle_entries _ _ _ _ _ E 1%Z)
    as [(_ & _ & N)|(c_next & p & Ep & Em & Ec & _)].
  - exfalso. assert (Hin : In 1%Z (Py.keys (Portfolio.cFuncPort_life l))).
    { rewrite K. simpl. auto. }
    apply dict_get_key in Hin. destruct Hin as (v & Hv). congruence.
  - exists cF, l, (Portfolio.mVec_port p), (Portfolio.cVec_port p).
    split; [exact E|]. split; [exact Em|]. split; [exact Ec|].
    exact (portfolio_knots_clipped Examples.gmc_risky [1; 2] 4 cF l E 1%Z _ _ Em Ec).
Defined.


(** ** The triple-exponential grid *)

Lemma np_log_exp (x : R) : np_log (1 + Grids.unnest x) = Some x.
Proof.
  unfold np_log, Grids.unnest.
  replace (1 + (exp x - 1)) with (exp x) by ring.
  destruct (Rlt_dec 0 (exp x)) as [_|N]; [|exfalso; apply N, exp_pos].
  rewrite ln_exp. reflexivity.
Qed.

Lemma nested_log3_unnest3 (y : R) : EEE.nested_log3 (EEE.unnest3 y) = Some y.
Proof.
  unfold EEE.nested_log3.
  change (EEE.unnest3 y) with (Grids.unnest (Grids.unnest (Grids.unnest y))).
  rewrite np_log_exp. cbn [bind]. rewrite np_log_exp. cbn [bind].
  apply np_log_exp.
Qed.

Lemma np_log_inv (x l : R) :
  np_log (1 + x) = Some l -> Grids.unnest l = x /\ (0 < x -> 0 < l) /\ (x <= 0 -> l <= 0).
Proof.
  unfold np_log, Grids.unnest.
  destruct (Rlt_dec 0 (1 + x)) as [H|]; [|discriminate].
  intros E; injection E as <-. rewrite exp_ln by assumption.
  split; [ring|]. split.
  - intros Hx. rewrite <- ln_1. apply ln_increasing; lra.
  - intros Hx. destruct (Rle_lt_or_eq_dec _ _ Hx) as [Hlt|Heq].
    + left. rewrite <- ln_1. apply ln_increasing; lra.
    + right. subst x. rewrite Rplus_0_r. apply ln_1.
Qed.

Lemma nested_log3_inv (x l : R) :
  EEE.nested_log3 x = Some l ->
  EEE.unnest3 l = x /\ (0 < x -> 0 < l) /\ (x <= 0 -> l <= 0).
Proof.
  unfold EEE.nested_log3. intros H.
  apply bind_some in H. destruct H as (l1 & E1 & H).
  apply bind_some in H. destruct H as (l2 & E2 & E3).
  apply np_log_inv in E1, E2, E3.
  destruct E1 as (U1 & P1 & N1), E2 as (U2 & P2 & N2), E3 as (U3 & P3 & N3).
  change (EEE.unnest3 l) with (Grids.unnest (Grids.unnest (Grids.unnest l))).
  rewrite U3, U2, U1. split; [reflexivity|].
  split; intros Hx; [apply P3, P2, P1 | apply N3, N2, N1]; exact Hx.
Qed.

Lemma nested_log3_pos (x : R) :
  0 <= x -> exists l, EEE.nested_log3 x = Some l /\ 0 <= l.
Proof.
  intros Hx.
  assert (K : forall z, 0 <= z -> exists l, np_log (1 + z) = Some l /\ 0 <= l).
  { intros z Hz. unfold np_log. destruct (Rlt_dec 0 (1 + z)) as [_|N]; [|lra].
    eexists; split; [reflexivity|].
    destruct (Rle_lt_or_eq_dec _ _ Hz) as [Hlt|Heq].
    - left. rewrite <- ln_1. apply ln_increasing; lra.
    - right. subst z. rewrite Rplus_0_r, ln_1. reflexivity. }
  destruct (K x Hx) as (l1 & E1 & H1).
  destruct (K l1 H1) as (l2 & E2 & H2).
  destruct (K l2 H2) as (l3 & E3 & H3).
  exists l3. unfold EEE.nested_log3. rewrite E1; cbn [bind]. rewrite E2; cbn [bind].
  auto.
Qed.

Lemma unnest3_lt (x y : R) : x < y -> EEE.unnest3 x < EEE.unnest3 y.
Proof.
  intros H.
  change (Grids.unnest (Grids.unnest (Grids.unnest x))
          < Grids.unnest (Grids.unnest (Grids.unnest y))).
  auto using Ex_lt.
Qed.

Lemma unnest3_le (x y : R) : x <= y -> EEE.unnest3 x <= EEE.unnest3 y.
Proof.
  intros [H| ->]; [left; apply unnest3_lt; exact H | right; reflexivity].
Qed.

Lemma unnest3_pos (x : R) : 0 < x -> 0 < EEE.unnest3 x.
Proof.
  intros H.
  change (0 < Grids.unnest (Grids.unnest (Grids.unnest x))).
  auto using Ex_pos.
Qed.

Lemma nth_map_any {A B : Type} (f : A -> B) (l : list A) (d : B) (d' : A) (i : nat) :
  (i < length l)%nat -> nth i (map f l) d = f (nth i l d').
Proof.
  intros Hi. rewrite (nth_indep _ d (f d')) by (rewrite length_map; exact Hi).
  apply map_nth.
Qed.

Lemma nth_map_seq {B : Type} (f : nat -> B) (k i : nat) (d : B) :
  (i < k)%nat -> nth i (map f (seq 1 k)) d = f (S i).
Proof.
  intros Hi. rewrite (nth_map_any f (seq 1 k) d 0%nat) by (rewrite length_seq; exact Hi).
  rewrite seq_nth by exact Hi. reflexivity.
Qed.

(** With a positive step the loop stops after finitely many passes: it
    appends the multiples of the step up to the first one that reaches
    [gridMin]. *)
Lemma grid_loop_runs (ix gm : R) :
  0 < ix ->
  forall N point points,
    gm <= point + INR N * ix ->
    exists k, (k <= N)%nat /\
      (forall fuel, (k < fuel)%nat ->
         EEE.grid_loop fuel (Some ix) (Some gm) point points
         = Returns (points ++ map (fun j => point + INR j * ix) (seq 1 k))) /\
      gm <= point + INR k * ix /\
      (forall j, (j < k)%nat -> point + INR j * ix < gm).
Proof.
  intros Hix. induction N as [|N IH]; intros point points HN.
  - exists 0%nat. simpl in HN. split; [lia|]. split; [|split].
    + intros [|fuel] Hf; [lia|]. simpl.
      destruct (Rlt_dec point gm); [lra|]. rewrite app_nil_r. reflexivity.
    + simpl. lra.
    + intros j Hj. lia.
  - destruct (Rlt_dec point gm) as [Hlt|Hge].
    + destruct (IH (point + ix) (points ++ [point + ix])) as (k & Hk & Hrun & Hup & Hlow).
      { rewrite S_INR in HN. lra. }
      exists (S k). split; [lia|]. split; [|split].
      * intros [|fuel] Hf; [lia|]. cbn [EEE.grid_loop].
        destruct (Rlt_dec point gm); [|contradiction].
        rewrite Hrun by lia. f_equal. rewrite <- app_assoc. f_equal.
        cbn [seq map app]. f_equal; [simpl; ring|].
        rewrite <- (seq_shift k 1), map_map. apply map_ext. intros j.
        rewrite S_INR. ring.
      * rewrite S_INR. lra.
      * intros [|j] Hj; [simpl; lra|].
        specialize (Hlow j ltac:(lia)). rewrite S_INR. lra.
    + exists 0%nat. split; [lia|]. split; [|split].
      * intros [|fuel] Hf; [lia|]. simpl.
        destruct (Rlt_dec point gm); [contradiction|]. rewrite app_nil_r. reflexivity.
      * simpl. lra.
      * intros j Hj. lia.
Qed.

(** With a step that is not positive the loop never leaves a point below
    [gridMin]. *)
Lemma grid_loop_diverges (ix gm : R) :
  ix <= 0 ->
  forall fuel point points,
    point < gm ->
    EEE.grid_loop fuel (Some ix) (Some gm) point points = StillRunning.
Proof.
  intros Hix. induction fuel as [|fuel IH]; intros point points Hp; [reflexivity|].
  simpl. destruct (Rlt_dec point gm); [|contradiction].
  apply IH. lra.
Qed.

Lemma archimedean_steps (gm ix : R) : 0 < ix -> exists N, gm <= 0 + INR N * ix.
Proof.
  intros Hix. destruct (INR_unbounded (gm / ix)) as (N & HN).
  exists N. rewrite Rplus_0_l.
  apply Rmult_lt_compat_r with (r := ix) in HN; [|exact Hix].
  unfold Rdiv in HN. rewrite Rmult_assoc, Rinv_l, Rmult_1_r in HN by lra. lra.
Qed.

(** X1.  For [minval >= 0], [maxval > 0] and [size >= 1] the function
    returns, once given enough loop passes, a non-empty strictly increasing
    grid of positive points that overshoots: its last point is at least
    [10 * maxval], and every earlier point is below [10 * maxval]. *)
Theorem EEE_grid_overshoots (minval maxval : R) (size : nat) :
  0 <= minval -> 0 < maxval -> (1 <= size)%nat ->
  exists fuel0 new_a_grid,
    (forall fuel, (fuel0 <= fuel)%nat ->
       EEE.set_up_improved_EEE_a_grid fuel minval maxval size = Returns new_a_grid) /\
    new_a_grid <> [] /\
    strictly_increasing new_a_grid /\
    Forall (fun a => 0 < a) new_a_grid /\
    10 * maxval <= last new_a_grid 0 /\
    Forall (fun a => a < 10 * maxval) (removelast new_a_grid).
Proof.
  intros Hmin Hmax Hsize.
  destruct (nested_log3_pos (0.01 * minval)) as (lmin & Emin & Hlmin); [lra|].
  destruct (nested_log3_pos (10 * maxval)) as (gm & Emax & _); [lra|].
  destruct (nested_log3_inv _ _ Emax) as (Ugm & Pgm & _).
  specialize (Pgm ltac:(lra)).
  assert (Hs : 0 < INR size) by (apply lt_0_INR; lia).
  set (ix := lmin + (gm - lmin) / INR size).
  assert (Hix : 0 < ix).
  { unfold ix.
    assert (Hq : 1 <= INR size) by (change 1 with (INR 1); apply le_INR; lia).
    assert (E : lmin + (gm - lmin) / INR size
                = (lmin * (INR size - 1) + gm) / INR size) by (field; lra).
    rewrite E. apply Rdiv_lt_0_compat; [|exact Hs]. nra. }
  destruct (archimedean_steps gm ix Hix) as (N & HN).
  destruct (grid_loop_runs ix gm Hix N 0 [] HN) as (k & _ & Hrun & Hup & Hlow).
  assert (Hk : (1 <= k)%nat).
  { destruct k; [simpl in Hup; lra | lia]. }
  set (pts := map (fun j => 0 + INR j * ix) (seq 1 k)).
  exists (S k), (map EEE.unnest3 pts).
  assert (Hlen : length pts = k) by (unfold pts; rewrite length_map, length_seq; reflexivity).
  assert (Hnth : forall i, (i < k)%nat -> nth i pts 0 = INR (S i) * ix).
  { intros i Hi. unfold pts. rewrite nth_map_seq by exact Hi. ring. }
  assert (Hnth' : forall i, (i < k)%nat ->
             nth i (map EEE.unnest3 pts) 0 = EEE.unnest3 (INR (S i) * ix)).
  { intros i Hi. rewrite (nth_map_any EEE.unnest3 pts 0 0) by (rewrite Hlen; exact Hi).
    rewrite Hnth by exact Hi. reflexivity. }
  split; [|split; [|split; [|split; [|split]]]].
  - intros fuel Hf. unfold EEE.set_up_improved_EEE_a_grid.
    rewrite Emin, Emax. cbn [bind]. unfold float_div.
    destruct (Req_dec_T (INR size) 0); [lra|]. cbn [bind]. fold ix.
    rewrite Hrun by lia. reflexivity.
  - intros E. apply (f_equal (@length R)) in E.
    rewrite length_map, Hlen in E. simpl in E. lia.
  - apply strictly_increasing_nth. rewrite length_map, Hlen. intros i Hi.
    rewrite !Hnth' by lia. apply unnest3_lt. rewrite (S_INR (S i)). lra.
  - apply Forall_forall. intros a Ha.
    destruct (In_nth _ _ 0 Ha) as (i & Hi & <-). rewrite length_map, Hlen in Hi.
    rewrite Hnth' by exact Hi. apply unnest3_pos.
    apply Rmult_lt_0_compat; [apply lt_0_INR; lia | exact Hix].
  - rewrite last_nth_pred, length_map, Hlen, Hnth' by lia.
    replace (S (k - 1)) with k by lia.
    rewrite <- Ugm. apply unnest3_le. lra.
  - apply Forall_forall. intros a Ha.
    destruct (In_nth _ _ 0 Ha) as (i & Hi & <-).
    assert (Hrl : length (removelast (map EEE.unnest3 pts)) = (k - 1)%nat).
    { rewrite removelast_firstn_len, length_firstn, length_map, Hlen. lia. }
    rewrite Hrl in Hi.
    rewrite removelast_firstn_len, length_map, Hlen.
    rewrite nth_firstn. destruct (Nat.ltb_spec i (Nat.pred k)); [|lia].
    rewrite Hnth' by lia. rewrite <- Ugm. apply unnest3_lt.
    specialize (Hlow (S i) ltac:(lia)). lra.
Qed.

Lemma EEE_grid_overshoots_witness :
  0 <= 0 /\ 0 < 4 /\ (1 <= 20)%nat /\
  exists fuel0 new_a_grid,
    (forall fuel, (fuel0 <= fuel)%nat ->
       EEE.set_up_improved_EEE_a_grid fuel 0 4 20 = Returns new_a_grid) /\
    new_a_grid <> [] /\
    strictly_increasing new_a_grid /\
    Forall (fun a => 0 < a) new_a_grid /\
    10 * 4 <= last new_a_grid 0 /\
    Forall (fun a => a < 10 * 4) (removelast new_a_grid).
Proof.
  assert (H0 : 0 <= 0) by lra. assert (H4 : 0 < 4) by lra.
  assert (H20 : (1 <= 20)%nat) by lia.
  split; [exact H0|]. split; [exact H4|]. split; [exact H20|].
  exact (EEE_grid_overshoots 0 4 20 H0 H4 H20).
Defined.

Lemma nested_log3_zero : EEE.nested_log3 0 = Some 0.
Proof.
  rewrite <- (nested_log3_unnest3 0) at 1. f_equal.
  unfold EEE.unnest3. rewrite exp_0, Rminus_diag, exp_0, Rminus_diag, exp_0. ring.
Qed.

(** X2.  With [minval = 0], [maxval > 0] and [size >= 1] the step is
    [gridMin / size]: the function returns a grid of at least [size] points
    whose first [size] points are the images of the equally spaced points
    [j * gridMin / size], [j = 1 .. size], so that the point of index
    [size - 1] is [10 * maxval]. *)
Theorem EEE_grid_from_zero (maxval : R) (size : nat) :
  0 < maxval -> (1 <= size)%nat ->
  exists gridMin fuel0 new_a_grid,
    EEE.nested_log3 (10 * maxval) = Some gridMin /\
    (forall fuel, (fuel0 <= fuel)%nat ->
       EEE.set_up_improved_EEE_a_grid fuel 0 maxval size = Returns new_a_grid) /\
    (size <= length new_a_grid)%nat /\
    (forall j, (j < size)%nat ->
       nth j new_a_grid 0 = EEE.unnest3 (INR (S j) * (gridMin / INR size))) /\
    nth (size - 1) new_a_grid 0 = 10 * maxval.
Proof.
  intros Hmax Hsize.
  destruct (nested_log3_pos (10 * maxval)) as (gm & Emax & _); [lra|].
  destruct (nested_log3_inv _ _ Emax) as (Ugm & Pgm & _).
  specialize (Pgm ltac:(lra)).
  assert (Hs : 0 < INR size) by (apply lt_0_INR; lia).
  set (ix := gm / INR size).
  assert (Hix : 0 < ix) by (apply Rdiv_lt_0_compat; assumption).
  assert (Hgm : INR size * ix = gm) by (unfold ix; field; lra).
  destruct (grid_loop_runs ix gm Hix size 0 []) as (k & Hk & Hrun & Hup & Hlow);
    [lra|].
  assert (Ek : (size <= k)%nat).
  { destruct (Nat.le_gt_cases size k) as [|Hlt']; [assumption|]. exfalso.
    assert (Hlt : INR k < INR size) by (apply lt_INR; lia).
    assert (INR k * ix < INR size * ix) by (apply Rmult_lt_compat_r; assumption).
    lra. }
  assert (Hnth : forall j, (j < size)%nat ->
            nth j (map (fun j => EEE.unnest3 (INR j * ix)) (seq 1 k)) 0
            = EEE.unnest3 (INR (S j) * ix)).
  { intros j Hj. rewrite nth_map_seq by lia. reflexivity. }
  exists gm, (S k), (map (fun j => EEE.unnest3 (INR j * ix)) (seq 1 k)).
  split; [exact Emax|]. split; [|split; [|split]].
  - intros fuel Hf. unfold EEE.set_up_improved_EEE_a_grid.
    replace (0.01 * 0) with 0 by lra.
    rewrite nested_log3_zero, Emax. cbn [bind]. unfold float_div.
    destruct (Req_dec_T (INR size) 0); [lra|]. cbn [bind].
    replace (0 + (gm - 0) / INR size) with ix by (unfold ix; field; lra).
    rewrite Hrun by lia. cbn [app]. rewrite map_map. f_equal.
    apply map_ext. intros j. f_equal. ring.
  - rewrite length_map, length_seq. exact Ek.
  - exact Hnth.
  - rewrite Hnth by lia. replace (S (size - 1)) with size by lia.
    rewrite Hgm. exact Ugm.
Qed.

Lemma EEE_grid_from_zero_witness :
  0 < 4 /\ (1 <= 20)%nat /\
  exists gridMin fuel0 new_a_grid,
    EEE.nested_log3 (10 * 4) = Some gridMin /\
    (forall fuel, (fuel0 <= fuel)%nat ->
       EEE.set_up_improved_EEE_a_grid fuel 0 4 20 = Returns new_a_grid) /\
    (20 <= length new_a_grid)%nat /\
    (forall j, (j < 20)%nat ->
       nth j new_a_grid 0 = EEE.unnest3 (INR (S j) * (gridMin / INR 20))) /\
    nth (20 - 1) new_a_grid 0 = 10 * 4.
Proof.
  assert (H4 : 0 < 4) by lra. assert (H20 : (1 <= 20)%nat) by lia.
  split; [exact H4|]. split; [exact H20|].
  exact (EEE_grid_from_zero 4 20 H4 H20).
Defined.

(** X3.  When the computed step [index] is not positive while [gridMin] is
    positive, the loop never reaches [gridMin]: whatever the number of
    passes allowed, the function has not returned. *)
Theorem EEE_grid_no_progress (minval maxval : R) (size : nat) (lmin gridMin : R) :
  EEE.nested_log3 (0.01 * minval) = Some lmin ->
  EEE.nested_log3 (10 * maxval) = Some gridMin ->
  (1 <= size)%nat ->
  0 < gridMin ->
  lmin + (gridMin - lmin) / INR size <= 0 ->
  forall fuel, EEE.set_up_improved_EEE_a_grid fuel minval maxval size = StillRunning.
Proof.
  intros Emin Emax Hsize Hgm Hix fuel.
  assert (Hs : 0 < INR size) by (apply lt_0_INR; lia).
  unfold EEE.set_up_improved_EEE_a_grid.
  rewrite Emin, Emax. cbn [bind]. unfold float_div.
  destruct (Req_dec_T (INR size) 0); [lra|]. cbn [bind].
  rewrite grid_loop_diverges by assumption. reflexivity.
Qed.

Lemma EEE_grid_no_progress_witness :
  EEE.nested_log3 (0.01 * (100 * EEE.unnest3 (- 1))) = Some (- 1) /\
  EEE.nested_log3 (10 * (EEE.unnest3 1 / 10)) = Some 1 /\
  (1 <= 2)%nat /\ 0 < 1 /\ - 1 + (1 - - 1) / INR 2 <= 0 /\
  forall fuel,
    EEE.set_up_improved_EEE_a_grid fuel (100 * EEE.unnest3 (- 1))
      (EEE.unnest3 1 / 10) 2 = StillRunning.
Proof.
  assert (E1 : EEE.nested_log3 (0.01 * (100 * EEE.unnest3 (- 1))) = Some (- 1)).
  { replace (0.01 * (100 * EEE.unnest3 (- 1))) with (EEE.unnest3 (- 1)) by lra.
    apply nested_log3_unnest3. }
  assert (E2 : EEE.nested_log3 (10 * (EEE.unnest3 1 / 10)) = Some 1).
  { replace (10 * (EEE.unnest3 1 / 10)) with (EEE.unnest3 1) by lra.
    apply nested_log3_unnest3. }
  assert (H2 : (1 <= 2)%nat) by lia.
  assert (H1 : 0 < 1) by lra.
  assert (Hi : - 1 + (1 - - 1) / INR 2 <= 0) by (simpl; lra).
  split; [exact E1|]. split; [exact E2|]. split; [exact H2|]. split; [exact H1|].
  split; [exact Hi|].
  exact (EEE_grid_no_progress _ _ 2 (- 1) 1 E1 E2 H2 H1 Hi).
Defined.

(** X4.  For [maxval <= 0] the loop condition fails at once, whether
    [gridMin] is a non-positive number or not a number: the function returns
    the empty grid, for every [minval] and [size]. *)
Theorem EEE_grid_empty (minval maxval : R) (size fuel : nat) :
  maxval <= 0 ->
  EEE.set_up_improved_EEE_a_grid (S fuel) minval maxval size = Returns [].
Proof.
  intros Hmax. unfold EEE.set_up_improved_EEE_a_grid.
  destruct (EEE.nested_log3 (10 * maxval)) as [gm|] eqn:E.
  - destruct (nested_log3_inv _ _ E) as (_ & _ & Hneg).
    specialize (Hneg ltac:(lra)).
    cbn [EEE.grid_loop]. destruct (Rlt_dec 0 gm); [lra | reflexivity].
  - reflexivity.
Qed.

Lemma EEE_grid_empty_witness :
  0 <= 0 /\ EEE.set_up_improved_EEE_a_grid 1 1 0 5 = Returns [].
Proof.
  split; [lra|]. apply (EEE_grid_empty 1 0 5 0). lra.
Defined.

(** ** More on the multi-exponential grid *)

Lemma np_log_unnest (z : R) : np_log (Grids.unnest z + 1) = Some z.
Proof.
  unfold np_log, Grids.unnest.
  replace (exp z - 1 + 1) with (exp z) by ring.
  destruct (Rlt_dec 0 (exp z)) as [_|N]; [|exfalso; apply N, exp_pos].
  rewrite ln_exp. reflexivity.
Qed.

Lemma nest_log_unnest (n : nat) (y : R) :
  Grids.nest_log n (Nat.iter n Grids.unnest y) = Some y.
Proof.
  induction n as [|n IH]; [reflexivity|].
  cbn [Grids.nest_log]. change (Nat.iter (S n) Grids.unnest y)
    with (Grids.unnest (Nat.iter n Grids.unnest y)).
  rewrite np_log_unnest. cbn [bind]. exact IH.
Qed.

(** X5.  The grid of [setup_grids_expMult] is equally spaced after twenty
    nested [log(1 + .)]: nesting the [i]-th grid point gives the fraction
    [(i + 1) / size] of the nested [maxval]. *)
Theorem setup_grids_expMult_nested_spacing (minval maxval : R) (size : nat) :
  0 < maxval -> (1 <= size)%nat ->
  exists gMaxNested a_grid,
    Grids.nest_log 20 maxval = Some gMaxNested /\
    Grids.setup_grids_expMult minval maxval size = Some a_grid /\
    forall i, (i < size)%nat ->
      Grids.nest_log 20 (nth i a_grid 0)
      = Some (gMaxNested * (INR (i + 1) / INR size)).
Proof.
  intros Hmax Hsize.
  destruct (setup_grids_spec minval maxval size 20 Hmax Hsize)
    as (g & a_grid & Eg & _ & _ & E & _ & N); [lia|].
  exists g, a_grid. split; [exact Eg|]. split; [exact E|].
  intros i Hi. rewrite N by exact Hi. apply nest_log_unnest.
Qed.

Lemma setup_grids_expMult_nested_spacing_witness :
  0 < 4 /\ (1 <= 40)%nat /\
  exists gMaxNested a_grid,
    Grids.nest_log 20 4 = Some gMaxNested /\
    Grids.setup_grids_expMult 0 4 40 = Some a_grid /\
    forall i, (i < 40)%nat ->
      Grids.nest_log 20 (nth i a_grid 0)
      = Some (gMaxNested * (INR (i + 1) / INR 40)).
Proof.
  assert (H4 : 0 < 4) by lra. assert (H40 : (1 <= 40)%nat) by lia.
  split; [exact H4|]. split; [exact H40|].
  exact (setup_grids_expMult_nested_spacing 0 4 40 H4 H40).
Defined.

(** X6.  With [size = 0] and [maxval > 0] the outer loop is empty and the
    function returns the empty grid. *)
Theorem setup_grids_expMult_size_zero (minval maxval : R) :
  0 < maxval -> Grids.setup_grids_expMult minval maxval 0 = Some [].
Proof.
  intros Hmax.
  destruct (nest_log_inverse 20 maxval Hmax) as (g & E & _).
  unfold Grids.setup_grids_expMult, Grids.setup_grids_expMult_n.
  rewrite E. reflexivity.
Qed.

Lemma setup_grids_expMult_size_zero_witness :
  0 < 4 /\ Grids.setup_grids_expMult 0 4 0 = Some [].
Proof.
  assert (H4 : 0 < 4) by lra.
  split; [exact H4|]. exact (setup_grids_expMult_size_zero 0 4 H4).
Defined.

Lemma nest_log_zero (n : nat) : Grids.nest_log n 0 = Some 0.
Proof.
  induction n as [|n IH]; [reflexivity|].
  cbn [Grids.nest_log]. unfold np_log.
  destruct (Rlt_dec 0 (0 + 1)) as [_|N]; [|lra].
  cbn [bind]. rewrite Rplus_0_l, ln_1. exact IH.
Qed.

Lemma iter_unnest_zero (n : nat) : Nat.iter n Grids.unnest 0 = 0.
Proof.
  induction n as [|n IH]; [reflexivity|].
  change (Grids.unnest (Nat.iter n Grids.unnest 0) = 0). rewrite IH.
  unfold Grids.unnest. rewrite exp_0. ring.
Qed.

(** X7.  With [maxval = 0] every nested logarithm and every step is zero:
    the function returns [size] points that are all [0], a grid that is not
    strictly increasing as soon as [size >= 2]. *)
Theorem setup_grids_expMult_maxval_zero (minval : R) (size : nat) :
  Grids.setup_grids_expMult minval 0 size = Some (repeat 0 size).
Proof.
  unfold Grids.setup_grids_expMult, Grids.setup_grids_expMult_n.
  rewrite nest_log_zero. cbn [bind].
  unfold Py.range. replace (size + 1 - 1)%nat with size by lia.
  destruct (fill_loop size 20 (0 / INR size) size 1 0 (repeat 0 size))
    as (pts & E & L & N); [lia | lia | apply repeat_length |].
  rewrite E. cbn [bind]. f_equal.
  apply (nth_ext _ _ 0 0); [rewrite L, repeat_length; reflexivity|].
  intros i Hi. rewrite L in Hi. rewrite N.
  assert (Hr : nth i (repeat 0 size) 0 = 0).
  { destruct (nth_in_or_default i (repeat 0 size) 0) as [Hin|Hd]; [|exact Hd].
    apply repeat_spec in Hin. exact Hin. }
  rewrite Hr.
  destruct ((size + 1 <=? i + (1 + size))%nat && (i + 1 <=? size)%nat)%bool;
    [|reflexivity].
  replace (0 - INR (size - i - 1) * (0 / INR size)) with 0
    by (unfold Rdiv; ring).
  rewrite cell_iter by lia. apply iter_unnest_zero.
Qed.

(** ** More on the portfolio engine *)

Lemma sum_over_pos_all (d : DiscreteApproximation) (f : DiscreteNode -> R) :
  d <> [] -> (forall n, In n d -> 0 < f n) -> 0 < Expect.sum_over d f.
Proof.
  induction d as [|n d IH]; intros Hne H; [contradiction|]. simpl.
  assert (0 < f n) by (apply H; left; reflexivity).
  destruct d as [|n' d'].
  - simpl. lra.
  - assert (0 < Expect.sum_over (n' :: d') f).
    { apply IH; [discriminate|]. intros; apply H; right; assumption. }
    lra.
Qed.

Lemma sum_over_opp (d : DiscreteApproximation) (f : DiscreteNode -> R) :
  Expect.sum_over d (fun n => - f n) = - Expect.sum_over d f.
Proof. induction d as [|n d IH]; simpl; [lra | rewrite IH; lra]. Qed.

Lemma sum_over_scal (d : DiscreteApproximation) (f : DiscreteNode -> R) (c : R) :
  Expect.sum_over d (fun n => c * f n) = c * Expect.sum_over d f.
Proof. induction d as [|n d IH]; simpl; [lra | rewrite IH; lra]. Qed.

Lemma sum_over_ext_in (d : DiscreteApproximation) (f h : DiscreteNode -> R) :
  (forall n, In n d -> f n = h n) -> Expect.sum_over d f = Expect.sum_over d h.
Proof.
  induction d as [|n d IH]; intros H; simpl; [reflexivity|].
  rewrite (H n) by (left; reflexivity).
  rewrite IH by (intros; apply H; right; assumption). reflexivity.
Qed.

(** The joint expectation of a positive integrand is positive when both
    marginals are non-empty with positive probabilities. *)
Lemma E_pos (D : DiscreteApproximationTwoIndependentDistribs) (f : R -> R -> R) :
  X1 D <> [] -> X2 D <> [] ->
  (forall n, In n (X1 D) -> 0 < probability n) ->
  (forall n, In n (X2 D) -> 0 < probability n) ->
  (forall n1 n2, In n1 (X1 D) -> In n2 (X2 D) -> 0 < f (value n1) (value n2)) ->
  0 < Expect.E D f.
Proof.
  intros H1 H2 P1 P2 Hf. unfold Expect.E.
  apply sum_over_pos_all; [exact H1|]. intros n1 Hn1.
  apply sum_over_pos_all; [exact H2|]. intros n2 Hn2.
  apply Rmult_lt_0_compat; [apply Rmult_lt_0_compat|]; auto.
Qed.

Lemma E_opp (D : DiscreteApproximationTwoIndependentDistribs) (f : R -> R -> R) :
  Expect.E D (fun x y => - f x y) = - Expect.E D f.
Proof.
  unfold Expect.E. rewrite <- sum_over_opp. apply sum_over_ext. intros n1.
  rewrite <- sum_over_opp. apply sum_over_ext. intros n2. ring.
Qed.

(** An integrand that ignores the second shock is integrated over the
    first one, times the mass of the second. *)
Lemma E_first (D : DiscreteApproximationTwoIndependentDistribs) (k : R -> R) :
  Expect.E D (fun x _ => k x)
  = Expect.sum_over (X1 D) (fun n => probability n * k (value n))
    * Expect.sum_over (X2 D) probability.
Proof.
  unfold Expect.E.
  transitivity (Expect.sum_over (X1 D)
                  (fun n => Expect.sum_over (X2 D) probability
                            * (probability n * k (value n)))).
  - apply sum_over_ext. intros n1.
    rewrite (sum_over_ext (X2 D) _
               (fun n2 => (probability n1 * k (value n1)) * probability n2))
      by (intros n2; ring).
    rewrite sum_over_scal. ring.
  - rewrite sum_over_scal. ring.
Qed.

Lemma list_last_map {A B : Type} (f : A -> B) (l : list A) :
  Py.list_last (map f l) = option_map f (Py.list_last l).
Proof.
  induction l as [|x [|y t] IH]; try reflexivity.
  change (Py.list_last (map f (y :: t)) = option_map f (Py.list_last (y :: t))).
  exact IH.
Qed.

Lemma list_get_map {A B : Type} (f : A -> B) (l : list A) (i : nat) :
  Py.list_get (map f l) i = option_map f (Py.list_get l i).
Proof. unfold Py.list_get. apply nth_error_map. Qed.

Lemma argwhere_hd (l : list bool) : forall i0 idx,
  hd_error (GothicMC.argwhere_from i0 l) = Some idx ->
  exists j, idx = (i0 + j)%nat /\ nth_error l j = Some true.
Proof.
  induction l as [|b l IH]; intros i0 idx H; [discriminate|].
  cbn [GothicMC.argwhere_from] in H. destruct b.
  - injection H as <-. exists 0%nat. split; [lia | reflexivity].
  - cbn [app] in H. destruct (IH _ _ H) as (j & -> & Hj).
    exists (S j). split; [lia | exact Hj].
Qed.

Lemma crossing_nth (FOC_s : list GothicMC.npfloat) : forall j,
  nth_error (GothicMC.crossing FOC_s) j = Some true ->
  exists bf tf,
    nth_error FOC_s j = Some bf /\ nth_error FOC_s (S j) = Some tf /\
    GothicMC.ge0 bf = true /\ GothicMC.le0 tf = true.
Proof.
  induction FOC_s as [|f0 rest IH]; intros j H.
  - destruct j; discriminate.
  - destruct rest as [|f1 rest]; [destruct j; discriminate|].
    rewrite crossing_cons in H. destruct j as [|j].
    + cbn [nth_error] in H. injection H as H.
      apply andb_true_iff in H. destruct H as [Hle Hge].
      exists f0, f1. auto.
    + cbn [nth_error] in H. destruct (IH _ H) as (bf & tf & H1 & H2 & H3 & H4).
      exists bf, tf. auto.
Qed.

(** The three ways out of [find_share] for [a >= 0], read backwards. *)
Lemma find_share_cases (a : R) (share_girds : list R)
    (FOC_s : list GothicMC.npfloat) (s : R) :
  0 <= a -> GothicMC.find_share a share_girds FOC_s = Some s ->
  (exists l, Py.list_last FOC_s = Some l /\ GothicMC.gt0 l = true /\ s = 1) \/
  (exists f, Py.list_get FOC_s 0 = Some f /\ GothicMC.lt0 f = true /\ s = 0) \/
  (exists idx bs ts bf tf,
     Py.list_get share_girds idx = Some bs /\
     Py.list_get share_girds (idx + 1) = Some ts /\
     Py.list_get FOC_s idx = Some bf /\
     Py.list_get FOC_s (idx + 1) = Some tf /\
     GothicMC.ge0 bf = true /\ GothicMC.le0 tf = true /\
     GothicMC.interpolate bs ts bf tf = Some s).
Proof.
  intros Ha. unfold GothicMC.find_share.
  destruct (Rlt_dec a 0); [lra|]. intros H.
  apply bind_some in H. destruct H as (l & El & H).
  destruct (GothicMC.gt0 l) eqn:Egt.
  { injection H as <-. left. eauto. }
  apply bind_some in H. destruct H as (f & Ef & H).
  destruct (GothicMC.lt0 f) eqn:Elt.
  { injection H as <-. right. left. eauto. }
  apply bind_some in H. destruct H as (idx & Ei & H).
  apply bind_some in H. destruct H as (bs & Ebs & H).
  apply bind_some in H. destruct H as (ts & Ets & H).
  apply bind_some in H. destruct H as (bf & Ebf & H).
  apply bind_some in H. destruct H as (tf & Etf & H).
  right. right. exists idx, bs, ts, bf, tf.
  unfold GothicMC.argwhere in Ei. apply argwhere_hd in Ei.
  destruct Ei as (j & -> & Hj). cbn [Nat.add] in *.
  apply crossing_nth in Hj. destruct Hj as (bf' & tf' & H1 & H2 & H3 & H4).
  unfold Py.list_get in *. replace (j + 1)%nat with (S j) in * by lia.
  rewrite H1 in Ebf. rewrite H2 in Etf. injection Ebf as <-. injection Etf as <-.
  auto 10.
Qed.

Lemma interpolate_root (bs ts b t s : R) :
  GothicMC.interpolate bs ts (GothicMC.Fin b) (GothicMC.Fin t) = Some s ->
  b <> t /\ (ts - s) * b + (s - bs) * t = 0.
Proof.
  unfold GothicMC.interpolate, float_div.
  destruct (Req_dec_T (t - b) 0) as [|Hne]; [discriminate|].
  cbn [bind]. intros H; injection H as <-. split; [lra|]. field. exact Hne.
Qed.

Section ShareCorners.

Import GothicMC.

Variable g : engine.
Variable a : R.
Hypothesis a_pos : 0 < a.
Hypothesis beta_pos : 0 < beta g.
Hypothesis Gamma_pos : 0 < Gamma_last g.
Hypothesis Rfree_pos : 0 < Rfree g.
Hypothesis income_nonempty : X1 (Distribution g) <> [].
Hypothesis return_nonempty : X2 (Distribution g) <> [].
Hypothesis income_pos :
  forall n, In n (X1 (Distribution g)) -> 0 < value n /\ 0 < probability n.
Hypothesis return_prob :
  forall n, In n (X2 (Distribution g)) -> 0 < value n /\ 0 < probability n.

(** The integrand of the share's marginal value, for a marginal utility
    [h] of next period's resources that is positive on positive
    resources. *)
Variable h : R -> R.
Hypothesis h_pos : forall x, 0 < x -> 0 < h x.

Lemma resources_pos s n1 n2 :
  0 <= s <= 1 -> In n1 (X1 (Distribution g)) -> In n2 (X2 (Distribution g)) ->
  0 < (Rfree g + (value n2 - Rfree g) * s) * a / Gamma_last g + value n1.
Proof.
  intros Hs H1 H2.
  destruct (income_pos n1 H1) as [Hv1 _]. destruct (return_prob n2 H2) as [Hv2 _].
  assert (Hk : 0 < Rfree g + (value n2 - Rfree g) * s) by nra.
  assert (0 < (Rfree g + (value n2 - Rfree g) * s) * a / Gamma_last g).
  { apply Rdiv_lt_0_compat; [apply Rmult_lt_0_compat|]; assumption. }
  lra.
Qed.

Lemma share_value_pos s :
  0 <= s <= 1 ->
  (forall n, In n (X2 (Distribution g)) -> Rfree g < value n) ->
  0 < beta g * a / Gamma_last g
      * Expect.E (Distribution g) (fun tinc_shk rreturn =>
          (rreturn - Rfree g)
          * h ((Rfree g + (rreturn - Rfree g) * s) * a / Gamma_last g + tinc_shk)).
Proof.
  intros Hs Hr. apply Rmult_lt_0_compat.
  - apply Rdiv_lt_0_compat; [apply Rmult_lt_0_compat|]; assumption.
  - apply E_pos; auto.
    + intros n Hn. apply income_pos; exact Hn.
    + intros n Hn. apply return_prob; exact Hn.
    + intros n1 n2 H1 H2. apply Rmult_lt_0_compat.
      * specialize (Hr n2 H2). lra.
      * apply h_pos, resources_pos; assumption.
Qed.

Lemma share_value_neg s :
  0 <= s <= 1 ->
  (forall n, In n (X2 (Distribution g)) -> value n < Rfree g) ->
  beta g * a / Gamma_last g
  * Expect.E (Distribution g) (fun tinc_shk rreturn =>
      (rreturn - Rfree g)
      * h ((Rfree g + (rreturn - Rfree g) * s) * a / Gamma_last g + tinc_shk)) < 0.
Proof.
  intros Hs Hr.
  assert (Hk : 0 < beta g * a / Gamma_last g).
  { apply Rdiv_lt_0_compat; [apply Rmult_lt_0_compat|]; assumption. }
  assert (HE : 0 < Expect.E (Distribution g) (fun tinc_shk rreturn =>
            - ((rreturn - Rfree g)
               * h ((Rfree g + (rreturn - Rfree g) * s) * a / Gamma_last g
                    + tinc_shk)))).
  { apply E_pos; auto.
    + intros n Hn. apply income_pos; exact Hn.
    + intros n Hn. apply return_prob; exact Hn.
    + intros n1 n2 H1 H2.
      assert (0 < h ((Rfree g + (value n2 - Rfree g) * s) * a / Gamma_last g
                     + value n1)) by (apply h_pos, resources_pos; assumption).
      specialize (Hr n2 H2). nra. }
  rewrite E_opp in HE. nra.
Qed.

End ShareCorners.

Lemma find_share_corner_one a share_girds FOC_s l :
  0 <= a -> Py.list_last FOC_s = Some l -> GothicMC.gt0 l = true ->
  GothicMC.find_share a share_girds FOC_s = Some 1.
Proof.
  intros Ha El Hgt. unfold GothicMC.find_share.
  destruct (Rlt_dec a 0); [lra|]. rewrite El. cbn [bind]. rewrite Hgt. reflexivity.
Qed.

Lemma find_share_corner_zero a share_girds FOC_s l f :
  0 <= a -> Py.list_last FOC_s = Some l -> GothicMC.gt0 l = false ->
  Py.list_get FOC_s 0 = Some f -> GothicMC.lt0 f = true ->
  GothicMC.find_share a share_girds FOC_s = Some 0.
Proof.
  intros Ha El Hgt Ef Hlt. unfold GothicMC.find_share.
  destruct (Rlt_dec a 0); [lra|]. rewrite El. cbn [bind]. rewrite Hgt, Ef.
  cbn [bind]. rewrite Hlt. reflexivity.
Qed.

Lemma grids_last (g : GothicMC.engine) :
  (1 <= GothicMC.share_grid_size g)%nat ->
  exists s0 sl,
    Py.list_get (GothicMC.varsigma_grids g) 0 = Some s0 /\
    Py.list_last (GothicMC.varsigma_grids g) = Some sl /\
    0 <= s0 <= 1 /\ 0 <= sl <= 1.
Proof.
  intros Hn.
  pose proof (np_linspace01_length (GothicMC.share_grid_size g)) as HL.
  pose proof (np_linspace01_range (GothicMC.share_grid_size g)) as HR.
  unfold GothicMC.varsigma_grids. rewrite Forall_forall in HR.
  destruct (list_get_lt (np_linspace01 (GothicMC.share_grid_size g)) 0) as (s0 & E0);
    [lia|].
  destruct (list_last_some (np_linspace01 (GothicMC.share_grid_size g)))
    as (sl & El & Hin).
  { intros E. rewrite E in HL. simpl in HL. lia. }
  exists s0, sl. repeat split; auto; try (apply HR; eauto using list_get_in).
Qed.

(** X8.  When every risky return exceeds the riskless return, the marginal
    value of the share is positive at [share = 1] and both share solvers
    return exactly [1] for positive assets (positive discount factor,
    growth factor and riskless return, positive income values, positive
    probabilities, marginal utility and next-period consumption positive on
    positive arguments, a non-empty share grid). *)
Theorem share_one_when_risky_dominates
    (g : GothicMC.engine) (a : R) (c_prime : R -> R) :
  0 < a -> 0 < GothicMC.beta g -> 0 < GothicMC.Gamma_last g ->
  0 < GothicMC.Rfree g -> (1 <= GothicMC.share_grid_size g)%nat ->
  X1 (GothicMC.Distribution g) <> [] -> X2 (GothicMC.Distribution g) <> [] ->
  (forall n, In n (X1 (GothicMC.Distribution g)) ->
     0 < value n /\ 0 < probability n) ->
  (forall n, In n (X2 (GothicMC.Distribution g)) ->
     GothicMC.Rfree g < value n /\ 0 < probability n) ->
  (forall x, 0 < x -> 0 < GothicMC.u_prime g x) ->
  (forall x, 0 < x -> 0 < c_prime x) ->
  GothicMC.varsigma_Tminus1 g a = Some 1 /\
  GothicMC.varsigma_t g a c_prime = Some 1.
Proof.
  intros Ha Hb HG HR Hn H1 H2 P1 P2 Hu Hc.
  destruct (grids_last g Hn) as (s0 & sl & _ & El & _ & Hsl).
  assert (P2' : forall n, In n (X2 (GothicMC.Distribution g)) ->
                  0 < value n /\ 0 < probability n).
  { intros n Hin. destruct (P2 n Hin). split; lra. }
  assert (Hr : forall n, In n (X2 (GothicMC.Distribution g)) ->
                 GothicMC.Rfree g < value n) by (intros n Hin; apply P2; exact Hin).
  split.
  - unfold GothicMC.varsigma_Tminus1.
    eapply find_share_corner_one; [lra | rewrite list_last_map, El; reflexivity |].
    unfold GothicMC.Vsigma_Tminus1. destruct (Req_dec_T a 0); [lra|].
    cbn [GothicMC.gt0].
    pose proof (share_value_pos g a Ha Hb HG HR H1 H2 P1 P2'
                  (GothicMC.u_prime g) Hu sl Hsl Hr) as Hpos.
    destruct (Rlt_dec 0 _); [reflexivity | contradiction].
  - unfold GothicMC.varsigma_t.
    eapply find_share_corner_one; [lra | rewrite list_last_map, El; reflexivity |].
    unfold GothicMC.Vsigma_t. destruct (Req_dec_T a 0); [lra|].
    cbn [GothicMC.gt0].
    pose proof (share_value_pos g a Ha Hb HG HR H1 H2 P1 P2'
                  (fun x => GothicMC.u_prime g (c_prime x))
                  (fun x Hx => Hu _ (Hc x Hx)) sl Hsl Hr) as Hpos.
    destruct (Rlt_dec 0 _); [reflexivity | contradiction].
Qed.

(** X9.  When every risky return is positive but below the riskless return,
    the marginal value of the share is negative at every share, and both
    share solvers return exactly [0] for positive assets (same standing
    assumptions as for the other corner). *)
Theorem share_zero_when_riskless_dominates
    (g : GothicMC.engine) (a : R) (c_prime : R -> R) :
  0 < a -> 0 < GothicMC.beta g -> 0 < GothicMC.Gamma_last g ->
  0 < GothicMC.Rfree g -> (1 <= GothicMC.share_grid_size g)%nat ->
  X1 (GothicMC.Distribution g) <> [] -> X2 (GothicMC.Distribution g) <> [] ->
  (forall n, In n (X1 (GothicMC.Distribution g)) ->
     0 < value n /\ 0 < probability n) ->
  (forall n, In n (X2 (GothicMC.Distribution g)) ->
     0 < value n < GothicMC.Rfree g /\ 0 < probability n) ->
  (forall x, 0 < x -> 0 < GothicMC.u_prime g x) ->
  (forall x, 0 < x -> 0 < c_prime x) ->
  GothicMC.varsigma_Tminus1 g a = Some 0 /\
  GothicMC.varsigma_t g a c_prime = Some 0.
Proof.
  intros Ha Hb HG HR Hn H1 H2 P1 P2 Hu Hc.
  destruct (grids_last g Hn) as (s0 & sl & E0 & El & Hs0 & Hsl).
  assert (P2' : forall n, In n (X2 (GothicMC.Distribution g)) ->
                  0 < value n /\ 0 < probability n).
  { intros n Hin. destruct (P2 n Hin). split; lra. }
  assert (Hr : forall n, In n (X2 (GothicMC.Distribution g)) ->
                 value n < GothicMC.Rfree g).
  { intros n Hin. destruct (P2 n Hin). lra. }
  split.
  - unfold GothicMC.varsigma_Tminus1.
    eapply find_share_corner_zero;
      [lra | rewrite list_last_map, El; reflexivity |
       | rewrite list_get_map, E0; reflexivity | ];
      unfold GothicMC.Vsigma_Tminus1; (destruct (Req_dec_T a 0); [lra|]).
    + cbn [GothicMC.gt0].
      pose proof (share_value_neg g a Ha Hb HG HR H1 H2 P1 P2'
                    (GothicMC.u_prime g) Hu sl Hsl Hr) as Hneg.
      destruct (Rlt_dec 0 _); [lra | reflexivity].
    + cbn [GothicMC.lt0].
      pose proof (share_value_neg g a Ha Hb HG HR H1 H2 P1 P2'
                    (GothicMC.u_prime g) Hu s0 Hs0 Hr) as Hneg.
      destruct (Rlt_dec _ 0); [reflexivity | contradiction].
  - unfold GothicMC.varsigma_t.
    eapply find_share_corner_zero;
      [lra | rewrite list_last_map, El; reflexivity |
       | rewrite list_get_map, E0; reflexivity | ];
      unfold GothicMC.Vsigma_t; (destruct (Req_dec_T a 0); [lra|]).
    + cbn [GothicMC.gt0].
      pose proof (share_value_neg g a Ha Hb HG HR H1 H2 P1 P2'
                    (fun x => GothicMC.u_prime g (c_prime x))
                    (fun x Hx => Hu _ (Hc x Hx)) sl Hsl Hr) as Hneg.
      destruct (Rlt_dec 0 _); [lra | reflexivity].
    + cbn [GothicMC.lt0].
      pose proof (share_value_neg g a Ha Hb HG HR H1 H2 P1 P2'
                    (fun x => GothicMC.u_prime g (c_prime x))
                    (fun x Hx => Hu _ (Hc x Hx)) s0 Hs0 Hr) as Hneg.
      destruct (Rlt_dec _ 0); [reflexivity | contradiction].
Qed.

Ltac gmc_side :=
  first
    [ lra
    | simpl; lia
    | discriminate
    | intros ? [<-|[]]; simpl; split; lra
    | intros ? ?; apply Rinv_0_lt_compat; assumption
    | intros ? ?; assumption ].

Lemma share_one_when_risky_dominates_witness :
  0 < 1 /\
  GothicMC.varsigma_Tminus1 Examples.gmc_risky 1 = Some 1 /\
  GothicMC.varsigma_t Examples.gmc_risky 1 (fun m => m) = Some 1.
Proof.
  split; [lra|].
  apply (share_one_when_risky_dominates Examples.gmc_risky 1 (fun m => m));
    simpl; gmc_side.
Defined.

Lemma share_zero_when_riskless_dominates_witness :
  0 < 1 /\
  GothicMC.varsigma_Tminus1 (Examples.gmc (1 / 2)) 1 = Some 0 /\
  GothicMC.varsigma_t (Examples.gmc (1 / 2)) 1 (fun m => m) = Some 0.
Proof.
  split; [lra|].
  apply (share_zero_when_riskless_dominates (Examples.gmc (1 / 2)) 1 (fun m => m));
    simpl; gmc_side.
Defined.

(** X10.  What the share solvers return for positive assets is one of three
    things: [1], the marginal value of the share being positive at the last
    grid point; [0], it being negative at the first grid point; or the
    point between two adjacent grid shares, the first with a non-negative
    and the second with a non-positive marginal value, at which the straight
    line through these two values is zero. *)
Theorem share_is_corner_or_chord_root
    (g : GothicMC.engine) (a : R) (c_prime : R -> R) :
  0 < a ->
  (forall s, GothicMC.varsigma_Tminus1 g a = Some s ->
     (s = 1 /\ exists sl f,
        Py.list_last (GothicMC.varsigma_grids g) = Some sl /\
        GothicMC.Vsigma_Tminus1 g a sl = GothicMC.Fin f /\ 0 < f) \/
     (s = 0 /\ exists s0 f,
        Py.list_get (GothicMC.varsigma_grids g) 0 = Some s0 /\
        GothicMC.Vsigma_Tminus1 g a s0 = GothicMC.Fin f /\ f < 0) \/
     (exists idx bs ts b t,
        Py.list_get (GothicMC.varsigma_grids g) idx = Some bs /\
        Py.list_get (GothicMC.varsigma_grids g) (idx + 1) = Some ts /\
        GothicMC.Vsigma_Tminus1 g a bs = GothicMC.Fin b /\
        GothicMC.Vsigma_Tminus1 g a ts = GothicMC.Fin t /\
        0 <= b /\ t <= 0 /\ b <> t /\
        (ts - s) * b + (s - bs) * t = 0)) /\
  (forall s, GothicMC.varsigma_t g a c_prime = Some s ->
     (s = 1 /\ exists sl f,
        Py.list_last (GothicMC.varsigma_grids g) = Some sl /\
        GothicMC.Vsigma_t g a sl c_prime = GothicMC.Fin f /\ 0 < f) \/
     (s = 0 /\ exists s0 f,
        Py.list_get (GothicMC.varsigma_grids g) 0 = Some s0 /\
        GothicMC.Vsigma_t g a s0 c_prime = GothicMC.Fin f /\ f < 0) \/
     (exists idx bs ts b t,
        Py.list_get (GothicMC.varsigma_grids g) idx = Some bs /\
        Py.list_get (GothicMC.varsigma_grids g) (idx + 1) = Some ts /\
        GothicMC.Vsigma_t g a bs c_prime = GothicMC.Fin b /\
        GothicMC.Vsigma_t g a ts c_prime = GothicMC.Fin t /\
        0 <= b /\ t <= 0 /\ b <> t /\
        (ts - s) * b + (s - bs) * t = 0)).
Proof.
  intros Ha.
  assert (K : forall (F : R -> GothicMC.npfloat) (s : R),
            (forall x, exists v, F x = GothicMC.Fin v) ->
            GothicMC.find_share a (GothicMC.varsigma_grids g)
              (map F (GothicMC.varsigma_grids g)) = Some s ->
            (s = 1 /\ exists sl f,
               Py.list_last (GothicMC.varsigma_grids g) = Some sl /\
               F sl = GothicMC.Fin f /\ 0 < f) \/
            (s = 0 /\ exists s0 f,
               Py.list_get (GothicMC.varsigma_grids g) 0 = Some s0 /\
               F s0 = GothicMC.Fin f /\ f < 0) \/
            (exists idx bs ts b t,
               Py.list_get (GothicMC.varsigma_grids g) idx = Some bs /\
               Py.list_get (GothicMC.varsigma_grids g) (idx + 1) = Some ts /\
               F bs = GothicMC.Fin b /\ F ts = GothicMC.Fin t /\
               0 <= b /\ t <= 0 /\ b <> t /\
               (ts - s) * b + (s - bs) * t = 0)).
  { intros F s HF H.
    apply find_share_cases in H; [|lra].
    destruct H as [(l & El & Hgt & ->)|[(f & Ef & Hlt & ->)|
                   (idx & bs & ts & bf & tf & Ebs & Ets & Ebf & Etf & Hge & Hle & Hi)]].
    - left. split; [reflexivity|]. rewrite list_last_map in El.
      destruct (Py.list_last (GothicMC.varsigma_grids g)) as [sl|]; [|discriminate].
      injection El as <-. destruct (HF sl) as (v & Ev).
      exists sl, v. split; [reflexivity|]. split; [exact Ev|].
      rewrite Ev in Hgt. simpl in Hgt. destruct (Rlt_dec 0 v); [assumption | discriminate].
    - right. left. split; [reflexivity|]. rewrite list_get_map in Ef.
      destruct (Py.list_get (GothicMC.varsigma_grids g) 0) as [s0|]; [|discriminate].
      injection Ef as <-. destruct (HF s0) as (v & Ev).
      exists s0, v. split; [reflexivity|]. split; [exact Ev|].
      rewrite Ev in Hlt. simpl in Hlt. destruct (Rlt_dec v 0); [assumption | discriminate].
    - right. right. rewrite list_get_map, Ebs in Ebf. rewrite list_get_map, Ets in Etf.
      injection Ebf as <-. injection Etf as <-.
      destruct (HF bs) as (b & Eb). destruct (HF ts) as (t & Et).
      rewrite Eb, Et in Hi. apply interpolate_root in Hi. destruct Hi as [Hne Hroot].
      rewrite Eb in Hge. rewrite Et in Hle. simpl in Hge, Hle.
      destruct (Rle_dec 0 b); [|discriminate]. destruct (Rle_dec t 0); [|discriminate].
      exists idx, bs, ts, b, t. auto 10. }
  split; intros s H.
  - apply (K (fun x => GothicMC.Vsigma_Tminus1 g a x)); [|exact H].
    intros x. unfold GothicMC.Vsigma_Tminus1. destruct (Req_dec_T a 0); [lra | eauto].
  - apply (K (fun x => GothicMC.Vsigma_t g a x c_prime)); [|exact H].
    intros x. unfold GothicMC.Vsigma_t. destruct (Req_dec_T a 0); [lra | eauto].
Qed.

(** X11.  For negative assets, when the evaluations of the first-order
    condition are real-valued (every argument handed to [u.prime], while
    [FOC_s] is filled and in [Va_func], is positive), the share is [0] and
    the expected marginal value of assets no longer depends on the risky
    returns: when their probabilities sum to one it is
    [beta * Gamma_to_minusRho[-1]] times the expectation over the income
    shock alone of [R * u.prime(R * a / Gamma[-1] + theta)] (of
    [R * u.prime(c_prime(R * a / Gamma[-1] + theta))] before the last
    period). *)
Theorem Va_negative_assets_riskless
    (g : GothicMC.engine) (a : R) (c_prime : R -> R) :
  a < 0 ->
  Expect.sum_over (X2 (GothicMC.Distribution g)) probability = 1 ->
  (FOC_real_valued g a (fun m => m) ->
   (forall n, In n (X1 (GothicMC.Distribution g)) ->
      0 < GothicMC.Rfree g * a / GothicMC.Gamma_last g + value n) ->
   GothicMC.Va_Tminus1 g a
   = Some (GothicMC.beta g * GothicMC.Gamma_to_minusRho_last g
           * Expect.sum_over (X1 (GothicMC.Distribution g)) (fun n =>
               probability n
               * (GothicMC.Rfree g
                  * GothicMC.u_prime g
                      (GothicMC.Rfree g * a / GothicMC.Gamma_last g + value n))))) /\
  (FOC_real_valued g a c_prime ->
   (forall n, In n (X1 (GothicMC.Distribution g)) ->
      0 < c_prime (GothicMC.Rfree g * a / GothicMC.Gamma_last g + value n)) ->
   GothicMC.Va_t g a c_prime
   = Some (GothicMC.beta g * GothicMC.Gamma_to_minusRho_last g
           * Expect.sum_over (X1 (GothicMC.Distribution g)) (fun n =>
               probability n
               * (GothicMC.Rfree g
                  * GothicMC.u_prime g
                      (c_prime
                         (GothicMC.Rfree g * a / GothicMC.Gamma_last g + value n)))))).
Proof.
  intros Ha Hm.
  assert (E0 : GothicMC.varsigma_Tminus1 g a = Some 0 /\
               GothicMC.varsigma_t g a c_prime = Some 0).
  { unfold GothicMC.varsigma_Tminus1, GothicMC.varsigma_t, GothicMC.find_share.
    destruct (Rlt_dec a 0); [auto | contradiction]. }
  destruct E0 as [E1 E2]. split; intros _ _.
  - unfold GothicMC.Va_Tminus1. rewrite E1. cbn [bind]. do 2 f_equal.
    rewrite (E_ext _ _ (fun x _ =>
               GothicMC.Rfree g
               * GothicMC.u_prime g (GothicMC.Rfree g * a / GothicMC.Gamma_last g + x))).
    + rewrite E_first, Hm. ring.
    + intros x y. rewrite !Rmult_0_r, !Rplus_0_r. reflexivity.
  - unfold GothicMC.Va_t. rewrite E2. cbn [bind]. do 2 f_equal.
    rewrite (E_ext _ _ (fun x _ =>
               GothicMC.Rfree g
               * GothicMC.u_prime g
                   (c_prime (GothicMC.Rfree g * a / GothicMC.Gamma_last g + x)))).
    + rewrite E_first, Hm. ring.
    + intros x y. rewrite !Rmult_0_r, !Rplus_0_r. reflexivity.
Qed.

(** With the mixed risky return and assets [2] the marginal value of the
    share is [1/6] at share [0] and [-1/20] at share [1]: the solver
    interpolates and returns [10/13]. *)
Lemma gmc_mixed_Vsigma_Tminus1 :
  GothicMC.Vsigma_Tminus1 MoreExamples.gmc_mixed 2 0 = GothicMC.Fin (1 / 6) /\
  GothicMC.Vsigma_Tminus1 MoreExamples.gmc_mixed 2 1 = GothicMC.Fin (- 1 / 20).
Proof.
  unfold GothicMC.Vsigma_Tminus1. destruct (Req_dec_T 2 0); [lra|].
  unfold Expect.E, Expect.sum_over. simpl. split; f_equal; field.
Qed.

Lemma gmc_mixed_varsigma_Tminus1 :
  GothicMC.varsigma_Tminus1 MoreExamples.gmc_mixed 2 = Some (10 / 13).
Proof.
  unfold GothicMC.varsigma_Tminus1.
  assert (EG : GothicMC.varsigma_grids MoreExamples.gmc_mixed = [0; 1]).
  { unfold GothicMC.varsigma_grids; simpl. f_equal; [|f_equal]; field. }
  rewrite EG. cbn [map].
  destruct gmc_mixed_Vsigma_Tminus1 as [-> ->].
  unfold GothicMC.find_share. destruct (Rlt_dec 2 0); [lra|].
  cbn [Py.list_last bind GothicMC.gt0 GothicMC.lt0 Py.list_get nth_error].
  destruct (Rlt_dec 0 (- 1 / 20)); [lra|].
  destruct (Rlt_dec (1 / 6) 0); [lra|].
  unfold GothicMC.crossing, GothicMC.argwhere.
  cbn [tl removelast combine map GothicMC.le0 GothicMC.ge0].
  destruct (Rle_dec (- 1 / 20) 0); [|lra]. destruct (Rle_dec 0 (1 / 6)); [|lra].
  cbn [andb GothicMC.argwhere_from app hd_error bind Py.list_get nth_error Nat.add
       GothicMC.interpolate].
  unfold float_div. destruct (Req_dec_T (- 1 / 20 - 1 / 6) 0); [lra|].
  cbn [bind]. f_equal. field.
Qed.

Lemma share_is_corner_or_chord_root_witness :
  0 < 2 /\
  GothicMC.varsigma_Tminus1 MoreExamples.gmc_mixed 2 = Some (10 / 13) /\
  ((10 / 13 = 1 /\ exists sl f,
      Py.list_last (GothicMC.varsigma_grids MoreExamples.gmc_mixed) = Some sl /\
      GothicMC.Vsigma_Tminus1 MoreExamples.gmc_mixed 2 sl = GothicMC.Fin f /\ 0 < f) \/
   (10 / 13 = 0 /\ exists s0 f,
      Py.list_get (GothicMC.varsigma_grids MoreExamples.gmc_mixed) 0 = Some s0 /\
      GothicMC.Vsigma_Tminus1 MoreExamples.gmc_mixed 2 s0 = GothicMC.Fin f /\ f < 0) \/
   (exists idx bs ts b t,
      Py.list_get (GothicMC.varsigma_grids MoreExamples.gmc_mixed) idx = Some bs /\
      Py.list_get (GothicMC.varsigma_grids MoreExamples.gmc_mixed) (idx + 1) = Some ts /\
      GothicMC.Vsigma_Tminus1 MoreExamples.gmc_mixed 2 bs = GothicMC.Fin b /\
      GothicMC.Vsigma_Tminus1 MoreExamples.gmc_mixed 2 ts = GothicMC.Fin t /\
      0 <= b /\ t <= 0 /\ b <> t /\
      (ts - 10 / 13) * b + (10 / 13 - bs) * t = 0)).
Proof.
  assert (H2 : 0 < 2) by lra.
  split; [exact H2|]. split; [exact gmc_mixed_varsigma_Tminus1|].
  exact (proj1 (share_is_corner_or_chord_root MoreExamples.gmc_mixed 2 (fun m => m) H2)
           (10 / 13) gmc_mixed_varsigma_Tminus1).
Defined.

Lemma gmc_mixed_FOC_real_valued :
  FOC_real_valued MoreExamples.gmc_mixed (- (1 / 4)) (fun m => m).
Proof.
  intros _ s n1 n2 Hs Hn1 Hn2.
  assert (EG : GothicMC.varsigma_grids MoreExamples.gmc_mixed = [0; 1]).
  { unfold GothicMC.varsigma_grids; simpl. f_equal; [|f_equal]; field. }
  rewrite EG in Hs. simpl in Hn1, Hn2.
  destruct Hn1 as [<-|[]]. destruct Hn2 as [<-|[<-|[]]];
    destruct Hs as [<-|[<-|[]]]; simpl; lra.
Qed.

Lemma Va_negative_assets_riskless_witness :
  - (1 / 4) < 0 /\
  Expect.sum_over (X2 (GothicMC.Distribution MoreExamples.gmc_mixed)) probability = 1 /\
  FOC_real_valued MoreExamples.gmc_mixed (- (1 / 4)) (fun m => m) /\
  (forall n, In n (X1 (GothicMC.Distribution MoreExamples.gmc_mixed)) ->
     0 < 1 * - (1 / 4) / 1 + value n) /\
  GothicMC.Va_Tminus1 MoreExamples.gmc_mixed (- (1 / 4))
  = Some (1 * 1 * Expect.sum_over (Examples.point_mass 1) (fun n =>
            probability n * (1 * / (1 * - (1 / 4) / 1 + value n)))) /\
  GothicMC.Va_t MoreExamples.gmc_mixed (- (1 / 4)) (fun m => m)
  = Some (1 * 1 * Expect.sum_over (Examples.point_mass 1) (fun n =>
            probability n * (1 * / (1 * - (1 / 4) / 1 + value n)))).
Proof.
  assert (Ha : - (1 / 4) < 0) by lra.
  assert (Hm : Expect.sum_over (X2 (GothicMC.Distribution MoreExamples.gmc_mixed))
                 probability = 1) by (simpl; lra).
  assert (Hp : forall n, In n (X1 (GothicMC.Distribution MoreExamples.gmc_mixed)) ->
                 0 < 1 * - (1 / 4) / 1 + value n).
  { intros n Hn. simpl in Hn. destruct Hn as [<-|[]]. simpl. lra. }
  pose proof (Va_negative_assets_riskless MoreExamples.gmc_mixed (- (1 / 4))
                (fun m => m) Ha Hm) as [V1 V2].
  split; [exact Ha|]. split; [exact Hm|].
  split; [exact gmc_mixed_FOC_real_valued|]. split; [exact Hp|].
  split; [exact (V1 gmc_mixed_FOC_real_valued Hp)
         | exact (V2 gmc_mixed_FOC_real_valued Hp)].
Defined.

(** ** More on the backward loops *)

Section BackwardChain.

Variable C_Tminus1 : R -> option R.
Variable C_t : R -> (R -> R) -> option R.
Variable self_a_min : R.
Variable aVec_eee : list R.
Variable constrained : bool.

(** While the loop walks down from period [start], the policy it carries is
    the one stored for the period just above, and every period it stores is
    solved against the policy stored one period later. *)
Lemma life_loop_chain (n : nat) : forall start cF d cF' d',
  for_each (LifeCycle.life_step C_Tminus1 C_t self_a_min aVec_eee constrained)
    (Py.range_down start (start - Z.of_nat n)) (cF, d) = Some (cF', d') ->
  Py.dict_get d (start + 1) = Some cF ->
  Py.dict_get d' (start - Z.of_nat n + 1) = Some cF' /\
  (forall t, (start - Z.of_nat n < t <= start)%Z ->
     exists p q,
       Py.dict_get d' (t + 1) = Some p /\ Py.dict_get d' t = Some q /\
       LifeCycle.solve_period C_Tminus1 C_t self_a_min aVec_eee constrained (Some p)
       = Some q) /\
  (forall t, (start < t)%Z -> Py.dict_get d' t = Py.dict_get d t).
Proof.
  induction n as [|n IH]; intros start cF d cF' d' H Hd.
  - replace (start - Z.of_nat 0)%Z with start in * by lia.
    unfold Py.range_down in H. rewrite Z.sub_diag in H. simpl in H.
    injection H as <- <-. split; [|split].
    + replace (start + 1)%Z with (start + 1)%Z by lia. exact Hd.
    + intros t Ht. lia.
    + reflexivity.
  - rewrite range_down_cons in H by lia.
    replace (start - Z.of_nat (S n))%Z with (start - 1 - Z.of_nat n)%Z in * by lia.
    cbn [for_each] in H. apply bind_some in H. destruct H as ([cF1 d1] & E & H).
    unfold LifeCycle.life_step in E at 1.
    apply bind_some in E. destruct E as (p1 & E1 & E). injection E as <- <-.
    destruct (IH (start - 1)%Z _ _ _ _ H) as (Hlast & Hchain & Hkeep).
    { rewrite dict_get_set. replace (start - 1 + 1)%Z with start by lia.
      rewrite Z.eqb_refl. reflexivity. }
    split; [exact Hlast|]. split.
    + intros t Ht. destruct (Z.eq_dec t start) as [->|Hne].
      * exists cF, p1. rewrite !Hkeep by lia. rewrite !dict_get_set.
        rewrite Z.eqb_refl. destruct (Z.eqb_spec (start + 1) start); [lia|].
        auto.
      * apply Hchain. lia.
    + intros t Ht. rewrite Hkeep by lia. rewrite dict_get_set.
      destruct (Z.eqb_spec t start); [lia | reflexivity].
Qed.

Lemma life_cycle_chain (T : Z) cF d :
  (1 <= T)%Z ->
  LifeCycle.life_cycle C_Tminus1 C_t self_a_min aVec_eee constrained T = Some (cF, d) ->
  (exists p,
     LifeCycle.solve_period C_Tminus1 C_t self_a_min aVec_eee constrained None = Some p /\
     Py.dict_get d (T - 1) = Some p) /\
  (forall t, (0 <= t < T - 1)%Z ->
     exists p q,
       Py.dict_get d (t + 1) = Some p /\ Py.dict_get d t = Some q /\
       LifeCycle.solve_period C_Tminus1 C_t self_a_min aVec_eee constrained (Some p)
       = Some q) /\
  Py.dict_get d 0 = Some cF.
Proof.
  intros HT H. unfold LifeCycle.life_cycle in H.
  apply bind_some in H. destruct H as (p0 & E0 & H).
  replace (-1)%Z with (T - 2 - Z.of_nat (Z.to_nat (T - 1)))%Z in H by lia.
  apply life_loop_chain in H.
  - destruct H as (Hlast & Hchain & Hkeep).
    replace (T - 2 - Z.of_nat (Z.to_nat (T - 1)) + 1)%Z with 0%Z in Hlast by lia.
    split; [|split].
    + exists p0. split; [exact E0|]. rewrite Hkeep by lia. simpl.
      rewrite Z.eqb_refl. reflexivity.
    + intros t Ht. apply Hchain. lia.
    + exact Hlast.
  - simpl. replace (T - 2 + 1)%Z with (T - 1)%Z by lia. rewrite Z.eqb_refl. reflexivity.
Qed.

(** X12.  Backward induction: for a horizon [T >= 1], when the loop
    finishes the policy stored for period [T - 1] is the one solved without
    a continuation, the policy stored for every earlier period [t] is the
    one solved against the policy stored for [t + 1], and the function the
    loop ends with is the policy of period [0]. *)
Theorem life_cycle_backward_induction (T : Z) cF d :
  (1 <= T)%Z ->
  LifeCycle.life_cycle C_Tminus1 C_t self_a_min aVec_eee constrained T = Some (cF, d) ->
  (exists p,
     LifeCycle.solve_period C_Tminus1 C_t self_a_min aVec_eee constrained None = Some p /\
     Py.dict_get d (T - 1) = Some p) /\
  (forall t, (0 <= t < T - 1)%Z ->
     exists p q,
       Py.dict_get d (t + 1) = Some p /\ Py.dict_get d t = Some q /\
       LifeCycle.solve_period C_Tminus1 C_t self_a_min aVec_eee constrained (Some p)
       = Some q) /\
  Py.dict_get d 0 = Some cF.
Proof. exact (life_cycle_chain T cF d). Qed.

(** X13.  The policy of a period depends only on the number of periods
    left: two solves of the same model with horizons [T] and [T'] store the
    same policy [k] periods before their respective ends. *)
Theorem life_cycle_periods_to_go (T T' : Z) cF d cF' d' :
  (1 <= T)%Z -> (1 <= T')%Z ->
  LifeCycle.life_cycle C_Tminus1 C_t self_a_min aVec_eee constrained T = Some (cF, d) ->
  LifeCycle.life_cycle C_Tminus1 C_t self_a_min aVec_eee constrained T' = Some (cF', d') ->
  forall k, (0 <= k < T)%Z -> (k < T')%Z ->
    Py.dict_get d (T - 1 - k) = Py.dict_get d' (T' - 1 - k).
Proof.
  intros HT HT' E E'.
  destruct (life_cycle_chain T cF d HT E) as ((p0 & E0 & Ed0) & Hc & _).
  destruct (life_cycle_chain T' cF' d' HT' E') as ((p0' & E0' & Ed0') & Hc' & _).
  assert (K : forall n : nat, (Z.of_nat n < T)%Z -> (Z.of_nat n < T')%Z ->
            Py.dict_get d (T - 1 - Z.of_nat n) = Py.dict_get d' (T' - 1 - Z.of_nat n)).
  { induction n as [|n IH]; intros Hn Hn'.
    - replace (T - 1 - Z.of_nat 0)%Z with (T - 1)%Z by lia.
      replace (T' - 1 - Z.of_nat 0)%Z with (T' - 1)%Z by lia.
      congruence.
    - specialize (IH ltac:(lia) ltac:(lia)).
      destruct (Hc (T - 1 - Z.of_nat (S n))%Z ltac:(lia)) as (p & q & Hp & Hq & Hs).
      destruct (Hc' (T' - 1 - Z.of_nat (S n))%Z ltac:(lia)) as (p' & q' & Hp' & Hq' & Hs').
      replace (T - 1 - Z.of_nat (S n) + 1)%Z with (T - 1 - Z.of_nat n)%Z in Hp by lia.
      replace (T' - 1 - Z.of_nat (S n) + 1)%Z with (T' - 1 - Z.of_nat n)%Z in Hp' by lia.
      rewrite Hq, Hq'. rewrite Hp, Hp' in IH. injection IH as <-. congruence. }
  intros k Hk Hk'. specialize (K (Z.to_nat k)).
  rewrite Z2Nat.id in K by lia. apply K; lia.
Qed.

End BackwardChain.

Lemma life_cycle_backward_induction_witness :
  (1 <= 3)%Z /\
  exists cF d,
    LifeCycle.life_cycle (Gothic.C_Tminus1 (Examples.gothic 1))
      (Gothic.C_t (Examples.gothic 1)) (- 1) [1; 2] true 3 = Some (cF, d) /\
    (exists p,
       LifeCycle.solve_period (Gothic.C_Tminus1 (Examples.gothic 1))
         (Gothic.C_t (Examples.gothic 1)) (- 1) [1; 2] true None = Some p /\
       Py.dict_get d (3 - 1) = Some p) /\
    (forall t, (0 <= t < 3 - 1)%Z ->
       exists p q,
         Py.dict_get d (t + 1) = Some p /\ Py.dict_get d t = Some q /\
         LifeCycle.solve_period (Gothic.C_Tminus1 (Examples.gothic 1))
           (Gothic.C_t (Examples.gothic 1)) (- 1) [1; 2] true (Some p) = Some q) /\
    Py.dict_get d 0 = Some cF.
Proof.
  assert (H3 : (1 <= 3)%Z) by lia. split; [exact H3|].
  destruct (gothic_life_cycle_total (Examples.gothic 1) gothic_example_well_posed
              [1; 2] grid_1_2 true (- 1) 3) as (cF & d & E); [lra|].
  exists cF, d. split; [exact E|].
  exact (life_cycle_backward_induction _ _ _ _ _ 3 cF d H3 E).
Defined.

Lemma life_cycle_periods_to_go_witness :
  (1 <= 3)%Z /\ (1 <= 5)%Z /\
  exists cF d cF' d',
    LifeCycle.life_cycle (Gothic.C_Tminus1 (Examples.gothic 1))
      (Gothic.C_t (Examples.gothic 1)) (- 1) [1; 2] true 3 = Some (cF, d) /\
    LifeCycle.life_cycle (Gothic.C_Tminus1 (Examples.gothic 1))
      (Gothic.C_t (Examples.gothic 1)) (- 1) [1; 2] true 5 = Some (cF', d') /\
    forall k, (0 <= k < 3)%Z -> (k < 5)%Z ->
      Py.dict_get d (3 - 1 - k) = Py.dict_get d' (5 - 1 - k).
Proof.
  assert (H3 : (1 <= 3)%Z) by lia. assert (H5 : (1 <= 5)%Z) by lia.
  split; [exact H3|]. split; [exact H5|].
  destruct (gothic_life_cycle_total (Examples.gothic 1) gothic_example_well_posed
              [1; 2] grid_1_2 true (- 1) 3) as (cF & d & E); [lra|].
  destruct (gothic_life_cycle_total (Examples.gothic 1) gothic_example_well_posed
              [1; 2] grid_1_2 true (- 1) 5) as (cF' & d' & E'); [lra|].
  exists cF, d, cF', d'. split; [exact E|]. split; [exact E'|].
  exact (life_cycle_periods_to_go _ _ _ _ _ 3 5 cF d cF' d' H3 H5 E E').
Defined.

(** ** More on the sweeps and the borrowing limit *)

Lemma stored_c_nonneg (b : bool) (cs grid : list R) :
  Forall (fun a => 0 <= a) grid ->
  map (LifeCycle.stored_c b) (combine cs grid) = map fst (combine cs grid).
Proof.
  intros H. apply map_ext_in. intros [c a] Hin. apply in_combine_r in Hin.
  rewrite Forall_forall in H. specialize (H a Hin).
  unfold LifeCycle.stored_c. destruct b; [|reflexivity].
  cbn [fst]. unfold Rmin. destruct (Rle_dec c (c + a)); [reflexivity | lra].
Qed.

Lemma stored_c_nonpos (cs grid : list R) :
  Forall (fun a => a <= 0) grid ->
  map (LifeCycle.stored_c true) (combine cs grid)
  = map LifeCycle.stored_m (combine cs grid).
Proof.
  intros H. apply map_ext_in. intros [c a] Hin. apply in_combine_r in Hin.
  rewrite Forall_forall in H. specialize (H a Hin).
  unfold LifeCycle.stored_c, LifeCycle.stored_m.
  unfold Rmin. destruct (Rle_dec c (c + a)); lra.
Qed.

(** X14.  On a grid of non-negative asset levels the clipping
    [c = np.minimum(c, m)] never changes a value: the sweep under
    [constrained = True] stores the same controls as the sweep under
    [constrained = False], and the same states after the first one, which
    is [0] instead of a negative [self_a_min]. *)
Theorem constraint_moves_only_first_knot
    (s : R) (grid : list R) (C : R -> option R) (cVec mVec : list R) :
  Forall (fun a => 0 <= a) grid ->
  LifeCycle.sweep s grid true C = Some (cVec, mVec) ->
  LifeCycle.sweep s grid false C = Some (cVec, s :: tl mVec) /\
  hd_error mVec = Some (if Rlt_dec s 0 then 0 else s).
Proof.
  intros Hg H. apply sweep_inv in H.
  destruct H as (m0 & cs & Hm & HF & -> & ->).
  rewrite mVec0_cases in Hm. injection Hm as <-.
  split; [|reflexivity].
  rewrite (sweep_some s grid false C cs HF).
  rewrite mVec0_cases. cbn [app tl].
  rewrite (stored_c_nonneg true), (stored_c_nonneg false) by assumption.
  reflexivity.
Qed.

Lemma constraint_moves_only_first_knot_witness :
  Forall (fun a => 0 <= a) [1; 2] /\
  exists cVec mVec,
    LifeCycle.sweep (- 1) [1; 2] true (fun a => Some (a / 2)) = Some (cVec, mVec) /\
    LifeCycle.sweep (- 1) [1; 2] false (fun a => Some (a / 2))
    = Some (cVec, - 1 :: tl mVec) /\
    hd_error mVec = Some (if Rlt_dec (- 1) 0 then 0 else - 1).
Proof.
  assert (Hg : Forall (fun a => 0 <= a) [1; 2]) by (repeat constructor; lra).
  split; [exact Hg|].
  assert (E : exists cVec mVec,
             LifeCycle.sweep (- 1) [1; 2] true (fun a => Some (a / 2))
             = Some (cVec, mVec)).
  { unfold LifeCycle.sweep. cbn [for_each LifeCycle.sweep_step bind].
    eexists; eexists; reflexivity. }
  destruct E as (cVec & mVec & E). exists cVec, mVec. split; [exact E|].
  exact (constraint_moves_only_first_knot (- 1) [1; 2] _ cVec mVec Hg E).
Defined.

(** X15.  On a grid of asset levels that are not positive the clipping
    always binds: under [constrained = True] every control stored after
    the first one equals the state stored with it, [c = m]. *)
Theorem constraint_binds_without_assets
    (s : R) (grid : list R) (C : R -> option R) (cVec mVec : list R) :
  Forall (fun a => a <= 0) grid ->
  LifeCycle.sweep s grid true C = Some (cVec, mVec) ->
  tl cVec = tl mVec /\ length cVec = S (length grid).
Proof.
  intros Hg H. apply sweep_inv in H.
  destruct H as (m0 & cs & _ & HF & -> & ->). cbn [tl length].
  split; [apply stored_c_nonpos; exact Hg|].
  rewrite length_map, length_combine.
  apply Forall2_length in HF. rewrite HF, Nat.min_id. reflexivity.
Qed.

Lemma constraint_binds_without_assets_witness :
  Forall (fun a => a <= 0) [- 2; - 1] /\
  exists cVec mVec,
    LifeCycle.sweep (- 3) [- 2; - 1] true (fun a => Some (a + 3)) = Some (cVec, mVec) /\
    tl cVec = tl mVec /\ length cVec = S (length [- 2; - 1]).
Proof.
  assert (Hg : Forall (fun a => a <= 0) [- 2; - 1]) by (repeat constructor; lra).
  split; [exact Hg|].
  assert (E : exists cVec mVec,
             LifeCycle.sweep (- 3) [- 2; - 1] true (fun a => Some (a + 3))
             = Some (cVec, mVec)).
  { unfold LifeCycle.sweep. cbn [for_each LifeCycle.sweep_step bind].
    eexists; eexists; reflexivity. }
  destruct E as (cVec & mVec & E). exists cVec, mVec. split; [exact E|].
  exact (constraint_binds_without_assets (- 3) [- 2; - 1] _ cVec mVec Hg E).
Defined.

Lemma mapM_none {A B : Type} (f : A -> option B) (l : list A) (x : A) :
  In x l -> f x = None -> mapM f l = None.
Proof.
  induction l as [|y l IH]; intros Hin Hx; [contradiction|].
  simpl. destruct Hin as [->|Hin].
  - rewrite Hx. reflexivity.
  - destruct (f y); [|reflexivity]. cbn [bind]. rewrite (IH Hin Hx). reflexivity.
Qed.

Lemma sweep_none (s : R) (grid : list R) (b : bool) (C : R -> option R) (a : R) :
  In a grid -> C a = None -> LifeCycle.sweep s grid b C = None.
Proof.
  intros Hin Ha. unfold LifeCycle.sweep. rewrite sweep_loop.
  rewrite (mapM_none C grid a Hin Ha). reflexivity.
Qed.

(** X16.  No period is solved half-way.  When the implied consumption of
    the last decision period has no value at one point of the asset grid,
    the whole computation has no result, whatever the horizon; and when the
    last period is solved but the implied consumption against its policy
    has no value at one grid point, the computation has no result as soon
    as the loop makes a pass ([T >= 2]). *)
Theorem life_cycle_fails_with_consumption
    (C_Tminus1 : R -> option R) (C_t : R -> (R -> R) -> option R)
    (s : R) (aVec_eee : list R) (constrained : bool) (a : R) :
  In a aVec_eee ->
  (C_Tminus1 a = None ->
   forall T, LifeCycle.life_cycle C_Tminus1 C_t s aVec_eee constrained T = None) /\
  (forall p,
     LifeCycle.solve_period C_Tminus1 C_t s aVec_eee constrained None = Some p ->
     C_t a (Spline.evaluate p) = None ->
     forall T, (2 <= T)%Z ->
       LifeCycle.life_cycle C_Tminus1 C_t s aVec_eee constrained T = None).
Proof.
  intros Hin. split.
  - intros Ha T. unfold LifeCycle.life_cycle, LifeCycle.solve_period.
    rewrite (sweep_none s aVec_eee constrained
               (LifeCycle.consumption C_Tminus1 C_t None) a Hin Ha).
    reflexivity.
  - intros p Ep Ha T HT. unfold LifeCycle.life_cycle. rewrite Ep. cbn [bind].
    rewrite range_down_cons by lia. cbn [for_each].
    unfold LifeCycle.life_step at 1. unfold LifeCycle.solve_period at 1.
    rewrite (sweep_none s aVec_eee constrained
               (LifeCycle.consumption C_Tminus1 C_t (Some p)) a Hin Ha).
    reflexivity.
Qed.

Lemma life_cycle_fails_with_consumption_witness :
  In (- 1) [1; - 1] /\
  (Gothic.C_Tminus1 (Examples.gothic 1) (- 1) = None ->
   forall T,
     LifeCycle.life_cycle (Gothic.C_Tminus1 (Examples.gothic 1))
       (Gothic.C_t (Examples.gothic 1)) (- 1) [1; - 1] true T = None) /\
  Gothic.C_Tminus1 (Examples.gothic 1) (- 1) = None.
Proof.
  assert (Hin : In (- 1) [1; - 1]) by (right; left; reflexivity).
  split; [exact Hin|]. split.
  - exact (proj1 (life_cycle_fails_with_consumption
                    (Gothic.C_Tminus1 (Examples.gothic 1))
                    (Gothic.C_t (Examples.gothic 1)) (- 1) [1; - 1] true (- 1) Hin)).
  - unfold Gothic.C_Tminus1, Gothic.implied_consumption,
      Gothic.expected_marginal_value. simpl.
    unfold Utility.marginal. destruct (Rlt_dec 0 (1 * - 1 / 1 + 1)); [lra|].
    reflexivity.
Defined.

Lemma list_min_le (l : list R) (m : R) :
  Py.list_min l = Some m -> forall x, In x l -> m <= x.
Proof.
  revert m. induction l as [|y l IH]; intros m H x Hin; [contradiction|].
  destruct l as [|z l].
  - simpl in H. injection H as <-. destruct Hin as [->|[]]. lra.
  - change (Py.list_min (y :: z :: l))
      with (m' <- Py.list_min (z :: l) ;; Some (Rmin y m')) in H.
    apply bind_some in H. destruct H as (m' & Em & H). injection H as <-.
    destruct Hin as [->|Hin].
    + apply Rmin_l.
    + eapply Rle_trans; [apply Rmin_r|]. apply (IH m' Em x Hin).
Qed.

(** X17.  [self_a_min] is the natural borrowing limit: with end-of-period
    assets [self_a_min], next period's resources
    [R * a / PermGroFac[0] + theta] are never negative, whatever the income
    shock, and they are exactly [0] at the worst shock. *)
Theorem self_a_min_leaves_no_resources
    (theta : list R) (PermGroFac0 Rfree s : R) :
  PermGroFac0 <> 0 ->
  self_a_min theta PermGroFac0 Rfree = Some s ->
  (forall x, In x theta -> 0 <= Rfree * s / PermGroFac0 + x) /\
  (exists x, In x theta /\ Rfree * s / PermGroFac0 + x = 0).
Proof.
  intros HG H. unfold self_a_min in H.
  apply bind_some in H. destruct H as (m & Em & H).
  unfold float_div in H. destruct (Req_dec_T Rfree 0) as [|HR]; [discriminate|].
  injection H as <-.
  assert (K : Rfree * (- m * PermGroFac0 / Rfree) / PermGroFac0 = - m)
    by (field; split; assumption).
  rewrite K. split.
  - intros x Hx. pose proof (list_min_le theta m Em x Hx). lra.
  - exists m. split; [apply list_min_in; exact Em | lra].
Qed.

Lemma self_a_min_leaves_no_resources_witness :
  1 <> 0 /\
  self_a_min [3; 2; 5] 1 4 = Some (- Rmin 3 (Rmin 2 5) * 1 / 4) /\
  (forall x, In x [3; 2; 5] -> 0 <= 4 * (- Rmin 3 (Rmin 2 5) * 1 / 4) / 1 + x) /\
  (exists x, In x [3; 2; 5] /\ 4 * (- Rmin 3 (Rmin 2 5) * 1 / 4) / 1 + x = 0).
Proof.
  assert (H1 : 1 <> 0) by lra.
  assert (E : self_a_min [3; 2; 5] 1 4 = Some (- Rmin 3 (Rmin 2 5) * 1 / 4)).
  { unfold self_a_min. simpl. unfold float_div.
    destruct (Req_dec_T 4 0); [lra | reflexivity]. }
  split; [exact H1|]. split; [exact E|].
  exact (self_a_min_leaves_no_resources [3; 2; 5] 1 4 _ H1 E).
Defined.

(** X18.  [self_a_min] has no value exactly when there is no income shock
    to take the minimum of, or when the riskless return is [0]. *)
Theorem self_a_min_undefined (theta : list R) (PermGroFac0 Rfree : R) :
  self_a_min theta PermGroFac0 Rfree = None <-> theta = [] \/ Rfree = 0.
Proof.
  unfold self_a_min, float_div. split.
  - intros H. destruct theta as [|x l]; [left; reflexivity|].
    destruct (list_min_some (x :: l)) as (m & Em); [discriminate|].
    rewrite Em in H. cbn [bind] in H.
    destruct (Req_dec_T Rfree 0); [right; assumption | discriminate].
  - intros [->| ->]; [reflexivity|].
    destruct (Py.list_min theta); [|reflexivity]. cbn [bind].
    destruct (Req_dec_T 0 0); [reflexivity | lra].
Qed.

(** ** The backward loop of the portfolio solver *)

Section PortfolioChain.

Variable gothicMC : GothicMC.engine.
Variable aVec_eee_big : list R.

Lemma stored_at_store (l : Portfolio.life) (t : Z) (p : Portfolio.period) :
  stored_at (Portfolio.store l t p) t p.
Proof.
  unfold stored_at, Portfolio.store; cbn.
  rewrite !dict_get_set, Z.eqb_refl. repeat split.
Qed.

Lemma stored_at_store_other (l : Portfolio.life) (t t' : Z) (p p' : Portfolio.period) :
  t <> t' -> stored_at (Portfolio.store l t' p') t p <-> stored_at l t p.
Proof.
  intros Hne. unfold stored_at, Portfolio.store; cbn.
  rewrite !dict_get_set. destruct (Z.eqb_spec t t'); [contradiction|]. tauto.
Qed.

(** While the loop walks down from period [start], the policy it carries is
    the one stored for the period just above, and the five entries of every
    period it stores come from one period solved against the policy stored
    one period later. *)
Lemma port_loop_chain (n : nat) : forall start cF l cF' l',
  for_each (Portfolio.life_step gothicMC aVec_eee_big)
    (Py.range_down start (start - Z.of_nat n)) (cF, l) = Some (cF', l') ->
  Py.dict_get (Portfolio.cFuncPort_life l) (start + 1) = Some cF ->
  Py.dict_get (Portfolio.cFuncPort_life l') (start - Z.of_nat n + 1) = Some cF' /\
  (forall t, (start - Z.of_nat n < t <= start)%Z ->
     exists f p,
       Py.dict_get (Portfolio.cFuncPort_life l') (t + 1) = Some f /\
       Portfolio.solve_period gothicMC aVec_eee_big (Some f) = Some p /\
       stored_at l' t p) /\
  (forall t p, (start < t)%Z -> stored_at l' t p <-> stored_at l t p) /\
  (forall t, (start < t)%Z ->
     Py.dict_get (Portfolio.cFuncPort_life l') t
     = Py.dict_get (Portfolio.cFuncPort_life l) t).
Proof.
  induction n as [|n IH]; intros start cF l cF' l' H Hd.
  - replace (start - Z.of_nat 0)%Z with start in * by lia.
    unfold Py.range_down in H. rewrite Z.sub_diag in H. simpl in H.
    injection H as <- <-. split; [exact Hd|]. split; [|split].
    + intros t Ht. lia.
    + tauto.
    + reflexivity.
  - rewrite range_down_cons in H by lia.
    replace (start - Z.of_nat (S n))%Z with (start - 1 - Z.of_nat n)%Z in * by lia.
    cbn [for_each] in H. apply bind_some in H. destruct H as ([cF1 l1] & E & H).
    unfold Portfolio.life_step in E at 1.
    apply bind_some in E. destruct E as (p1 & E1 & E). injection E as <- <-.
    destruct (IH (start - 1)%Z _ _ _ _ H) as (Hlast & Hchain & Hkeep & Hkeepc).
    { unfold Portfolio.store; cbn. rewrite dict_get_set.
      replace (start - 1 + 1)%Z with start by lia.
      rewrite Z.eqb_refl. reflexivity. }
    assert (Hc1 : forall t, (start < t)%Z ->
              Py.dict_get (Portfolio.cFuncPort_life (Portfolio.store l start p1)) t
              = Py.dict_get (Portfolio.cFuncPort_life l) t).
    { intros t Ht. unfold Portfolio.store; cbn. rewrite dict_get_set.
      destruct (Z.eqb_spec t start); [lia | reflexivity]. }
    split; [exact Hlast|]. split; [|split].
    + intros t Ht. destruct (Z.eq_dec t start) as [->|Hne].
      * exists cF, p1. split; [|split].
        -- rewrite Hkeepc by lia. rewrite Hc1 by lia. exact Hd.
        -- exact E1.
        -- apply Hkeep; [lia|]. apply stored_at_store.
      * apply Hchain. lia.
    + intros t p Ht. rewrite Hkeep by lia. apply stored_at_store_other. lia.
    + intros t Ht. rewrite Hkeepc by lia. apply Hc1. exact Ht.
Qed.

(** X19.  Backward induction in the portfolio solver: for a horizon
    [T >= 2], when the loop finishes the five dictionaries hold under
    [T - 1] the results of the period solved without a continuation, under
    every [t] from [1] to [T - 2] the results of one period solved against
    the consumption function stored under [t + 1], and the function the
    loop ends with is the one stored under [1]. *)
Theorem portfolio_backward_induction (T : Z) cF l :
  (2 <= T)%Z ->
  Portfolio.life_cycle gothicMC aVec_eee_big T = Some (cF, l) ->
  (exists p,
     Portfolio.solve_period gothicMC aVec_eee_big None = Some p /\
     stored_at l (T - 1) p) /\
  (forall t, (1 <= t < T - 1)%Z ->
     exists f p,
       Py.dict_get (Portfolio.cFuncPort_life l) (t + 1) = Some f /\
       Portfolio.solve_period gothicMC aVec_eee_big (Some f) = Some p /\
       stored_at l t p) /\
  Py.dict_get (Portfolio.cFuncPort_life l) 1 = Some cF.
Proof.
  intros HT H. unfold Portfolio.life_cycle in H.
  apply bind_some in H. destruct H as (p0 & E0 & H).
  replace 0%Z with (T - 2 - Z.of_nat (Z.to_nat (T - 2)))%Z in H at 1 by lia.
  apply port_loop_chain in H.
  - destruct H as (Hlast & Hchain & Hkeep & _).
    replace (T - 2 - Z.of_nat (Z.to_nat (T - 2)) + 1)%Z with 1%Z in Hlast by lia.
    split; [|split].
    + exists p0. split; [exact E0|]. apply Hkeep; [lia|]. apply stored_at_store.
    + intros t Ht. apply Hchain. lia.
    + exact Hlast.
  - unfold Portfolio.store; cbn [Portfolio.cFuncPort_life]. rewrite dict_get_set.
    replace (T - 2 + 1)%Z with (T - 1)%Z by lia. rewrite Z.eqb_refl. reflexivity.
Qed.

End PortfolioChain.

Lemma asset_grid_1_2_size : (2 <= length [1; 2])%nat.
Proof. simpl. lia. Qed.

Lemma portfolio_backward_induction_witness :
  (2 <= 4)%Z /\
  exists cF l,
    Portfolio.life_cycle Examples.gmc_risky [1; 2] 4 = Some (cF, l) /\
    (exists p,
       Portfolio.solve_period Examples.gmc_risky [1; 2] None = Some p /\
       stored_at l (4 - 1) p) /\
    (forall t, (1 <= t < 4 - 1)%Z ->
       exists f p,
         Py.dict_get (Portfolio.cFuncPort_life l) (t + 1) = Some f /\
         Portfolio.solve_period Examples.gmc_risky [1; 2] (Some f) = Some p /\
         stored_at l t p) /\
    Py.dict_get (Portfolio.cFuncPort_life l) 1 = Some cF.
Proof.
  assert (H4 : (2 <= 4)%Z) by lia. split; [exact H4|].
  destruct (gmc_risky_life_cycle_total [1; 2] grid_1_2 asset_grid_1_2_size 4)
    as (cF & l & E).
  exists cF, l. split; [exact E|].
  exact (portfolio_backward_induction Examples.gmc_risky [1; 2] 4 cF l H4 E).
Defined.
